(** * A shallow embedding of the DataLoader engine (dataloader.ts)

    The engine lives in [src/unnamed/part_003].  JavaScript values, the
    constructor's option validation, promises, the loader state, [load],
    [loadMany], [clear], [clearAll], [prime], the batch scheduler and the
    dispatcher are modelled below; the theorems at the end of the file
    settle the properties stated in the specification. *)

From Stdlib Require Import QArith Qround ZArith String List Bool Lia.
From stdpp Require Import base gmap list.

Import ListNotations.
Open Scope string_scope.
Open Scope list_scope.
Set Warnings "-register-all -unused-intro-pattern".

(* ------------------------------------------------------------------ *)
(** ** JavaScript values *)

(** A JS number: a finite (rational) value, the infinities, or NaN. *)
Inductive jsnum :=
| NFin (q : Q)
| NInf
| NNegInf
| NNaN.

(** The JS values the engine handles.  Objects (errors, functions, plain
    objects, arrays) carry an identity.  An error records its name and
    message; a plain object records the names of its function-valued
    properties (own or inherited) and its other own enumerable properties
    with their values.  Values are trees: a cyclic object graph is not
    represented. *)
Inductive jsval :=
| JUndefined
| JNull
| JBool (b : bool)
| JNum (n : jsnum)
| JStr (s : string)
| JBigInt (z : Z)
| JError (id : nat) (name msg : string)
| JFun (id : nat)
| JObj (id : nat) (methods : list string) (props : list (string * jsval))
| JArr (id : nat) (elems : list jsval).

Definition typeof (v : jsval) : string :=
  match v with
  | JUndefined => "undefined"
  | JNull => "object"
  | JBool _ => "boolean"
  | JNum _ => "number"
  | JStr _ => "string"
  | JBigInt _ => "bigint"
  | JError _ _ _ => "object"
  | JFun _ => "function"
  | JObj _ _ _ => "object"
  | JArr _ _ => "object"
  end.

(** [!v] *)
Definition is_falsy (v : jsval) : bool :=
  match v with
  | JUndefined | JNull => true
  | JBool b => negb b
  | JNum (NFin q) => Qeq_bool q 0
  | JNum NNaN => true
  | JStr s => String.eqb s ""
  | JBigInt z => Z.eqb z 0
  | _ => false
  end.

(** [key === null || key === undefined] *)
Definition is_nullish (v : jsval) : bool :=
  match v with
  | JUndefined | JNull => true
  | _ => false
  end.

(** [typeof v[name] === "function"] *)
Definition has_method (v : jsval) (name : string) : bool :=
  match v with
  | JObj _ ms _ => existsb (String.eqb name) ms
  | _ => false
  end.

(** [v instanceof Error] *)
Definition is_error (v : jsval) : bool :=
  match v with
  | JError _ _ _ => true
  | _ => false
  end.

(** [isArrayLike]: an object whose numeric [length] is 0 or whose last
    index is an own property; of the values above only arrays qualify. *)
Definition isArrayLike (v : jsval) : bool :=
  match v with
  | JArr _ _ => true
  | _ => false
  end.

(** A value is then-able when it is truthy and has a callable [then]. *)
Definition thenable (v : jsval) : bool := negb (is_falsy v) && has_method v "then".

(** [JSON.stringify v] throws a TypeError when it meets a BigInt: the value
    itself, an element of an array, or a property value of an object, at
    any depth.  (An object's [toJSON] method, which [JSON.stringify] would
    call, is caller code and is not represented.) *)
Fixpoint json_stringify_throws (v : jsval) : bool :=
  match v with
  | JBigInt _ => true
  | JArr _ l => existsb json_stringify_throws l
  | JObj _ _ ps => existsb (fun '(_, x) => json_stringify_throws x) ps
  | _ => false
  end.

(** [new TypeError(msg)].  The errors the engine creates are only thrown
    or used as rejection reasons, never compared by identity, so they all
    carry the identity 0. *)
Definition type_error (msg : string) : jsval := JError 0 "TypeError" msg.

(** SameValueZero, the key equality of a JS [Map]: NaN equals NaN, objects
    (errors included) compare by identity. *)
Definition same_value_zero (a b : jsval) : bool :=
  match a, b with
  | JUndefined, JUndefined => true
  | JNull, JNull => true
  | JBool x, JBool y => Bool.eqb x y
  | JNum (NFin x), JNum (NFin y) => Qeq_bool x y
  | JNum NInf, JNum NInf => true
  | JNum NNegInf, JNum NNegInf => true
  | JNum NNaN, JNum NNaN => true
  | JStr x, JStr y => String.eqb x y
  | JBigInt x, JBigInt y => Z.eqb x y
  | JError x _ _, JError y _ _ => Nat.eqb x y
  | JFun x, JFun y => Nat.eqb x y
  | JObj x _ _, JObj y _ _ => Nat.eqb x y
  | JArr x _, JArr y _ => Nat.eqb x y
  | _, _ => false
  end.

(** [n < m] for an array length [n] and a JS number [m]. *)
Definition len_lt (n : nat) (m : jsnum) : bool :=
  match m with
  | NFin q => negb (Qle_bool q (inject_Z (Z.of_nat n)))
  | NInf => true
  | NNegInf => false
  | NNaN => false
  end.

(** [m < 1] *)
Definition num_lt_one (m : jsnum) : bool :=
  match m with
  | NFin q => negb (Qle_bool 1 q)
  | NInf => false
  | NNegInf => true
  | NNaN => false
  end.

(* ------------------------------------------------------------------ *)
(** ** Constructor and option validation *)

(** [Options]: an absent property reads as [JUndefined]. *)
Record options := mkOptions {
  o_batch : jsval;
  o_maxBatchSize : jsval;
  o_batchScheduleFn : jsval;
  o_cache : jsval;
  o_cacheKeyFn : jsval;
  o_cacheMap : jsval
}.

Definition no_options : options :=
  mkOptions JUndefined JUndefined JUndefined JUndefined JUndefined JUndefined.

(** [options && options.field] for [options?: Options]. *)
Definition opt_field (f : options -> jsval) (o : option options) : jsval :=
  match o with
  | Some o => f o
  | None => JUndefined
  end.

(** [getValidMaxBatchSize]; [inl e] is a thrown error. *)
Definition getValidMaxBatchSize (o : option options) : jsval + jsnum :=
  let shouldBatch :=
    match o with
    | None => true
    | Some o => negb (same_value_zero (o_batch o) (JBool false))
    end in
  if negb shouldBatch then inr (NFin 1) else
  match opt_field o_maxBatchSize o with
  | JUndefined => inr NInf
  | JNum m => if num_lt_one m
              then inl (type_error "maxBatchSize must be a positive number")
              else inr m
  | _ => inl (type_error "maxBatchSize must be a positive number")
  end.

Inductive schedule_fn := DefaultSchedule | CustomSchedule (f : jsval).

(** [getValidBatchScheduleFn] *)
Definition getValidBatchScheduleFn (o : option options) : jsval + schedule_fn :=
  match opt_field o_batchScheduleFn o with
  | JUndefined => inr DefaultSchedule
  | f => if String.eqb (typeof f) "function" then inr (CustomSchedule f)
         else inl (type_error "batchScheduleFn must be a function")
  end.

Inductive cache_key_fn := IdentityKey | CustomKey (f : jsval).

(** [getValidCacheKeyFn] *)
Definition getValidCacheKeyFn (o : option options) : jsval + cache_key_fn :=
  match opt_field o_cacheKeyFn o with
  | JUndefined => inr IdentityKey
  | f => if String.eqb (typeof f) "function" then inr (CustomKey f)
         else inl (type_error "cacheKeyFn must be a function")
  end.

(** The cache store chosen by [getValidCacheMap]: [null], a fresh [Map],
    or the caller's object. *)
Inductive cache_choice := NoCacheMap | NewMap | CustomMap (m : jsval).

Definition cacheFunctions : list string := ["get"; "set"; "delete"; "clear"].

(** [getValidCacheMap].  The filter's test is
    [cacheMap && typeof cacheMap[fnName] !== "function"]: a falsy
    [cacheMap] (false, 0, NaN, the empty string, 0n) misses no method and
    is returned as it is. *)
Definition getValidCacheMap (o : option options) : jsval + cache_choice :=
  let shouldCache :=
    match o with
    | None => true
    | Some o => negb (same_value_zero (o_cache o) (JBool false))
    end in
  if negb shouldCache then inr NoCacheMap else
  match opt_field o_cacheMap o with
  | JUndefined => inr NewMap
  | JNull => inr NoCacheMap
  | cm =>
      let missingFunctions :=
        List.filter (fun fnName => negb (is_falsy cm) && negb (has_method cm fnName))
          cacheFunctions in
      if Nat.eqb (length missingFunctions) 0 then inr (CustomMap cm)
      else inl (type_error "Custom cacheMap missing methods")
  end.

(** The configuration a successful constructor call stores on the loader. *)
Record loader_config := mkConfig {
  c_batchLoadFn : jsval;
  c_batchScheduleFn : schedule_fn;
  c_maxBatchSize : jsnum;
  c_cacheKeyFn : cache_key_fn;
  c_cacheMap : cache_choice
}.

(** [new DataLoader(batchLoadFn, options)]: the checks run in the order of
    the constructor body. *)
Definition construct (batchLoadFn : jsval) (o : option options)
  : jsval + loader_config :=
  if negb (String.eqb (typeof batchLoadFn) "function")
  then inl (type_error "DataLoader must be constructed with a function")
  else
  match getValidBatchScheduleFn o with
  | inl e => inl e
  | inr sched =>
  match getValidMaxBatchSize o with
  | inl e => inl e
  | inr m =>
  match getValidCacheKeyFn o with
  | inl e => inl e
  | inr kf =>
  match getValidCacheMap o with
  | inl e => inl e
  | inr cm => inr (mkConfig batchLoadFn sched m kf cm)
  end end end end.

(* ------------------------------------------------------------------ *)
(** ** Promises *)

(** A promise is a single-assignment cell.  [Follows c] is a promise that
    was resolved with the promise [c] and adopts its settlement; [Adopts v]
    is one resolved with a then-able value [v] that is not a promise of
    the loader: it settles when [v]'s [then] (caller code, not represented)
    calls back, so its settlement lies outside the model. *)
Inductive pstate :=
| Pending
| Fulfilled (v : jsval)
| Rejected (e : jsval)
| Follows (c : nat)
| Adopts (v : jsval).

Inductive settlement := Resolved (v : jsval) | Failed (e : jsval).

(** The settlement a promise has reached, following adoption.  The handles
    a cache-hit promise adopts are those created by [load] or [prime],
    which never adopt another promise, so one hop is enough; the fuel is
    a bound on the hops. *)
Fixpoint outcome_n (n : nat) (ps : gmap nat pstate) (p : nat)
  : option settlement :=
  match ps !! p with
  | Some (Fulfilled v) => Some (Resolved v)
  | Some (Rejected e) => Some (Failed e)
  | Some (Follows c) =>
      match n with
      | 0 => None
      | S n' => outcome_n n' ps c
      end
  | _ => None
  end.

(* ------------------------------------------------------------------ *)
(** ** The backend batch function *)

(** How the promise returned by the batch function settles. *)
Inductive bout :=
| BResolve (values : jsval)
| BReject (e : jsval).

(** What a call of the batch function does: return a promise, return some
    other value, or throw. *)
Inductive bret :=
| BPromise (o : bout)
| BOther (v : jsval)
| BThrow (e : jsval).

(* ------------------------------------------------------------------ *)
(** ** Loader state *)

(** [Batch]: [cacheHits] is the optional array of cache-hit callbacks; the
    callback [() => resolve(cachedPromise)] of a cache hit is recorded as
    the pair of the waiting promise and the cached promise. *)
Record batch := mkBatch {
  hasDispatched : bool;
  keys : list jsval;
  callbacks : list nat;
  cacheHits : option (list (nat * nat))
}.

Definition new_batch : batch := mkBatch false [] [] None.

(** A job of the host's job queue: a scheduled [dispatchBatch], or the
    continuation attached to a batch function's promise. *)
Inductive job :=
| JDispatch (b : nat)
| JSettle (b : nat) (o : bout).

(** The heap of promises and batches, the loader's fields [_batch] and
    [_cacheMap] (a [Map] from cache keys to promises, [None] when caching is
    off), the job queue, the log of batch-function calls and the
    exceptions that escaped a job. *)
Record state := mkState {
  promises : gmap nat pstate;
  next_promise : nat;
  batches : gmap nat batch;
  next_batch : nat;
  cur_batch : option nat;
  cacheMap : option (list (jsval * nat));
  jobs : list job;
  calls : list (list jsval);
  uncaught : list jsval
}.

Definition outcome (s : state) (p : nat) : option settlement :=
  outcome_n 2 (promises s) p.

Definition init_state (caching : bool) : state :=
  mkState ∅ 0 ∅ 0 None (if caching then Some [] else None) [] [] [].

Definition set_promises (ps : gmap nat pstate) (s : state) : state :=
  mkState ps (next_promise s) (batches s) (next_batch s) (cur_batch s)
    (cacheMap s) (jobs s) (calls s) (uncaught s).
Definition set_batches (bs : gmap nat batch) (s : state) : state :=
  mkState (promises s) (next_promise s) bs (next_batch s) (cur_batch s)
    (cacheMap s) (jobs s) (calls s) (uncaught s).
Definition set_cacheMap (cm : option (list (jsval * nat))) (s : state) : state :=
  mkState (promises s) (next_promise s) (batches s) (next_batch s)
    (cur_batch s) cm (jobs s) (calls s) (uncaught s).
Definition set_jobs (js : list job) (s : state) : state :=
  mkState (promises s) (next_promise s) (batches s) (next_batch s)
    (cur_batch s) (cacheMap s) js (calls s) (uncaught s).
Definition set_calls (c : list (list jsval)) (s : state) : state :=
  mkState (promises s) (next_promise s) (batches s) (next_batch s)
    (cur_batch s) (cacheMap s) (jobs s) c (uncaught s).
Definition set_uncaught (u : list jsval) (s : state) : state :=
  mkState (promises s) (next_promise s) (batches s) (next_batch s)
    (cur_batch s) (cacheMap s) (jobs s) (calls s) u.

(** *** The [Map] operations *)

Fixpoint map_get (m : list (jsval * nat)) (k : jsval) : option nat :=
  match m with
  | [] => None
  | (k', v) :: m' => if same_value_zero k' k then Some v else map_get m' k
  end.

(** [Map.prototype.set]: overwrite in place, or append a new entry. *)
Fixpoint map_set (m : list (jsval * nat)) (k : jsval) (v : nat)
  : list (jsval * nat) :=
  match m with
  | [] => [(k, v)]
  | (k', v') :: m' =>
      if same_value_zero k' k then (k', v) :: m' else (k', v') :: map_set m' k v
  end.

Definition map_delete (m : list (jsval * nat)) (k : jsval) : list (jsval * nat) :=
  List.filter (fun e => negb (same_value_zero e.1 k)) m.

(* ------------------------------------------------------------------ *)
(** ** A state and exception monad *)

(** A computation either returns, or throws with the state as it was when
    the exception was raised (earlier mutations persist, as in JS). *)
Inductive exc (A : Type) :=
| Ret (s : state) (a : A)
| Throw (s : state) (e : jsval).
Arguments Ret {A} s a.
Arguments Throw {A} s e.

Definition M (A : Type) := state -> exc A.

Definition retM {A} (a : A) : M A := fun s => Ret s a.
Definition throwM {A} (e : jsval) : M A := fun s => Throw s e.
Definition bindM {A B} (m : M A) (k : A -> M B) : M B := fun s =>
  match m s with
  | Ret s' a => k a s'
  | Throw s' e => Throw s' e
  end.
Definition getS : M state := fun s => Ret s s.
Definition modifyS (f : state -> state) : M unit := fun s => Ret (f s) tt.

Notation "x <-- m ;; k" := (bindM m (fun x => k))
  (at level 100, m at next level, right associativity).
Notation "m ;;; k" := (bindM m (fun _ => k))
  (at level 100, right associativity).

(** *** Promise operations *)

(** [new Promise(...)]: a fresh pending promise. *)
Definition new_promise : M nat := fun s =>
  let p := next_promise s in
  Ret (mkState (<[p := Pending]> (promises s)) (S p) (batches s)
         (next_batch s) (cur_batch s) (cacheMap s) (jobs s) (calls s)
         (uncaught s)) p.

(** Settling a promise has an effect only while it is pending. *)
Definition settle_promise (p : nat) (st : pstate) : M unit := modifyS (fun s =>
  match promises s !! p with
  | Some Pending => set_promises (<[p := st]> (promises s)) s
  | _ => s
  end).

(** [resolve(v)], and [Promise.resolve(v)] on a fresh promise: a then-able
    value is adopted, any other value fulfils the promise.  (The values of
    the model include no promise object.) *)
Definition resolve_value (p : nat) (v : jsval) : M unit :=
  settle_promise p (if thenable v then Adopts v else Fulfilled v).
Definition resolve_with (p : nat) (c : nat) : M unit :=
  settle_promise p (Follows c).
Definition reject (p : nat) (e : jsval) : M unit :=
  settle_promise p (Rejected e).

Definition get_batch (s : state) (b : nat) : batch :=
  match batches s !! b with
  | Some bt => bt
  | None => new_batch
  end.

Definition modify_batch (b : nat) (f : batch -> batch) : M unit :=
  modifyS (fun s =>
    match batches s !! b with
    | Some bt => set_batches (<[b := f bt]> (batches s)) s
    | None => s
    end).

Definition cache_lookup (cm : option (list (jsval * nat))) (k : jsval)
  : option nat :=
  match cm with
  | Some m => map_get m k
  | None => None
  end.

(** [cacheMap.set(k, p)] when caching is on. *)
Definition cache_set (k : jsval) (p : nat) : M unit := modifyS (fun s =>
  match cacheMap s with
  | Some m => set_cacheMap (Some (map_set m k p)) s
  | None => s
  end).

Definition push_key (k : jsval) (bt : batch) : batch :=
  mkBatch (hasDispatched bt) (keys bt ++ [k]) (callbacks bt) (cacheHits bt).
Definition push_callback (p : nat) (bt : batch) : batch :=
  mkBatch (hasDispatched bt) (keys bt) (callbacks bt ++ [p]) (cacheHits bt).
(** [(batch.cacheHits || (batch.cacheHits = [])).push(hit)] *)
Definition push_cache_hit (h : nat * nat) (bt : batch) : batch :=
  mkBatch (hasDispatched bt) (keys bt) (callbacks bt)
    (Some (default [] (cacheHits bt) ++ [h])).
Definition mark_dispatched (bt : batch) : batch :=
  mkBatch true (keys bt) (callbacks bt) (cacheHits bt).

(** [array.length] and [array[i]] of an array-like value. *)
Definition array_elems (v : jsval) : list jsval :=
  match v with
  | JArr _ l => l
  | _ => []
  end.

Definition err_no_promise : jsval := type_error
  "DataLoader must be constructed with a function which accepts Array<key> and returns Promise<Array<value>>, but the function did not return a Promise".
Definition err_no_array : jsval := type_error
  "DataLoader must be constructed with a function which accepts Array<key> and returns Promise<Array<value>>, but the function did not return a Promise of an Array".
Definition err_length : jsval := type_error
  "DataLoader must be constructed with a function which accepts Array<key> and returns Promise<Array<value>>, but the function did not return a Promise of an Array of the same length as the Array of keys".
Definition err_json : jsval := type_error "Do not know how to serialize a BigInt".
Definition err_load_key : jsval := type_error
  "The loader.load() function must be called with a value".
Definition err_loadMany_keys : jsval := type_error
  "The loader.loadMany() function must be called with Array<key>".
Definition err_undefined_callback : jsval := type_error
  "Cannot read properties of undefined (reading 'reject')".

(* ------------------------------------------------------------------ *)
(** ** The engine *)

Section Engine.

(** The loader's [_batchLoadFn] (what a call with the given keys does),
    [_maxBatchSize] and [_cacheKeyFn]. *)
Variable batchLoadFn : list jsval -> bret.
Variable maxBatchSize : jsnum.
Variable cacheKeyFn : jsval -> jsval.

(** The condition under which [getCurrentBatch] returns the existing batch. *)
Definition reuse_batch (bt : batch) : bool :=
  negb (hasDispatched bt) &&
  len_lt (length (keys bt)) maxBatchSize &&
  match cacheHits bt with
  | None => true
  | Some hs => len_lt (length hs) maxBatchSize
  end.

(** Creating a batch, storing it in [loader._batch], and scheduling its
    dispatch with the (default) scheduler, which queues a job. *)
Definition open_batch (s : state) : exc nat :=
  let nb := next_batch s in
  Ret (mkState (promises s) (next_promise s) (<[nb := new_batch]> (batches s))
         (S nb) (Some nb) (cacheMap s) (jobs s ++ [JDispatch nb]) (calls s)
         (uncaught s)) nb.

(** [getCurrentBatch] *)
Definition getCurrentBatch : M nat := fun s =>
  match cur_batch s with
  | Some b =>
      match batches s !! b with
      | Some bt => if reuse_batch bt then Ret s b else open_batch s
      | None => open_batch s
      end
  | None => open_batch s
  end.

(** [DataLoader.prototype.load] *)
Definition load (key : jsval) : M nat :=
  if is_nullish key then throwM err_load_key else
  b <-- getCurrentBatch ;;
  s <-- getS ;;
  let cacheKey := cacheKeyFn key in
  match cache_lookup (cacheMap s) cacheKey with
  | Some cachedPromise =>
      p <-- new_promise ;;
      modify_batch b (push_cache_hit (p, cachedPromise)) ;;;
      retM p
  | None =>
      modify_batch b (push_key key) ;;;
      p <-- new_promise ;;
      modify_batch b (push_callback p) ;;;
      cache_set cacheKey p ;;;
      retM p
  end.

Fixpoint load_all (ks : list jsval) : M (list nat) :=
  match ks with
  | [] => retM []
  | k :: ks' =>
      p <-- load k ;;
      ps <-- load_all ks' ;;
      retM (p :: ps)
  end.

(** [DataLoader.prototype.loadMany]: the promises [load] returned, in key
    order; the promise it returns is [Promise.all] of their [.catch]
    versions, see [loadMany_outcome]. *)
Definition loadMany (ks : jsval) : M (list nat) :=
  if negb (isArrayLike ks) then throwM err_loadMany_keys
  else load_all (array_elems ks).

(** [DataLoader.prototype.clear] *)
Definition clear (key : jsval) : M unit := modifyS (fun s =>
  match cacheMap s with
  | Some m => set_cacheMap (Some (map_delete m (cacheKeyFn key))) s
  | None => s
  end).

(** [DataLoader.prototype.clearAll] *)
Definition clearAll : M unit := modifyS (fun s =>
  match cacheMap s with
  | Some _ => set_cacheMap (Some []) s
  | None => s
  end).

(** [DataLoader.prototype.prime] *)
Definition prime (key : jsval) (value : jsval) : M unit :=
  s <-- getS ;;
  match cacheMap s with
  | None => retM tt
  | Some m =>
      let cacheKey := cacheKeyFn key in
      match map_get m cacheKey with
      | Some _ => retM tt
      | None =>
          p <-- new_promise ;;
          (if is_error value then reject p value else resolve_value p value) ;;;
          cache_set cacheKey p
      end
  end.

Fixpoint run_cache_hits (hs : list (nat * nat)) : M unit :=
  match hs with
  | [] => retM tt
  | (p, cachedPromise) :: hs' => resolve_with p cachedPromise ;;; run_cache_hits hs'
  end.

(** [resolveCacheHits] *)
Definition resolveCacheHits (b : nat) : M unit :=
  s <-- getS ;;
  match cacheHits (get_batch s b) with
  | Some hs => run_cache_hits hs
  | None => retM tt
  end.

(** The loop of [failedDispatch]: [loader.clear(keys[i])] then
    [callbacks[i].reject(error)] for each index [i] of [keys]. *)
Fixpoint fail_keys (i : nat) (ks : list jsval) (cbs : list nat) (error : jsval)
  : M unit :=
  match ks with
  | [] => retM tt
  | k :: ks' =>
      clear k ;;;
      match nth_error cbs i with
      | Some c => reject c error ;;; fail_keys (S i) ks' cbs error
      | None => throwM err_undefined_callback
      end
  end.

(** [failedDispatch] *)
Definition failedDispatch (b : nat) (error : jsval) : M unit :=
  resolveCacheHits b ;;;
  s <-- getS ;;
  let bt := get_batch s b in
  fail_keys 0 (keys bt) (callbacks bt) error.

(** The loop over [batch.callbacks] in the fulfilment handler of
    [dispatchBatch], including its [console.log(JSON.stringify(value))]. *)
Fixpoint resolve_values (i : nat) (cbs : list nat) (values : list jsval)
  : M unit :=
  match cbs with
  | [] => retM tt
  | c :: cbs' =>
      let value := nth i values JUndefined in
      (if is_error value then reject c value
       else if json_stringify_throws value then throwM err_json
       else resolve_value c value) ;;;
      resolve_values (S i) cbs' values
  end.

(** The fulfilment handler [(values) => {...}] of [dispatchBatch]. *)
Definition on_values (b : nat) (values : jsval) : M unit :=
  s <-- getS ;;
  let bt := get_batch s b in
  if negb (isArrayLike values) then throwM err_no_array else
  if negb (Nat.eqb (length (array_elems values)) (length (keys bt)))
  then throwM err_length else
  resolveCacheHits b ;;;
  resolve_values 0 (callbacks bt) (array_elems values).

(** [batchPromise.then(onValues).catch(error => failedDispatch(...))], run
    when the batch function's promise settles. *)
Definition settle_batch (b : nat) (o : bout) : M unit :=
  match o with
  | BReject e => failedDispatch b e
  | BResolve values => fun s =>
      match on_values b values s with
      | Ret s' _ => Ret s' tt
      | Throw s' e => failedDispatch b e s'
      end
  end.

(** [dispatchBatch] *)
Definition dispatchBatch (b : nat) : M unit :=
  modify_batch b mark_dispatched ;;;
  s <-- getS ;;
  let bt := get_batch s b in
  if Nat.eqb (length (keys bt)) 0 then resolveCacheHits b else
  modifyS (fun s => set_calls (calls s ++ [keys bt]) s) ;;;
  match batchLoadFn (keys bt) with
  | BThrow e => throwM e
  | BOther v =>
      if is_falsy v || negb (has_method v "then")
      then failedDispatch b err_no_promise
      else retM tt (* a foreign thenable: its callbacks are outside the model *)
  | BPromise o => modifyS (fun s => set_jobs (jobs s ++ [JSettle b o]) s)
  end.

Definition run_job (j : job) : M unit :=
  match j with
  | JDispatch b => dispatchBatch b
  | JSettle b o => settle_batch b o
  end.

(** The host runs the first queued job; an exception escaping it is
    recorded as uncaught. *)
Definition step_job (s : state) : option state :=
  match jobs s with
  | [] => None
  | j :: js =>
      match run_job j (set_jobs js s) with
      | Ret s' _ => Some s'
      | Throw s' e => Some (set_uncaught (uncaught s' ++ [e]) s')
      end
  end.

Fixpoint run_jobs (n : nat) (s : state) : state :=
  match n with
  | 0 => s
  | S n' =>
      match step_job s with
      | None => s
      | Some s' => run_jobs n' s'
      end
  end.

(** One move of a program using the loader: a call of a public method, or
    the host running a queued job. *)
Inductive step : state -> state -> Prop :=
| step_load k s s' p : load k s = Ret s' p -> step s s'
| step_load_throw k s s' e : load k s = Throw s' e -> step s s'
| step_loadMany ks s s' ps : loadMany ks s = Ret s' ps -> step s s'
| step_loadMany_throw ks s s' e : loadMany ks s = Throw s' e -> step s s'
| step_clear k s s' : clear k s = Ret s' tt -> step s s'
| step_clearAll s s' : clearAll s = Ret s' tt -> step s s'
| step_prime k v s s' : prime k v s = Ret s' tt -> step s s'
| step_host s s' : step_job s = Some s' -> step s s'.

(** The states a loader created with caching on or off can reach. *)
Inductive reachable (caching : bool) : state -> Prop :=
| reach_init : reachable caching (init_state caching)
| reach_step s s' : reachable caching s -> step s s' -> reachable caching s'.

End Engine.






(** The batch [load] appended its key to is a batch it opened itself:
    the loader's current batch is a fresh one holding just that key, and
    its dispatch has been queued. *)
Definition opened_batch (s s' : state) (key : jsval) (p : nat) : Prop :=
  cur_batch s' = Some (next_batch s) /\
  jobs s' = jobs s ++ [JDispatch (next_batch s)] /\
  batches s' !! next_batch s = Some (mkBatch false [key] [p] None).

(** Two cache hits on a batch of maximum size 2 that has no keys: the next
    miss opens a new batch although the current one is open and holds no
    key. *)
Definition hits_fill_batch : M state :=
  prime (fun k => k) (JNum (NFin 1)) (JStr "v") ;;;
  _ <-- load (NFin 2) (fun k => k) (JNum (NFin 1)) ;;
  _ <-- load (NFin 2) (fun k => k) (JNum (NFin 1)) ;;
  getS.

(** The state of the promise [prime] stores for a value: rejected with an
    [Error], adopting a then-able value, fulfilled with any other value. *)
Definition primed_state (v : jsval) : pstate :=
  if is_error v then Rejected v else if thenable v then Adopts v else Fulfilled v.

(** The settlement of that promise: none for a then-able value, whose
    settlement is up to its [then]. *)
Definition primed_outcome (v : jsval) : option settlement :=
  if is_error v then Some (Failed v) else if thenable v then None else Some (Resolved v).

(** [prime] a key with an [Error], then [load] it. *)
Definition prime_error_then_load : M nat :=
  prime (fun k => k) (JNum (NFin 1)) (JError 1 "Error" "missing") ;;;
  load NInf (fun k => k) (JNum (NFin 1)).

(** Keys [1] and [2], and a batch function answering every call with a
    promise of the given array. *)
Definition two_keys : list jsval := [JNum (NFin 1); JNum (NFin 2)].
Definition batch_response (vs : list jsval) (ks : list jsval) : bret :=
  BPromise (BResolve (JArr 0 vs)).

(** A batch function answering [[1, 2]] with [[Error, 2n]] and any other
    call with [["x"]]. *)
Definition error_bigint_backend (ks : list jsval) : bret :=
  match ks with
  | [_; _] => BPromise (BResolve (JArr 0 [JError 1 "Error" "missing"; JBigInt 2]))
  | _ => BPromise (BResolve (JArr 1 [JStr "x"]))
  end.

(** [load] two keys, let the host run the dispatch and its continuation,
    then [load] the first key again and run the jobs once more. *)
Definition reload_first (bl : list jsval -> bret) : M (list nat) :=
  ps <-- load_all NInf (fun k => k) two_keys ;;
  modifyS (run_jobs bl (fun k => k) 2) ;;;
  p <-- load NInf (fun k => k) (JNum (NFin 1)) ;;
  modifyS (run_jobs bl (fun k => k) 2) ;;;
  retM (ps ++ [p]).

(** A batch function that throws synchronously. *)
Definition throwing_backend (ks : list jsval) : bret := BThrow (JError 1 "Error" "boom").

(** [prime(2, "v")], then [load(1)] (a miss) and [load(2)] (a cache hit)
    into the same batch. *)
Definition miss_and_hit : M (list nat) :=
  prime (fun k => k) (JNum (NFin 2)) (JStr "v") ;;;
  load_all NInf (fun k => k) two_keys.





(** The state a computation ends in, whether it returns or throws. *)
Definition exc_state {A} (r : exc A) : state :=
  match r with
  | Ret s _ => s
  | Throw s _ => s
  end.

(** The smallest integer not below a maximum batch size [q]. *)
Definition ceil_size (q : Q) : nat := Z.to_nat (Qceiling q).

(** Every batch of [s] holds at most [ceil_size q] keys. *)
Definition bounded (q : Q) (s : state) : Prop :=
  forall b bt, batches s !! b = Some bt -> (Z.of_nat (length (keys bt)) <= Qceiling q)%Z.

(** A computation that leaves the batches, the log of calls and the job
    queue as they are, whether it returns or throws. *)
Definition keeps_batches {A} (m : M A) : Prop :=
  forall s, batches (exc_state (m s)) = batches s /\ calls (exc_state (m s)) = calls s /\
    jobs (exc_state (m s)) = jobs s.

(** A computation that preserves [bounded q]. *)
Definition keeps_bound (q : Q) {A} (m : M A) : Prop :=
  forall s, bounded q s -> bounded q (exc_state (m s)).

(** The batches [b], [b+1], ... hold the key lists of [L] in order, none
    of them dispatched, without cache hits, with one promise per key. *)
Fixpoint laid_out (bs : gmap nat batch) (b : nat) (L : list (list jsval)) : Prop :=
  match L with
  | [] => True
  | x :: L' =>
      (exists cbs, bs !! b = Some (mkBatch false x cbs None) /\ length cbs = length x) /\
      laid_out bs (S b) L'
  end.

(** No batch is open: [loader._batch] is unset, missing, or dispatched. *)
Definition no_open_batch (s : state) : Prop :=
  forall b bt, cur_batch s = Some b -> batches s !! b = Some bt -> hasDispatched bt = true.

(** The loads issued in one tick since [s0] have filled the batches
    [next_batch s0], ... with the key lists [L0 ++ [x]]: each list of [L0]
    holds [c] keys, [x] (the current batch) between 1 and [c]; one dispatch
    is queued per batch and no call has been made. *)
Definition fill_inv (c : nat) (s0 s : state) (L0 : list (list jsval)) (x : list jsval) : Prop :=
  next_batch s = next_batch s0 + S (length L0) /\
  jobs s = map JDispatch (seq (next_batch s0) (S (length L0))) /\
  calls s = calls s0 /\
  laid_out (batches s) (next_batch s0) (L0 ++ [x]) /\
  cur_batch s = Some (next_batch s0 + length L0) /\
  Forall (fun y => length y = c) L0 /\ 1 <= length x <= c.

Definition is_settle (j : job) : Prop :=
  match j with
  | JSettle _ _ => True
  | JDispatch _ => False
  end.

(** A batch function answering each key with the key itself. *)
Definition echo_backend (ks : list jsval) : bret := BPromise (BResolve (JArr 0 ks)).

Definition three_keys : list jsval := [JNum (NFin 1); JNum (NFin 2); JNum (NFin 3)].

(** ** Auxiliary notions for further properties of the engine *)

(** Every stored batch satisfies [P]. *)
Definition all_batches (P : batch -> Prop) (s : state) : Prop :=
  forall b bt, batches s !! b = Some bt -> P bt.

(** A computation that keeps [all_batches P]. *)
Definition keepsP (P : batch -> Prop) {A} (m : M A) : Prop :=
  forall s, all_batches P s -> all_batches P (exc_state (m s)).

(** A computation that keeps the cache absent. *)
Definition keeps_nocache {A} (m : M A) : Prop :=
  forall s, cacheMap s = None -> cacheMap (exc_state (m s)) = None.

(** No batch or promise is stored at or above the next identifier. *)
Definition ids_fresh (s : state) : Prop :=
  (forall b, next_batch s <= b -> batches s !! b = None) /\
  (forall p, next_promise s <= p -> promises s !! p = None).

(** Every promise of [s] that is no longer pending is unchanged in [s']. *)
Definition settled_kept (s s' : state) : Prop :=
  forall p st, promises s !! p = Some st -> st <> Pending -> promises s' !! p = Some st.

(** A computation that keeps identifiers fresh and settled promises unchanged. *)
Definition keeps_fresh {A} (m : M A) : Prop :=
  forall s, ids_fresh s -> ids_fresh (exc_state (m s)) /\ settled_kept s (exc_state (m s)).

(** What a call of a public method may do to the loader: no batch
    function call, no job run or dropped (at most dispatches queued), no
    existing promise touched, no dispatched batch touched. *)
Definition public_effect (s s' : state) : Prop :=
  calls s' = calls s /\ uncaught s' = uncaught s /\
  (exists js, jobs s' = jobs s ++ js /\ Forall (fun j => exists b, j = JDispatch b) js) /\
  next_promise s <= next_promise s' /\
  (forall p, p < next_promise s -> promises s' !! p = promises s !! p) /\
  (forall b bt, batches s !! b = Some bt -> hasDispatched bt = true -> batches s' !! b = Some bt).

(** The batches named by the queued dispatch jobs, in queue order. *)
Fixpoint dispatch_ids (js : list job) : list nat :=
  match js with
  | [] => []
  | JDispatch b :: js' => b :: dispatch_ids js'
  | JSettle _ _ :: js' => dispatch_ids js'
  end.

(** The queued dispatch jobs name distinct batches, each stored and not
    dispatched yet. *)
Definition dispatch_ok (s : state) : Prop :=
  NoDup (dispatch_ids (jobs s)) /\
  forall b, In b (dispatch_ids (jobs s)) ->
    exists bt, batches s !! b = Some bt /\ hasDispatched bt = false.

(** A computation that keeps [dispatch_ok]. *)
Definition keeps_dok {A} (m : M A) : Prop :=
  forall s, dispatch_ok s -> dispatch_ok (exc_state (m s)).

(** The loader after [load(1)] from the initial state. *)
Definition loaded_state (m : jsnum) (caching : bool) : state :=
  exc_state (load m id (JNum (NFin 1)) (init_state caching)).

(** [loaded_state NInf true] after running its first job (the dispatch). *)
Definition dispatched_state : state :=
  match step_job echo_backend id (loaded_state NInf true) with
  | Some s => s
  | None => loaded_state NInf true
  end.

(** ** Cache hits and their promises *)

(** The cache-hit callbacks queued on a batch. *)
Definition hits (bt : batch) : list (nat * nat) := default [] (cacheHits bt).

(** The cache hit [(p, c)] is queued on the stored batch [b]. *)
Definition hit_in (s : state) (b p c : nat) : Prop :=
  exists bt, batches s !! b = Some bt /\ In (p, c) (hits bt).

(** [p] is the promise of a cache hit. *)
Definition is_hit (s : state) (p : nat) : Prop := exists b c, hit_in s b p c.

(** [c] is stored in the cache. *)
Definition cached (s : state) (c : nat) : Prop :=
  exists cm k, cacheMap s = Some cm /\ In (k, c) cm.

(** [c] is an existing promise that is not the promise of a cache hit. *)
Definition plain (s : state) (c : nat) : Prop := promises s !! c <> None /\ ~ is_hit s c.

(** How the promises of cache hits are wired in a reachable state: each
    is queued once, waits while its batch is undispatched, and otherwise
    is pending or follows its cached promise, which is a plain promise;
    only such promises follow another one; cached promises and batch
    callbacks are plain; a queued settle job belongs to a dispatched
    batch. *)
Record hits_ok (s : state) : Prop := {
  ho_fresh : ids_fresh s;
  ho_uniq : forall b p c b' c', hit_in s b p c -> hit_in s b' p c' -> b = b' /\ c = c';
  ho_hit : forall b p c, hit_in s b p c ->
    (promises s !! p = Some Pending \/ promises s !! p = Some (Follows c)) /\ plain s c;
  ho_waiting : forall b bt p c, batches s !! b = Some bt -> hasDispatched bt = false ->
    In (p, c) (hits bt) -> promises s !! p = Some Pending;
  ho_follows : forall p c, promises s !! p = Some (Follows c) -> exists b, hit_in s b p c;
  ho_cached : forall c, cached s c -> plain s c;
  ho_callbacks : forall b bt q, batches s !! b = Some bt -> In q (callbacks bt) -> plain s q;
  ho_settle_jobs : forall b o, In (JSettle b o) (jobs s) ->
    exists bt, batches s !! b = Some bt /\ hasDispatched bt = true
}.

(** [s'] satisfies [hits_ok] and keeps every cache hit queued in [s]. *)
Definition ho_trans (s s' : state) : Prop :=
  hits_ok s' /\ forall b p c, hit_in s b p c -> hit_in s' b p c.

(** A computation that keeps a non-absent cache. *)
Definition keeps_somecache {A} (m : M A) : Prop :=
  forall s, cacheMap s <> None -> cacheMap (exc_state (m s)) <> None.

(* ================================================================== *)
(** * Properties *)

(** ** Option validation *)














(** ** loadMany *)







(** ** Batch selection in [load] *)

Lemma getCurrentBatch_cases (m : jsnum) (s : state) :
  (exists b bt, cur_batch s = Some b /\ batches s !! b = Some bt /\
     reuse_batch m bt = true /\ getCurrentBatch m s = Ret s b) \/
  ((cur_batch s = None \/ exists b, cur_batch s = Some b /\
      match batches s !! b with Some bt => reuse_batch m bt = false | None => True end) /\
   getCurrentBatch m s = open_batch s).
Proof.
  unfold getCurrentBatch.
  destruct (cur_batch s) as [b |] eqn:Ec; [| right; split; [left; reflexivity | reflexivity]].
  destruct (batches s !! b) as [bt |] eqn:Eb.
  - destruct (reuse_batch m bt) eqn:Er.
    + left. exists b, bt. repeat split; auto.
    + right. split; [right; exists b; rewrite Eb; split; [reflexivity | exact Er] | reflexivity].
  - right. split; [right; exists b; rewrite Eb; split; [reflexivity | exact I] | reflexivity].
Qed.

Lemma getCurrentBatch_result (m : jsnum) (s s1 : state) (b : nat) :
  getCurrentBatch m s = Ret s1 b ->
  promises s1 = promises s /\ next_promise s1 = next_promise s /\
  cacheMap s1 = cacheMap s /\ calls s1 = calls s /\ uncaught s1 = uncaught s /\
  cur_batch s1 = Some b /\ exists bt, batches s1 !! b = Some bt /\ hasDispatched bt = false.
Proof.
  destruct (getCurrentBatch_cases m s) as [(b0 & bt & Ec & Eb & Er & E) | [_ E]];
    rewrite E; intros H; inversion H; subst; clear H.
  - repeat split; try reflexivity; [exact Ec |]. exists bt. split; [exact Eb |].
    unfold reuse_batch in Er. destruct (hasDispatched bt); [discriminate | reflexivity].
  - simpl. repeat split; try reflexivity. exists new_batch.
    split; [apply lookup_insert_eq | reflexivity].
Qed.

Lemma load_miss_step (m : jsnum) (kf : jsval -> jsval) (key : jsval)
    (s s1 : state) (b : nat) (bt : batch) :
  is_nullish key = false -> getCurrentBatch m s = Ret s1 b ->
  batches s1 !! b = Some bt -> cache_lookup (cacheMap s1) (kf key) = None ->
  load m kf key s =
  Ret (mkState (<[next_promise s1 := Pending]> (promises s1)) (S (next_promise s1))
         (<[b := mkBatch (hasDispatched bt) (keys bt ++ [key])
                   (callbacks bt ++ [next_promise s1]) (cacheHits bt)]> (batches s1))
         (next_batch s1) (cur_batch s1)
         (option_map (fun mp => map_set mp (kf key) (next_promise s1)) (cacheMap s1))
         (jobs s1) (calls s1) (uncaught s1))
      (next_promise s1).
Proof.
  intros Hn Hg Hb Hc. unfold load. rewrite Hn. unfold bindM. rewrite Hg.
  unfold getS. rewrite Hc.
  unfold modify_batch, modifyS, new_promise, cache_set, retM; simpl.
  rewrite Hb; simpl. rewrite lookup_insert_eq. simpl.
  rewrite insert_insert_eq.
  destruct (cacheMap s1); reflexivity.
Qed.

Lemma load_hit_step (m : jsnum) (kf : jsval -> jsval) (key : jsval)
    (s s1 : state) (b : nat) (bt : batch) (c : nat) :
  is_nullish key = false -> getCurrentBatch m s = Ret s1 b ->
  batches s1 !! b = Some bt -> cache_lookup (cacheMap s1) (kf key) = Some c ->
  load m kf key s =
  Ret (mkState (<[next_promise s1 := Pending]> (promises s1)) (S (next_promise s1))
         (<[b := push_cache_hit (next_promise s1, c) bt]> (batches s1))
         (next_batch s1) (cur_batch s1) (cacheMap s1)
         (jobs s1) (calls s1) (uncaught s1))
      (next_promise s1).
Proof.
  intros Hn Hg Hb Hc. unfold load. rewrite Hn. unfold bindM. rewrite Hg.
  unfold getS. rewrite Hc.
  unfold modify_batch, modifyS, new_promise, retM; simpl.
  rewrite Hb; reflexivity.
Qed.

Lemma reuse_batch_false_iff (m : jsnum) (bt : batch) :
  reuse_batch m bt = false <->
  (hasDispatched bt = true \/ len_lt (length (keys bt)) m = false \/
   exists hs, cacheHits bt = Some hs /\ len_lt (length hs) m = false).
Proof.
  unfold reuse_batch.
  destruct (hasDispatched bt), (len_lt (length (keys bt)) m), (cacheHits bt) as [hs |];
    simpl; try destruct (len_lt (length hs) m) eqn:E;
    split; intros H; try discriminate; eauto;
    try (destruct H as [H | [H | (hs' & Hh & H)]]; try discriminate;
         inversion Hh; subst; congruence).
Qed.

(** C8 (amended): on a cache miss, [load] opens a new batch, and queues
    exactly one dispatch of it, when no batch is current, when the current
    batch has been dispatched, when its key count has reached the maximum
    batch size, or when its list of cache hits has reached the maximum
    batch size; otherwise it appends the key and its promise to the
    current batch and queues nothing. *)
Theorem load_miss_batch_choice (m : jsnum) (kf : jsval -> jsval) (key : jsval) (s s' : state) (p : nat) :
  is_nullish key = false ->
  cache_lookup (cacheMap s) (kf key) = None ->
  load m kf key s = Ret s' p ->
  (cur_batch s = None -> opened_batch s s' key p) /\
  (forall b bt, cur_batch s = Some b -> batches s !! b = Some bt ->
     (hasDispatched bt = true \/ len_lt (length (keys bt)) m = false \/
      exists hs, cacheHits bt = Some hs /\ len_lt (length hs) m = false) ->
     opened_batch s s' key p) /\
  (forall b bt, cur_batch s = Some b -> batches s !! b = Some bt ->
     hasDispatched bt = false -> len_lt (length (keys bt)) m = true ->
     (forall hs, cacheHits bt = Some hs -> len_lt (length hs) m = true) ->
     cur_batch s' = Some b /\ jobs s' = jobs s /\
     batches s' !! b = Some (mkBatch false (keys bt ++ [key]) (callbacks bt ++ [p]) (cacheHits bt))).
Proof.
  intros Hn Hc Hl.
  destruct (getCurrentBatch_cases m s) as [(b0 & bt0 & Ec & Eb & Er & Eg) | [Hcase Eg]].
  - rewrite (load_miss_step m kf key s s b0 bt0 Hn Eg Eb Hc) in Hl.
    inversion Hl; subst; clear Hl. simpl.
    split; [congruence |]. split.
    + intros b bt Eb' Ebt Hcond. rewrite Ec in Eb'. inversion Eb'; subst.
      rewrite Eb in Ebt. inversion Ebt; subst.
      apply reuse_batch_false_iff in Hcond. congruence.
    + intros b bt Eb' Ebt Hd _ _. rewrite Ec in Eb'. inversion Eb'; subst.
      rewrite Eb in Ebt. inversion Ebt; subst.
      split; [exact Ec | split; [reflexivity |]].
      rewrite lookup_insert_eq, Hd. reflexivity.
  - assert (Eg' : getCurrentBatch m s = Ret (mkState (promises s) (next_promise s)
               (<[next_batch s := new_batch]> (batches s)) (S (next_batch s))
               (Some (next_batch s)) (cacheMap s) (jobs s ++ [JDispatch (next_batch s)])
               (calls s) (uncaught s)) (next_batch s)) by (rewrite Eg; reflexivity).
    rewrite (load_miss_step m kf key s _ _ new_batch Hn Eg' (lookup_insert_eq _ _ _) Hc) in Hl.
    injection Hl as Hs Hp. subst p.
    assert (Ho : opened_batch s s' key (next_promise s)).
    { rewrite <- Hs. unfold opened_batch; simpl.
      split; [reflexivity | split; [reflexivity | apply lookup_insert_eq]]. }
    split; [intros _; exact Ho | split; [intros; exact Ho |]].
    intros b bt Eb' Ebt Hd Hk Hh. exfalso.
    destruct Hcase as [Hcase | (b0 & Ec & Hb0)]; [congruence |].
    rewrite Eb' in Ec. inversion Ec; subst. rewrite Ebt in Hb0.
    apply reuse_batch_false_iff in Hb0.
    destruct Hb0 as [H | [H | (hs & Hh' & H)]]; [congruence | congruence |].
    rewrite (Hh hs Hh') in H. discriminate.
Qed.

Lemma load_miss_batch_choice_witness :
  let s := init_state true in
  exists s' p, load (NFin 2) (fun k => k) (JNum (NFin 1)) s = Ret s' p /\
  opened_batch s s' (JNum (NFin 1)) p.
Proof.
  intros s.
  destruct (load (NFin 2) (fun k => k) (JNum (NFin 1)) s) as [s' p | s' e] eqn:E.
  - exists s', p. split; [reflexivity |].
    apply (load_miss_batch_choice (NFin 2) (fun k => k) (JNum (NFin 1)) s s' p);
      [vm_compute; reflexivity | vm_compute; reflexivity | exact E | vm_compute; reflexivity].
  - vm_compute in E. discriminate.
Defined.

Lemma load_opens_batch_when_cache_hits_full :
  exists s,
    hits_fill_batch (init_state true) = Ret s s /\
    cur_batch s = Some 0 /\
    batches s !! 0 = Some (mkBatch false [] [] (Some [(1, 0); (2, 0)])) /\
    exists s' p,
      load (NFin 2) (fun k => k) (JNum (NFin 5)) s = Ret s' p /\
      cur_batch s' = Some 1 /\ jobs s' = [JDispatch 0; JDispatch 1].
Proof.
  destruct (hits_fill_batch (init_state true)) as [s a | s e] eqn:E;
    vm_compute in E; [| discriminate].
  injection E as Hs Ha. subst.
  eexists. split; [reflexivity |].
  split; [vm_compute; reflexivity | split; [vm_compute; reflexivity |]].
  match goal with
  | |- exists s' p, ?L = _ /\ _ => destruct L as [s' p | s' e] eqn:E2
  end; vm_compute in E2; [| discriminate].
  injection E2 as Hs' Hp. subst.
  do 2 eexists. split; [reflexivity |].
  split; vm_compute; reflexivity.
Qed.

(** ** [prime] and cache hits *)

Lemma same_value_zero_refl (a : jsval) : same_value_zero a a = true.
Proof.
  destruct a as [| | b | n | str | z | i nm msg | i | i ms ps | i l]; simpl;
    try destruct n; try reflexivity.
  all: first [apply Bool.eqb_reflx | apply Qeq_bool_refl | apply String.eqb_refl
             | apply Z.eqb_refl | apply Nat.eqb_refl].
Qed.

Lemma prime_cached_noop (kf : jsval -> jsval) (k v : jsval) (s : state) (cm : list (jsval * nat)) :
  cacheMap s = Some cm -> map_get cm (kf k) <> None -> prime kf k v s = Ret s tt.
Proof.
  intros Hc Hg. unfold prime, bindM, getS. rewrite Hc.
  destruct (map_get cm (kf k)); [reflexivity | contradiction].
Qed.

Lemma map_get_set_eq (cm : list (jsval * nat)) (x : jsval) (p : nat) :
  map_get (map_set cm x p) x = Some p.
Proof.
  induction cm as [| [k' v'] cm IH]; simpl.
  - rewrite same_value_zero_refl. reflexivity.
  - destruct (same_value_zero k' x) eqn:E; simpl; rewrite ?E; [reflexivity | exact IH].
Qed.

Lemma prime_miss_step (kf : jsval -> jsval) (k v : jsval) (s : state) (cm : list (jsval * nat)) :
  cacheMap s = Some cm -> map_get cm (kf k) = None ->
  prime kf k v s =
  Ret (mkState (<[next_promise s := primed_state v]> (promises s))
         (S (next_promise s)) (batches s) (next_batch s) (cur_batch s)
         (Some (map_set cm (kf k) (next_promise s))) (jobs s) (calls s) (uncaught s)) tt.
Proof.
  intros Hc Hg. unfold prime, bindM, getS. rewrite Hc, Hg.
  unfold new_promise, reject, resolve_value, settle_promise, modifyS, cache_set, primed_state.
  destruct (is_error v), (thenable v); simpl; rewrite lookup_insert_eq; unfold modifyS; simpl;
    rewrite insert_insert_eq, Hc; reflexivity.
Qed.

(** C6 fails as stated: a [load] of a key primed with an [Error] returns a
    promise that is still pending; it is rejected only when the batch that
    [load] opened is dispatched. *)
Lemma primed_failure_waits_for_dispatch :
  exists s q,
    prime_error_then_load (init_state true) = Ret s q /\
    outcome s q = None /\ jobs s = [JDispatch 0] /\
    outcome (run_jobs (fun _ => BOther JUndefined) (fun k => k) 1 s) q
      = Some (Failed (JError 1 "Error" "missing")).
Proof.
  destruct (prime_error_then_load (init_state true)) as [s q | s e] eqn:E;
    vm_compute in E; [| discriminate].
  injection E as Hs Hq. subst.
  do 2 eexists. split; [reflexivity |].
  repeat split; vm_compute; reflexivity.
Qed.

(** ** The dispatcher's fulfilment handler *)

(** C1: the fulfilment handler logs every non-[Error] value with
    [JSON.stringify] before resolving its waiter.  When a value is a BigInt
    the call throws, the [.catch] runs [failedDispatch], and every waiter of
    the batch not yet settled, the BigInt's own and its siblings', is
    rejected with the [TypeError] and all keys are evicted; with
    serialisable values the same batch settles positionally. *)
Theorem dispatch_log_rejects_bigint :
  exists s,
    load_all NInf (fun k => k) two_keys (init_state true) = Ret s [0; 1] /\
    (let s' := run_jobs (batch_response [JBigInt 1; JStr "b"]) (fun k => k) 2 s in
     calls s' = [two_keys] /\ outcome s' 0 = Some (Failed err_json) /\
     outcome s' 1 = Some (Failed err_json) /\ cacheMap s' = Some []) /\
    (let s' := run_jobs (batch_response [JNum (NFin 7); JStr "b"]) (fun k => k) 2 s in
     outcome s' 0 = Some (Resolved (JNum (NFin 7))) /\
     outcome s' 1 = Some (Resolved (JStr "b"))).
Proof.
  destruct (load_all NInf (fun k => k) two_keys (init_state true)) as [s ps | s e] eqn:E;
    vm_compute in E; [| discriminate].
  injection E as Hs Hps. subst.
  eexists. split; [reflexivity |].
  split; vm_compute; repeat split; reflexivity.
Qed.

(** C10: the same logging defeats the memoisation of a per-item failure.
    With the response [[Error, 2n]] for keys [[1, 2]], key [1]'s waiter is
    rejected with its [Error], but the BigInt at position 2 sends the batch
    through [failedDispatch], which evicts key [1] as well: the next
    [load(1)] calls the batch function again and gets a fresh value.  With
    the response [[Error, "b"]] the failure stays cached and the next
    [load(1)] is a cache hit settling to it. *)
Theorem item_failure_evicted_with_bigint_sibling :
  (exists s,
     reload_first error_bigint_backend (init_state true) = Ret s [0; 1; 2] /\
     calls s = [two_keys; [JNum (NFin 1)]] /\
     outcome s 0 = Some (Failed (JError 1 "Error" "missing")) /\
     outcome s 2 = Some (Resolved (JStr "x"))) /\
  (exists s,
     reload_first (batch_response [JError 1 "Error" "missing"; JStr "b"]) (init_state true)
       = Ret s [0; 1; 2] /\
     calls s = [two_keys] /\
     outcome s 2 = Some (Failed (JError 1 "Error" "missing"))).
Proof.
  split.
  - destruct (reload_first error_bigint_backend (init_state true)) as [s ps | s e] eqn:E;
      vm_compute in E; [| discriminate].
    injection E as Hs Hps. subst.
    eexists. split; [reflexivity |]. vm_compute. repeat split; reflexivity.
  - destruct (reload_first (batch_response [JError 1 "Error" "missing"; JStr "b"])
                (init_state true)) as [s ps | s e] eqn:E;
      vm_compute in E; [| discriminate].
    injection E as Hs Hps. subst.
    eexists. split; [reflexivity |]. vm_compute. repeat split; reflexivity.
Qed.

(** ** Cache hits when the batch function throws *)

(** C7: when the batch function throws synchronously, the exception
    escapes [dispatchBatch] before [resolveCacheHits] or [failedDispatch]
    runs: the batch's cache hit and its waiter stay pending with no job left
    to settle them, and the exception is uncaught.  When the batch function
    instead returns a rejected promise, the cache hit is resolved and the
    waiter rejected. *)
Theorem sync_throw_strands_cache_hits :
  exists s,
    miss_and_hit (init_state true) = Ret s [1; 2] /\
    (let s' := run_jobs throwing_backend (fun k => k) 5 s in
     calls s' = [[JNum (NFin 1)]] /\ jobs s' = [] /\
     uncaught s' = [JError 1 "Error" "boom"] /\
     cacheHits (get_batch s' 0) = Some [(2, 0)] /\
     outcome s' 2 = None /\ outcome s' 1 = None) /\
    (let s' := run_jobs (fun _ => BPromise (BReject (JError 1 "Error" "boom")))
                 (fun k => k) 5 s in
     outcome s' 2 = Some (Resolved (JStr "v")) /\
     outcome s' 1 = Some (Failed (JError 1 "Error" "boom"))).
Proof.
  destruct (miss_and_hit (init_state true)) as [s ps | s e] eqn:E;
    vm_compute in E; [| discriminate].
  injection E as Hs Hps. subst.
  eexists. split; [reflexivity |].
  split; vm_compute; repeat split; reflexivity.
Qed.

(** ** Running queued jobs *)

Lemma run_jobs_idle (bl : list jsval -> bret) (kf : jsval -> jsval) (n : nat) (s : state) :
  jobs s = [] -> run_jobs bl kf n s = s.
Proof. intros H. destruct n; simpl; [reflexivity |]. unfold step_job. rewrite H. reflexivity. Qed.

Lemma run_jobs_S (bl : list jsval -> bret) (kf : jsval -> jsval) (n : nat) (s : state) :
  run_jobs bl kf (S n) s =
  match step_job bl kf s with None => s | Some s' => run_jobs bl kf n s' end.
Proof. reflexivity. Qed.

Lemma step_job_dispatch (bl : list jsval -> bret) (kf : jsval -> jsval) (s : state)
    (b : nat) (js : list job) :
  jobs s = JDispatch b :: js ->
  step_job bl kf s =
  Some (match dispatchBatch bl kf b (set_jobs js s) with
        | Ret s' _ => s'
        | Throw s' e => set_uncaught (uncaught s' ++ [e]) s'
        end).
Proof. intros H. unfold step_job. rewrite H. simpl. destruct (dispatchBatch bl kf b (set_jobs js s)); reflexivity. Qed.

Lemma dispatchBatch_nonempty (bl : list jsval -> bret) (kf : jsval -> jsval) (b : nat)
    (s : state) (bt : batch) :
  batches s !! b = Some bt -> keys bt <> [] ->
  dispatchBatch bl kf b s =
  (let s1 := mkState (promises s) (next_promise s) (<[b := mark_dispatched bt]> (batches s))
               (next_batch s) (cur_batch s) (cacheMap s) (jobs s) (calls s ++ [keys bt])
               (uncaught s) in
   match bl (keys bt) with
   | BThrow e => Throw s1 e
   | BOther v =>
       if is_falsy v || negb (has_method v "then")
       then failedDispatch kf b err_no_promise s1 else Ret s1 tt
   | BPromise o => Ret (set_jobs (jobs s1 ++ [JSettle b o]) s1) tt
   end).
Proof.
  intros Hb Hk. unfold dispatchBatch, bindM, modify_batch, modifyS, getS, get_batch.
  rewrite Hb. simpl. rewrite lookup_insert_eq. simpl.
  destruct (keys bt) as [| k ks] eqn:Ek; [contradiction |]. simpl.
  destruct (bl (k :: ks)) as [o | v | e]; simpl; try reflexivity.
  destruct (is_falsy v || negb (has_method v "then")); reflexivity.
Qed.

Lemma run_jobs_add (bl : list jsval -> bret) (kf : jsval -> jsval) (a b : nat) (s : state) :
  run_jobs bl kf (a + b) s = run_jobs bl kf b (run_jobs bl kf a s).
Proof.
  revert s. induction a as [| a IH]; intros s; [reflexivity |].
  simpl. destruct (step_job bl kf s) as [s' |] eqn:E; [apply IH |].
  destruct b; simpl; [reflexivity | rewrite E; reflexivity].
Qed.

(** ** Batch failure *)

Lemma settle_promise_spec (p : nat) (st : pstate) (s : state) :
  settle_promise p st s =
  Ret (match promises s !! p with
       | Some Pending => set_promises (<[p := st]> (promises s)) s
       | _ => s
       end) tt.
Proof. reflexivity. Qed.

Lemma run_cache_hits_spec (hs : list (nat * nat)) (s : state) :
  exists s', run_cache_hits hs s = Ret s' tt /\
    batches s' = batches s /\ calls s' = calls s /\ cacheMap s' = cacheMap s /\
    (forall p, ~ In p (map fst hs) -> promises s' !! p = promises s !! p).
Proof.
  revert s. induction hs as [| [p c] hs IH]; intros s.
  - exists s. repeat split; reflexivity.
  - simpl. unfold bindM, resolve_with. rewrite settle_promise_spec.
    set (s1 := match promises s !! p with
               | Some Pending => set_promises (<[p := Follows c]> (promises s)) s
               | _ => s end).
    destruct (IH s1) as (s' & E & Hb & Hcl & Hc & Hp). exists s'. rewrite E.
    assert (Hs1 : batches s1 = batches s /\ calls s1 = calls s /\ cacheMap s1 = cacheMap s /\
                  forall q, q <> p -> promises s1 !! q = promises s !! q).
    { subst s1. destruct (promises s !! p) as [[] |]; simpl; repeat split; auto.
      intros q Hq. rewrite lookup_insert_ne; auto. }
    destruct Hs1 as (Hb1 & Hcl1 & Hc1 & Hp1).
    split; [reflexivity |]. split; [congruence |]. split; [congruence |]. split; [congruence |].
    intros q Hq. rewrite Hp by tauto. apply Hp1. intros ->. apply Hq. left. reflexivity.
Qed.

Lemma nth_error_skipn {A} (l : list A) (i : nat) (c : A) :
  nth_error l i = Some c -> skipn i l = c :: skipn (S i) l.
Proof.
  revert i. induction l as [| a l IH]; intros [| i] H; simpl in *; try discriminate.
  - injection H as ->. reflexivity.
  - apply IH. exact H.
Qed.

Lemma map_get_delete_eq (cm : list (jsval * nat)) (x : jsval) :
  map_get (map_delete cm x) x = None.
Proof.
  induction cm as [| [k' v'] cm IH]; [reflexivity |].
  unfold map_delete in *. simpl. destruct (same_value_zero k' x) eqn:E; simpl; [exact IH |].
  rewrite E. exact IH.
Qed.

Lemma map_get_delete_none (cm : list (jsval * nat)) (x y : jsval) :
  map_get cm y = None -> map_get (map_delete cm x) y = None.
Proof.
  induction cm as [| [k' v'] cm IH]; [reflexivity |].
  unfold map_delete in *. simpl. destruct (same_value_zero k' y) eqn:Ey; [discriminate |].
  intros H. destruct (same_value_zero k' x); simpl; [| rewrite Ey]; exact (IH H).
Qed.

Lemma clear_spec (kf : jsval -> jsval) (k : jsval) (s : state) :
  exists s', clear kf k s = Ret s' tt /\
    promises s' = promises s /\ batches s' = batches s /\ calls s' = calls s /\
    cache_lookup (cacheMap s') (kf k) = None /\
    (forall x, cache_lookup (cacheMap s) x = None -> cache_lookup (cacheMap s') x = None).
Proof.
  unfold clear, modifyS. destruct (cacheMap s) as [cm |] eqn:Ec.
  - eexists. split; [reflexivity |]. simpl. repeat split.
    + apply map_get_delete_eq.
    + intros x Hx. apply map_get_delete_none. exact Hx.
  - eexists. split; [reflexivity |]. rewrite Ec. repeat split; auto.
Qed.

Lemma fail_keys_spec (kf : jsval -> jsval) (i : nat) (ks : list jsval) (cbs : list nat)
    (e : jsval) (s : state) :
  i + length ks <= length cbs ->
  exists s', fail_keys kf i ks cbs e s = Ret s' tt /\
    batches s' = batches s /\ calls s' = calls s /\
    (forall c st, promises s !! c = Some st -> st <> Pending -> promises s' !! c = Some st) /\
    (forall c, In c (firstn (length ks) (skipn i cbs)) ->
       promises s !! c = Some Pending -> promises s' !! c = Some (Rejected e)) /\
    (forall x, cache_lookup (cacheMap s) x = None -> cache_lookup (cacheMap s') x = None) /\
    (forall k, In k ks -> cache_lookup (cacheMap s') (kf k) = None).
Proof.
  revert i s. induction ks as [| k ks IH]; intros i s Hlen.
  - exists s. simpl. repeat split; auto; intros ? [].
  - simpl in Hlen.
    destruct (nth_error cbs i) as [c0 |] eqn:Hn.
    2:{ exfalso. apply nth_error_None in Hn. lia. }
    destruct (clear_spec kf k s) as (sa & Ea & Hpa & Hba & Hcla & Hka & Hca).
    set (sb := match promises sa !! c0 with
               | Some Pending => set_promises (<[c0 := Rejected e]> (promises sa)) sa
               | _ => sa end).
    assert (Hsb : batches sb = batches sa /\ calls sb = calls sa /\ cacheMap sb = cacheMap sa /\
                  (promises sa !! c0 = Some Pending -> promises sb !! c0 = Some (Rejected e)) /\
                  forall q, (q <> c0 \/ promises sa !! q <> Some Pending) ->
                            promises sb !! q = promises sa !! q).
    { subst sb. destruct (promises sa !! c0) as [[] |] eqn:E; simpl;
        repeat split; auto; try (intros; discriminate).
      - rewrite lookup_insert_eq. reflexivity.
      - intros q [Hq | Hq]; [rewrite lookup_insert_ne; auto |].
        destruct (decide (q = c0)) as [-> | Hq']; [congruence | rewrite lookup_insert_ne; auto]. }
    destruct Hsb as (Hbb & Hclb & Hcb & Hrb & Hpb).
    destruct (IH (S i) sb ltac:(lia)) as (s' & E' & Hb' & Hcl' & Hset & Hrej & Hnone & Hkeys).
    exists s'. simpl. unfold bindM. rewrite Ea, Hn. unfold reject. rewrite settle_promise_spec.
    fold sb. rewrite E'.
    split; [reflexivity |]. split; [congruence |]. split; [congruence |].
    split.
    { intros c st Hc Hst. apply Hset; [| exact Hst]. rewrite Hpb; [congruence |].
      right. rewrite Hpa. congruence. }
    split.
    { rewrite (nth_error_skipn cbs i c0 Hn). simpl. intros c [<- | Hin] Hc.
      - apply Hset; [| discriminate]. apply Hrb. congruence.
      - destruct (decide (c = c0)) as [-> | Hne].
        + apply Hset; [| discriminate]. apply Hrb. congruence.
        + apply Hrej; [exact Hin |]. rewrite Hpb; [congruence | left; exact Hne]. }
    split.
    { intros x Hx. apply Hnone. rewrite Hcb. apply Hca. exact Hx. }
    intros k' [<- | Hin]; [| apply Hkeys; exact Hin].
    apply Hnone. rewrite Hcb. exact Hka.
Qed.

Lemma failedDispatch_spec (kf : jsval -> jsval) (b : nat) (e : jsval) (s : state) (bt : batch) :
  batches s !! b = Some bt -> length (callbacks bt) = length (keys bt) ->
  exists s', failedDispatch kf b e s = Ret s' tt /\
    batches s' = batches s /\ calls s' = calls s /\
    (forall c, In c (callbacks bt) -> ~ In c (map fst (default [] (cacheHits bt))) ->
       promises s !! c = Some Pending -> promises s' !! c = Some (Rejected e)) /\
    (forall k, In k (keys bt) -> cache_lookup (cacheMap s') (kf k) = None).
Proof.
  intros Hb Hlen.
  assert (Hg : forall s1, batches s1 = batches s -> get_batch s1 b = bt)
    by (intros s1 H; unfold get_batch; rewrite H, Hb; reflexivity).
  assert (Hfk : forall s1, batches s1 = batches s -> calls s1 = calls s ->
            (forall c, In c (callbacks bt) -> ~ In c (map fst (default [] (cacheHits bt))) ->
               promises s !! c = Some Pending -> promises s1 !! c = Some Pending) ->
            exists s', fail_keys kf 0 (keys (get_batch s1 b)) (callbacks (get_batch s1 b)) e s1
                       = Ret s' tt /\
              batches s' = batches s /\ calls s' = calls s /\
              (forall c, In c (callbacks bt) -> ~ In c (map fst (default [] (cacheHits bt))) ->
                 promises s !! c = Some Pending -> promises s' !! c = Some (Rejected e)) /\
              (forall k, In k (keys bt) -> cache_lookup (cacheMap s') (kf k) = None)).
  { intros s1 Hb1 Hcl1 Hp1. rewrite (Hg s1 Hb1).
    destruct (fail_keys_spec kf 0 (keys bt) (callbacks bt) e s1 ltac:(lia))
      as (s' & E & Hb' & Hcl' & _ & Hrej & _ & Hkeys).
    exists s'. split; [exact E |]. split; [congruence |]. split; [congruence |]. split; [| exact Hkeys].
    intros c Hc Hnh Hpc. apply Hrej; [| apply Hp1; assumption].
    rewrite skipn_O, <- Hlen, firstn_all. exact Hc. }
  cbv beta iota delta [failedDispatch resolveCacheHits bindM getS].
  rewrite (Hg s eq_refl).
  destruct (cacheHits bt) as [hs |] eqn:Eh.
  - destruct (run_cache_hits_spec hs s) as (s1 & E1 & Hb1 & Hcl1 & _ & Hp1). rewrite E1.
    apply (Hfk s1 Hb1 Hcl1). intros c _ Hnh Hpc. rewrite Hp1; [exact Hpc |]. simpl in Hnh. exact Hnh.
  - apply (Hfk s eq_refl eq_refl). auto.
Qed.

Lemma getCurrentBatch_ret (m : jsnum) (s : state) :
  exists s1 b, getCurrentBatch m s = Ret s1 b.
Proof.
  destruct (getCurrentBatch_cases m s) as [(b0 & bt & _ & _ & _ & E) | [_ E]];
    rewrite E; [eauto | unfold open_batch; eauto].
Qed.

Lemma load_fresh (m : jsnum) (kf : jsval -> jsval) (k : jsval) (s s' : state) (p : nat) :
  cache_lookup (cacheMap s) (kf k) = None -> load m kf k s = Ret s' p ->
  exists b' bt', cur_batch s' = Some b' /\ batches s' !! b' = Some bt' /\
    hasDispatched bt' = false /\ In k (keys bt') /\ In p (callbacks bt').
Proof.
  intros Hc Hl.
  destruct (is_nullish k) eqn:Hn; [unfold load in Hl; rewrite Hn in Hl; discriminate |].
  destruct (getCurrentBatch_ret m s) as (s1 & b & Eg).
  destruct (getCurrentBatch_result m s s1 b Eg)
    as (_ & _ & Hcm & _ & _ & Hcur & bt & Hb & Hd).
  rewrite <- Hcm in Hc.
  rewrite (load_miss_step m kf k s s1 b bt Hn Eg Hb Hc) in Hl.
  injection Hl as Hs Hp. subst s' p. simpl.
  eexists b, _. split; [exact Hcur |]. split; [apply lookup_insert_eq |].
  simpl. split; [exact Hd |].
  split; apply in_or_app; right; left; reflexivity.
Qed.





(** ** Batch size and number of calls *)

Lemma kb_ret {A} (a : A) : keeps_batches (retM a).
Proof. intros s. repeat split. Qed.

Lemma kb_throw {A} (e : jsval) : keeps_batches (A := A) (throwM e).
Proof. intros s. repeat split. Qed.

Lemma kb_get : keeps_batches getS.
Proof. intros s. repeat split. Qed.

Lemma kb_bind {A B} (m : M A) (k : A -> M B) :
  keeps_batches m -> (forall a, keeps_batches (k a)) -> keeps_batches (bindM m k).
Proof.
  intros Hm Hk s. specialize (Hm s). unfold bindM.
  destruct (m s) as [s1 a | s1 e]; simpl in *; [| exact Hm].
  destruct (Hk a s1) as (H1 & H2 & H3). rewrite H1, H2, H3. exact Hm.
Qed.

Lemma kb_modify (f : state -> state) :
  (forall s, batches (f s) = batches s /\ calls (f s) = calls s /\ jobs (f s) = jobs s) ->
  keeps_batches (modifyS f).
Proof. intros H s. apply H. Qed.

Lemma kb_new_promise : keeps_batches new_promise.
Proof. intros s. repeat split. Qed.

Lemma kb_settle (p : nat) (st : pstate) : keeps_batches (settle_promise p st).
Proof. apply kb_modify. intros s. destruct (promises s !! p) as [[] |]; repeat split. Qed.

Lemma kb_clear (kf : jsval -> jsval) (k : jsval) : keeps_batches (clear kf k).
Proof. apply kb_modify. intros s. destruct (cacheMap s); repeat split. Qed.

Lemma kb_clearAll : keeps_batches clearAll.
Proof. apply kb_modify. intros s. destruct (cacheMap s); repeat split. Qed.

Lemma kb_cache_set (k : jsval) (p : nat) : keeps_batches (cache_set k p).
Proof. apply kb_modify. intros s. destruct (cacheMap s); repeat split. Qed.

Create HintDb keeps.
#[local] Hint Resolve kb_ret kb_throw kb_get kb_new_promise kb_settle kb_clear kb_clearAll
  kb_cache_set : keeps.

Ltac keeps_tac :=
  repeat match goal with
  | |- keeps_batches (bindM _ _) => apply kb_bind; [| intros ?]
  | |- keeps_batches (match ?x with _ => _ end) => destruct x
  | |- keeps_batches (if ?x then _ else _) => destruct x
  | |- keeps_batches (reject _ _) => apply kb_settle
  | |- keeps_batches (resolve_value _ _) => apply kb_settle
  | |- keeps_batches (resolve_with _ _) => apply kb_settle
  | |- keeps_batches _ => solve [eauto with keeps]
  end.

Lemma kb_run_cache_hits (hs : list (nat * nat)) : keeps_batches (run_cache_hits hs).
Proof. induction hs as [| [p c] hs IH]; simpl; keeps_tac. Qed.

Lemma kb_resolveCacheHits (b : nat) : keeps_batches (resolveCacheHits b).
Proof. unfold resolveCacheHits. keeps_tac. apply kb_run_cache_hits. Qed.

Lemma kb_fail_keys (kf : jsval -> jsval) (i : nat) (ks : list jsval) (cbs : list nat)
    (e : jsval) : keeps_batches (fail_keys kf i ks cbs e).
Proof. revert i. induction ks as [| k ks IH]; intros i; simpl; keeps_tac. Qed.

Lemma kb_failedDispatch (kf : jsval -> jsval) (b : nat) (e : jsval) :
  keeps_batches (failedDispatch kf b e).
Proof. unfold failedDispatch. keeps_tac; [apply kb_resolveCacheHits | apply kb_fail_keys]. Qed.

Lemma kb_resolve_values (i : nat) (cbs : list nat) (vs : list jsval) :
  keeps_batches (resolve_values i cbs vs).
Proof. revert i. induction cbs as [| c cbs IH]; intros i; simpl; keeps_tac. Qed.

Lemma kb_on_values (b : nat) (v : jsval) : keeps_batches (on_values b v).
Proof.
  unfold on_values. keeps_tac; [apply kb_resolveCacheHits | apply kb_resolve_values].
Qed.

Lemma kb_prime (kf : jsval -> jsval) (k v : jsval) : keeps_batches (prime kf k v).
Proof. unfold prime. keeps_tac. Qed.

Lemma kb_settle_batch (kf : jsval -> jsval) (b : nat) (o : bout) :
  keeps_batches (settle_batch kf b o).
Proof.
  intros s. destruct o as [v | e]; [| apply kb_failedDispatch].
  unfold settle_batch. pose proof (kb_on_values b v s) as H.
  destruct (on_values b v s) as [s1 a | s1 e]; simpl in *; [exact H |].
  destruct (kb_failedDispatch kf b e s1) as (H1 & H2 & H3). rewrite H1, H2, H3. exact H.
Qed.

Lemma kbd_of_kb (q : Q) {A} (m : M A) : keeps_batches m -> keeps_bound q m.
Proof. intros H s Hs. unfold bounded. rewrite (proj1 (H s)). exact Hs. Qed.

Lemma kbd_bind (q : Q) {A B} (m : M A) (k : A -> M B) :
  keeps_bound q m -> (forall a, keeps_bound q (k a)) -> keeps_bound q (bindM m k).
Proof.
  intros Hm Hk s Hs. specialize (Hm s Hs). unfold bindM.
  destruct (m s) as [s1 a | s1 e]; simpl in *; [apply Hk |]; exact Hm.
Qed.

Lemma kbd_modify (q : Q) (f : state -> state) :
  (forall s, batches (f s) = batches s) -> keeps_bound q (modifyS f).
Proof. intros H s Hs. unfold bounded. simpl. rewrite H. exact Hs. Qed.

Lemma kbd_modify_batch (q : Q) (b : nat) (f : batch -> batch) :
  (forall bt, keys (f bt) = keys bt) -> keeps_bound q (modify_batch b f).
Proof.
  intros Hf s Hs b' bt'. unfold modify_batch, modifyS. simpl.
  destruct (batches s !! b) as [bt |] eqn:E; [simpl | apply Hs].
  destruct (decide (b' = b)) as [-> | Hne].
  - rewrite lookup_insert_eq. intros [= <-]. rewrite Hf. exact (Hs b bt E).
  - rewrite lookup_insert_ne by congruence. apply Hs.
Qed.

Lemma kbd_dispatchBatch (q : Q) (bl : list jsval -> bret) (kf : jsval -> jsval) (b : nat) :
  keeps_bound q (dispatchBatch bl kf b).
Proof.
  unfold dispatchBatch.
  apply kbd_bind; [apply kbd_modify_batch; reflexivity | intros _].
  apply kbd_bind; [apply kbd_of_kb, kb_get | intros s].
  destruct (Nat.eqb _ _); [apply kbd_of_kb, kb_resolveCacheHits |].
  apply kbd_bind; [apply kbd_modify; reflexivity | intros _].
  destruct (bl _) as [o | v | e]; [apply kbd_modify; reflexivity | | apply kbd_of_kb, kb_throw].
  destruct (_ || _); [apply kbd_of_kb, kb_failedDispatch | apply kbd_of_kb, kb_ret].
Qed.

Lemma bounded_step_job (q : Q) (bl : list jsval -> bret) (kf : jsval -> jsval) (s s' : state) :
  bounded q s -> step_job bl kf s = Some s' -> bounded q s'.
Proof.
  intros Hs. unfold step_job. destruct (jobs s) as [| j js]; [discriminate |].
  assert (Hs1 : bounded q (set_jobs js s)) by exact Hs.
  assert (Hr : bounded q (exc_state (run_job bl kf j (set_jobs js s)))).
  { destruct j as [b | b o]; simpl.
    - apply kbd_dispatchBatch. exact Hs1.
    - unfold bounded. rewrite (proj1 (kb_settle_batch kf b o _)). exact Hs1. }
  destruct (run_job bl kf j (set_jobs js s)) as [s1 a | s1 e]; intros [= <-]; exact Hr.
Qed.

Lemma len_lt_ceiling (n : nat) (q : Q) :
  len_lt n (NFin q) = true -> (Z.of_nat (S n) <= Qceiling q)%Z.
Proof.
  simpl. intros H. apply negb_true_iff in H.
  assert (Hlt : (inject_Z (Z.of_nat n) < q)%Q).
  { apply Qnot_le_lt. intros Hle. apply Qle_bool_iff in Hle. congruence. }
  assert (Hc : (inject_Z (Z.of_nat n) < inject_Z (Qceiling q))%Q)
    by (eapply Qlt_le_trans; [exact Hlt | apply Qle_ceiling]).
  rewrite <- Zlt_Qlt in Hc. lia.
Qed.

Lemma one_le_ceiling (q : Q) : (1 <= q)%Q -> (1 <= Qceiling q)%Z.
Proof. intros H. apply (Qceiling_resp_le 1 q) in H. exact H. Qed.

Lemma kbd_load (q : Q) (kf : jsval -> jsval) (k : jsval) :
  (1 <= q)%Q -> keeps_bound q (load (NFin q) kf k).
Proof.
  intros Hq s Hs.
  destruct (is_nullish k) eqn:Hn; [unfold load; rewrite Hn; exact Hs |].
  destruct (getCurrentBatch_cases (NFin q) s) as [(b0 & bt & Ec & Eb & Er & Eg) | [_ Eg]].
  - destruct (cache_lookup (cacheMap s) (kf k)) as [c |] eqn:Hc.
    + rewrite (load_hit_step (NFin q) kf k s s b0 bt c Hn Eg Eb Hc).
      intros b' bt'. cbn [exc_state batches].
      destruct (decide (b' = b0)) as [-> | Hne].
      * rewrite lookup_insert_eq. intros [= <-]. exact (Hs b0 bt Eb).
      * rewrite lookup_insert_ne by congruence. apply Hs.
    + rewrite (load_miss_step (NFin q) kf k s s b0 bt Hn Eg Eb Hc).
      intros b' bt'. cbn [exc_state batches].
      destruct (decide (b' = b0)) as [-> | Hne].
      * rewrite lookup_insert_eq. intros [= <-]. simpl.
        rewrite length_app. simpl. rewrite Nat.add_1_r. apply len_lt_ceiling.
        unfold reuse_batch in Er. apply andb_true_iff in Er as [Er _].
        apply andb_true_iff in Er as [_ Er]. exact Er.
      * rewrite lookup_insert_ne by congruence. apply Hs.
  - pose proof (one_le_ceiling q Hq) as H1.
    set (s1 := mkState (promises s) (next_promise s)
                 (<[next_batch s := new_batch]> (batches s)) (S (next_batch s))
                 (Some (next_batch s)) (cacheMap s) (jobs s ++ [JDispatch (next_batch s)])
                 (calls s) (uncaught s)).
    assert (Eg' : getCurrentBatch (NFin q) s = Ret s1 (next_batch s)) by (rewrite Eg; reflexivity).
    assert (Eb : batches s1 !! next_batch s = Some new_batch) by apply lookup_insert_eq.
    assert (Hrest : forall b' bt', b' <> next_batch s -> batches s1 !! b' = Some bt' ->
                      (Z.of_nat (length (keys bt')) <= Qceiling q)%Z).
    { intros b' bt' Hne. simpl. rewrite lookup_insert_ne by congruence. apply Hs. }
    destruct (cache_lookup (cacheMap s1) (kf k)) as [c |] eqn:Hc.
    + rewrite (load_hit_step (NFin q) kf k s s1 _ new_batch c Hn Eg' Eb Hc).
      intros b' bt'. cbn [exc_state batches].
      destruct (decide (b' = next_batch s)) as [-> | Hne].
      * rewrite lookup_insert_eq. intros [= <-]. simpl. lia.
      * rewrite lookup_insert_ne by congruence. apply Hrest. exact Hne.
    + rewrite (load_miss_step (NFin q) kf k s s1 _ new_batch Hn Eg' Eb Hc).
      intros b' bt'. cbn [exc_state batches].
      destruct (decide (b' = next_batch s)) as [-> | Hne].
      * rewrite lookup_insert_eq. intros [= <-]. simpl. lia.
      * rewrite lookup_insert_ne by congruence. apply Hrest. exact Hne.
Qed.

Lemma kbd_load_all (q : Q) (kf : jsval -> jsval) (ks : list jsval) :
  (1 <= q)%Q -> keeps_bound q (load_all (NFin q) kf ks).
Proof.
  intros Hq. induction ks as [| k ks IH]; simpl; [apply kbd_of_kb, kb_ret |].
  apply kbd_bind; [apply kbd_load; exact Hq | intros p].
  apply kbd_bind; [exact IH | intros ps]. apply kbd_of_kb, kb_ret.
Qed.

Lemma kbd_loadMany (q : Q) (kf : jsval -> jsval) (ks : jsval) :
  (1 <= q)%Q -> keeps_bound q (loadMany (NFin q) kf ks).
Proof.
  intros Hq. unfold loadMany. destruct (negb (isArrayLike ks));
    [apply kbd_of_kb, kb_throw | apply kbd_load_all; exact Hq].
Qed.

Lemma reachable_bounded (bl : list jsval -> bret) (q : Q) (kf : jsval -> jsval)
    (caching : bool) (s : state) :
  (1 <= q)%Q -> reachable bl (NFin q) kf caching s ->
  forall b bt, batches s !! b = Some bt -> (Z.of_nat (length (keys bt)) <= Qceiling q)%Z.
Proof.
  intros Hq Hr. induction Hr as [| s s' _ IH Hst].
  - intros b bt H. simpl in H. rewrite lookup_empty in H. discriminate.
  - destruct Hst as [k s s' p E | k s s' e E | ks s s' ps E | ks s s' e E
                    | k s s' E | s s' E | k v s s' E | s s' E].
    + pose proof (kbd_load q kf k Hq s IH) as H. rewrite E in H. exact H.
    + pose proof (kbd_load q kf k Hq s IH) as H. rewrite E in H. exact H.
    + pose proof (kbd_loadMany q kf ks Hq s IH) as H. rewrite E in H. exact H.
    + pose proof (kbd_loadMany q kf ks Hq s IH) as H. rewrite E in H. exact H.
    + pose proof (kbd_of_kb q _ (kb_clear kf k) s IH) as H. rewrite E in H. exact H.
    + pose proof (kbd_of_kb q _ kb_clearAll s IH) as H. rewrite E in H. exact H.
    + pose proof (kbd_of_kb q _ (kb_prime kf k v) s IH) as H. rewrite E in H. exact H.
    + exact (bounded_step_job q bl kf s s' IH E).
Qed.

Lemma map_get_set_none (cm : list (jsval * nat)) (x y : jsval) (p : nat) :
  map_get cm y = None -> same_value_zero x y = false -> map_get (map_set cm x p) y = None.
Proof.
  intros Hg Hxy. induction cm as [| [k' v'] cm IH]; simpl in *; [rewrite Hxy; reflexivity |].
  destruct (same_value_zero k' y) eqn:Ey; [discriminate |].
  destruct (same_value_zero k' x); simpl; rewrite Ey; [exact Hg | exact (IH Hg)].
Qed.

Lemma cache_lookup_set_none (cm : option (list (jsval * nat))) (x y : jsval) (p : nat) :
  cache_lookup cm y = None -> same_value_zero x y = false ->
  cache_lookup (option_map (fun mp => map_set mp x p) cm) y = None.
Proof. destruct cm; simpl; [apply map_get_set_none | auto]. Qed.

Lemma len_lt_iff (n : nat) (q : Q) :
  len_lt n (NFin q) = true <-> (Z.of_nat n < Qceiling q)%Z.
Proof.
  split; [intros H; apply len_lt_ceiling in H; lia |].
  intros H. simpl. apply negb_true_iff. destruct (Qle_bool _ _) eqn:E; [| reflexivity].
  apply Qle_bool_iff, Qceiling_resp_le in E. rewrite Qceiling_Z in E. lia.
Qed.

Lemma laid_out_app (bs : gmap nat batch) (b : nat) (L0 : list (list jsval)) (x : list jsval) :
  laid_out bs b (L0 ++ [x]) <->
  laid_out bs b L0 /\
  exists cbs, bs !! (b + length L0) = Some (mkBatch false x cbs None) /\ length cbs = length x.
Proof.
  revert b. induction L0 as [| y L0 IH]; intros b; simpl.
  - rewrite Nat.add_0_r. tauto.
  - rewrite IH. replace (S b + length L0) with (b + S (length L0)) by lia. tauto.
Qed.

Lemma laid_out_insert (bs : gmap nat batch) (b : nat) (L : list (list jsval)) (j : nat) (v : batch) :
  (j < b \/ b + length L <= j) -> laid_out bs b L -> laid_out (<[j := v]> bs) b L.
Proof.
  revert b. induction L as [| x L IH]; intros b Hj; simpl; [auto |].
  intros [(cbs & Hb & Hl) Hr]. split.
  - exists cbs. rewrite lookup_insert_ne by (simpl in Hj; lia). auto.
  - apply IH; [simpl in Hj; lia | exact Hr].
Qed.

Lemma open_when_no_open_batch (m : jsnum) (s : state) :
  no_open_batch s -> getCurrentBatch m s = open_batch s.
Proof.
  intros Hno. destruct (getCurrentBatch_cases m s) as [(b & bt & Ec & Eb & Er & _) | [_ E]];
    [| exact E].
  exfalso. specialize (Hno b bt Ec Eb). unfold reuse_batch in Er. rewrite Hno in Er.
  discriminate.
Qed.

Lemma load_opening_step (m : jsnum) (kf : jsval -> jsval) (k : jsval) (s : state) :
  is_nullish k = false -> getCurrentBatch m s = open_batch s ->
  cache_lookup (cacheMap s) (kf k) = None ->
  load m kf k s =
  Ret (mkState (<[next_promise s := Pending]> (promises s)) (S (next_promise s))
         (<[next_batch s := mkBatch false [k] [next_promise s] None]>
            (<[next_batch s := new_batch]> (batches s)))
         (S (next_batch s)) (Some (next_batch s))
         (option_map (fun mp => map_set mp (kf k) (next_promise s)) (cacheMap s))
         (jobs s ++ [JDispatch (next_batch s)]) (calls s) (uncaught s))
      (next_promise s).
Proof.
  intros Hn Eg Hc.
  assert (Eg' : getCurrentBatch m s = Ret (mkState (promises s) (next_promise s)
               (<[next_batch s := new_batch]> (batches s)) (S (next_batch s))
               (Some (next_batch s)) (cacheMap s) (jobs s ++ [JDispatch (next_batch s)])
               (calls s) (uncaught s)) (next_batch s)) by (rewrite Eg; reflexivity).
  exact (load_miss_step m kf k s _ _ new_batch Hn Eg' (lookup_insert_eq _ _ _) Hc).
Qed.

Lemma fill_first (q : Q) (kf : jsval -> jsval) (k : jsval) (s0 : state) :
  (1 <= q)%Q -> jobs s0 = [] -> no_open_batch s0 ->
  is_nullish k = false -> cache_lookup (cacheMap s0) (kf k) = None ->
  exists s' p, load (NFin q) kf k s0 = Ret s' p /\ fill_inv (ceil_size q) s0 s' [] [k] /\
    cacheMap s' = option_map (fun mp => map_set mp (kf k) p) (cacheMap s0).
Proof.
  intros Hq Hj Hno Hn Hc. pose proof (one_le_ceiling q Hq) as H1.
  rewrite (load_opening_step (NFin q) kf k s0 Hn (open_when_no_open_batch _ s0 Hno) Hc).
  eexists _, _. split; [reflexivity |]. split; [| reflexivity].
  unfold fill_inv, ceil_size; simpl. rewrite Hj.
  repeat split; try lia.
  - exists [next_promise s0]. rewrite lookup_insert_eq. auto.
  - rewrite Nat.add_0_r. reflexivity.
  - constructor.
Qed.

Lemma fill_next (q : Q) (kf : jsval -> jsval) (k : jsval) (s0 s : state)
    (L0 : list (list jsval)) (x : list jsval) :
  (1 <= q)%Q -> fill_inv (ceil_size q) s0 s L0 x ->
  is_nullish k = false -> cache_lookup (cacheMap s) (kf k) = None ->
  exists s' p L0' x', load (NFin q) kf k s = Ret s' p /\ fill_inv (ceil_size q) s0 s' L0' x' /\
    concat (L0' ++ [x']) = concat (L0 ++ [x]) ++ [k] /\
    cacheMap s' = option_map (fun mp => map_set mp (kf k) p) (cacheMap s).
Proof.
  intros Hq (Hnb & Hj & Hcl & Hlay & Hcur & Hfull & Hx) Hn Hc.
  pose proof (one_le_ceiling q Hq) as H1. unfold ceil_size in *.
  apply laid_out_app in Hlay as [Hlay0 (cbs & Hb & Hcbs)].
  destruct (Nat.ltb (length x) (Z.to_nat (Qceiling q))) eqn:Hlt.
  - apply Nat.ltb_lt in Hlt.
    assert (Hr : reuse_batch (NFin q) (mkBatch false x cbs None) = true).
    { unfold reuse_batch. cbn [hasDispatched keys cacheHits]. rewrite andb_true_r.
      cbn [negb andb]. apply len_lt_iff. lia. }
    assert (Eg : getCurrentBatch (NFin q) s = Ret s (next_batch s0 + length L0))
      by (unfold getCurrentBatch; rewrite Hcur, Hb, Hr; reflexivity).
    rewrite (load_miss_step (NFin q) kf k s s _ _ Hn Eg Hb Hc). simpl.
    eexists _, _, L0, (x ++ [k]). split; [reflexivity |].
    split; [| split; [| reflexivity]].
    + unfold fill_inv; simpl. split; [exact Hnb |]. split; [exact Hj |].
      split; [exact Hcl |]. split; [| split; [exact Hcur | split; [exact Hfull |]]].
      * apply laid_out_app. split.
        -- apply laid_out_insert; [lia | exact Hlay0].
        -- exists (cbs ++ [next_promise s]). rewrite lookup_insert_eq.
           split; [reflexivity |]. rewrite !length_app. simpl. lia.
      * rewrite length_app. simpl. lia.
    + rewrite !concat_app. simpl. rewrite !app_nil_r, app_assoc. reflexivity.
  - apply Nat.ltb_ge in Hlt.
    assert (Hr : reuse_batch (NFin q) (mkBatch false x cbs None) = false).
    { unfold reuse_batch. cbn [hasDispatched keys cacheHits]. rewrite andb_true_r.
      cbn [negb andb].
      destruct (len_lt (length x) (NFin q)) eqn:E; [| reflexivity].
      apply len_lt_iff in E. lia. }
    assert (Eg : getCurrentBatch (NFin q) s = open_batch s)
      by (unfold getCurrentBatch; rewrite Hcur, Hb, Hr; reflexivity).
    rewrite (load_opening_step (NFin q) kf k s Hn Eg Hc).
    eexists _, _, (L0 ++ [x]), [k]. split; [reflexivity |].
    split; [| split; [| reflexivity]].
    + unfold fill_inv; simpl. rewrite length_app. simpl.
      split; [lia |]. split.
      { rewrite Hj, Hnb.
        transitivity (map JDispatch (seq (next_batch s0) (S (S (length L0))))).
        - rewrite (seq_S (S (length L0))), map_app. reflexivity.
        - simpl. rewrite Nat.add_1_r. reflexivity. }
      split; [exact Hcl |]. split; [| split; [rewrite Hnb; f_equal; lia |]].
      * apply laid_out_app. split.
        -- apply laid_out_insert; [rewrite length_app; simpl; lia |].
           apply laid_out_insert; [rewrite length_app; simpl; lia |].
           apply laid_out_app. split; [exact Hlay0 | exists cbs; auto].
        -- exists [next_promise s]. rewrite length_app. simpl.
           replace (next_batch s0 + (length L0 + 1)) with (next_batch s) by lia.
           rewrite lookup_insert_eq. auto.
      * split; [apply Forall_app; split; [exact Hfull | constructor; [lia | constructor]] |].
        simpl. lia.
    + rewrite concat_app. simpl. rewrite ?app_nil_r. reflexivity.
Qed.

Lemma fill_all (q : Q) (kf : jsval -> jsval) (s0 : state) (ks : list jsval) :
  (1 <= q)%Q ->
  forall s L0 x, fill_inv (ceil_size q) s0 s L0 x ->
  Forall (fun k => is_nullish k = false /\ cache_lookup (cacheMap s) (kf k) = None) ks ->
  ForallOrdPairs (fun a b => same_value_zero (kf a) (kf b) = false) ks ->
  exists s' ps L0' x', load_all (NFin q) kf ks s = Ret s' ps /\
    fill_inv (ceil_size q) s0 s' L0' x' /\
    concat (L0' ++ [x']) = concat (L0 ++ [x]) ++ ks.
Proof.
  intros Hq. induction ks as [| k ks IH]; intros s L0 x Hinv Hks Hd.
  - exists s, [], L0, x. rewrite app_nil_r. auto.
  - inversion Hks as [| ? ? [Hn Hc] Hks']; subst.
    inversion Hd as [| ? ? Hk Hd']; subst.
    destruct (fill_next q kf k s0 s L0 x Hq Hinv Hn Hc)
      as (s1 & p & L1 & x1 & E1 & Hinv1 & Hcat1 & Hcm1).
    assert (Hks1 : Forall (fun k => is_nullish k = false /\
                     cache_lookup (cacheMap s1) (kf k) = None) ks).
    { rewrite Forall_forall in *. intros k' Hk'. destruct (Hks' k' Hk') as [Hn' Hc'].
      split; [exact Hn' |]. rewrite Hcm1. apply cache_lookup_set_none; [exact Hc' |].
      exact (Hk k' Hk'). }
    destruct (IH s1 L1 x1 Hinv1 Hks1 Hd') as (s2 & ps & L2 & x2 & E2 & Hinv2 & Hcat2).
    exists s2, (p :: ps), L2, x2. split; [| split; [exact Hinv2 |]].
    + cbn [load_all]. unfold bindM. rewrite E1, E2. reflexivity.
    + rewrite Hcat2, Hcat1, <- app_assoc. reflexivity.
Qed.

Lemma step_dispatch_effect (bl : list jsval -> bret) (kf : jsval -> jsval) (s : state)
    (b : nat) (bt : batch) (js : list job) :
  batches s !! b = Some bt -> keys bt <> [] -> jobs s = JDispatch b :: js ->
  exists s' J, step_job bl kf s = Some s' /\ jobs s' = js ++ J /\ Forall is_settle J /\
    calls s' = calls s ++ [keys bt] /\ batches s' = <[b := mark_dispatched bt]> (batches s).
Proof.
  intros Hb Hk Hj. rewrite (step_job_dispatch bl kf s b js Hj).
  rewrite (dispatchBatch_nonempty bl kf b (set_jobs js s) bt Hb Hk). cbv zeta.
  destruct (bl (keys bt)) as [o | v | e].
  - eexists _, [JSettle b o]. split; [reflexivity |].
    split; [reflexivity | split; [repeat constructor | split; reflexivity]].
  - destruct (_ || _).
    + match goal with
      | |- context [failedDispatch ?kf ?b ?e ?S] =>
          pose proof (kb_failedDispatch kf b e S) as (H1 & H2 & H3);
          destruct (failedDispatch kf b e S) as [s2 a | s2 e2]
      end; simpl in H1, H2, H3; eexists _, []; rewrite app_nil_r;
        split; try reflexivity; simpl; repeat split; try constructor; assumption.
    + eexists _, []. rewrite app_nil_r.
      split; [reflexivity | split; [reflexivity | split; [constructor | split; reflexivity]]].
  - eexists _, []. rewrite app_nil_r.
    split; [reflexivity | split; [reflexivity | split; [constructor | split; reflexivity]]].
Qed.

Lemma dispatch_all (bl : list jsval -> bret) (kf : jsval -> jsval) (R : list (list jsval)) :
  forall s nb J, jobs s = map JDispatch (seq nb (length R)) ++ J -> Forall is_settle J ->
  laid_out (batches s) nb R -> Forall (fun y => y <> []) R ->
  exists J', Forall is_settle J' /\ jobs (run_jobs bl kf (length R) s) = J' /\
    calls (run_jobs bl kf (length R) s) = calls s ++ R.
Proof.
  induction R as [| y R IH]; intros s nb J Hj HJ Hlay Hne.
  - exists J. simpl. rewrite app_nil_r. auto.
  - destruct Hlay as [(cbs & Hb & _) Hlay]. inversion Hne as [| ? ? Hy Hne']; subst.
    simpl in Hj.
    destruct (step_dispatch_effect bl kf s nb _ _ Hb Hy Hj)
      as (s' & J1 & E & Hj' & HJ1 & Hc' & Hb').
    simpl length. rewrite run_jobs_S, E.
    destruct (IH s' (S nb) (J ++ J1)) as (J' & HJ' & Hj'' & Hc'').
    + rewrite Hj', app_assoc. reflexivity.
    + apply Forall_app. auto.
    + rewrite Hb'. apply laid_out_insert; [lia | exact Hlay].
    + exact Hne'.
    + exists J'. split; [exact HJ' | split; [exact Hj'' |]].
      rewrite Hc'', Hc', <- app_assoc. reflexivity.
Qed.

Lemma settle_only (bl : list jsval -> bret) (kf : jsval -> jsval) (n : nat) :
  forall s, Forall is_settle (jobs s) -> calls (run_jobs bl kf n s) = calls s.
Proof.
  induction n as [| n IH]; intros s Hs; [reflexivity |].
  rewrite run_jobs_S. unfold step_job.
  destruct (jobs s) as [| j js] eqn:Ej; [reflexivity |].
  inversion Hs as [| ? ? Hjs Hs']; subst.
  destruct j as [b | b o]; [contradiction |]. simpl run_job.
  pose proof (kb_settle_batch kf b o (set_jobs js s)) as (_ & H2 & H3).
  destruct (settle_batch kf b o (set_jobs js s)) as [s1 a | s1 e]; simpl in H2, H3;
    rewrite IH; simpl; try rewrite H3; auto.
Qed.

Lemma length_concat_full (c : nat) (L0 : list (list jsval)) (x : list jsval) :
  Forall (fun y => length y = c) L0 ->
  length (concat (L0 ++ [x])) = c * length L0 + length x.
Proof.
  intros H. induction H as [| y L0 Hy _ IH]; simpl; [rewrite app_nil_r; lia |].
  rewrite length_app, IH, Hy. lia.
Qed.

Lemma load_all_calls (bl : list jsval -> bret) (q : Q) (kf : jsval -> jsval) (s0 : state)
    (ks : list jsval) :
  (1 <= q)%Q -> jobs s0 = [] -> no_open_batch s0 ->
  Forall (fun k => is_nullish k = false /\ cache_lookup (cacheMap s0) (kf k) = None) ks ->
  ForallOrdPairs (fun a b => same_value_zero (kf a) (kf b) = false) ks ->
  exists s1 ps cs, load_all (NFin q) kf ks s0 = Ret s1 ps /\
    concat cs = ks /\ Forall (fun y => 1 <= length y <= ceil_size q) cs /\
    length cs = (length ks + ceil_size q - 1) / ceil_size q /\
    forall n, length cs <= n -> calls (run_jobs bl kf n s1) = calls s0 ++ cs.
Proof.
  intros Hq Hj Hno Hks Hd. pose proof (one_le_ceiling q Hq) as H1.
  assert (Hc1 : 1 <= ceil_size q) by (unfold ceil_size; lia).
  destruct ks as [| k ks].
  - exists s0, [], []. split; [reflexivity |]. split; [reflexivity |].
    split; [constructor |]. split.
    + simpl. symmetry. apply Nat.div_small. lia.
    + intros n _. rewrite run_jobs_idle by exact Hj. rewrite app_nil_r. reflexivity.
  - inversion Hks as [| ? ? [Hn Hc] Hks']; subst.
    inversion Hd as [| ? ? Hk Hd']; subst.
    destruct (fill_first q kf k s0 Hq Hj Hno Hn Hc) as (s1 & p & E1 & Hinv1 & Hcm1).
    assert (Hks1 : Forall (fun k => is_nullish k = false /\
                     cache_lookup (cacheMap s1) (kf k) = None) ks).
    { rewrite Forall_forall in *. intros k' Hk'. destruct (Hks' k' Hk') as [Hn' Hc'].
      split; [exact Hn' |]. rewrite Hcm1. apply cache_lookup_set_none; [exact Hc' |].
      exact (Hk k' Hk'). }
    destruct (fill_all q kf s0 ks Hq s1 [] [k] Hinv1 Hks1 Hd')
      as (s2 & ps & L0 & x & E2 & Hinv2 & Hcat).
    destruct Hinv2 as (Hnb & Hj2 & Hcl & Hlay & _ & Hfull & Hx). simpl in Hcat.
    exists s2, (p :: ps), (L0 ++ [x]).
    assert (Hsz : Forall (fun y => 1 <= length y <= ceil_size q) (L0 ++ [x])).
    { apply Forall_app. split; [| constructor; [exact Hx | constructor]].
      eapply Forall_impl; [exact Hfull |]. intros y Hy. simpl in Hy. lia. }
    split; [cbn [load_all]; unfold bindM; rewrite E1, E2; reflexivity |].
    split; [exact Hcat |]. split; [exact Hsz |]. split.
    + rewrite <- Hcat, (length_concat_full (ceil_size q) L0 x Hfull), length_app. simpl.
      apply (Nat.div_unique _ _ _ (length x - 1)); [lia |]. nia.
    + intros n Hn'. replace n with (length (L0 ++ [x]) + (n - length (L0 ++ [x]))) by lia.
      rewrite run_jobs_add.
      destruct (dispatch_all bl kf (L0 ++ [x]) s2 (next_batch s0) [])
        as (J' & HJ' & Hj' & Hc').
      * rewrite app_nil_r, Hj2, length_app. simpl. rewrite Nat.add_1_r. reflexivity.
      * constructor.
      * exact Hlay.
      * eapply Forall_impl; [exact Hsz |]. intros y Hy Hy0. rewrite Hy0 in Hy. simpl in Hy. lia.
      * rewrite settle_only by (rewrite Hj'; exact HJ'). rewrite Hc', Hcl. reflexivity.
Qed.

(** C5 (amended): for a maximum batch size [m >= 1], no batch of a
    reachable state holds more than [ceil m] keys, the smallest integer not
    below [m].  And [n] loads in one tick, started with no open batch and
    no queued job, of keys that are not null or undefined, whose cache keys
    are uncached and pairwise distinct, give [ceil (n / ceil m)] calls of
    the batch function once the host runs the queued jobs: the key lists
    of the calls are the keys in load order, cut in lists of 1 to
    [ceil m] keys. *)
Theorem batch_size_and_call_count (bl : list jsval -> bret) (q : Q) (kf : jsval -> jsval) :
  (1 <= q)%Q ->
  (forall caching s, reachable bl (NFin q) kf caching s ->
     forall b bt, batches s !! b = Some bt -> length (keys bt) <= ceil_size q) /\
  (forall s0 ks, jobs s0 = [] -> no_open_batch s0 ->
     Forall (fun k => is_nullish k = false /\ cache_lookup (cacheMap s0) (kf k) = None) ks ->
     ForallOrdPairs (fun a b => same_value_zero (kf a) (kf b) = false) ks ->
     exists s1 ps cs, load_all (NFin q) kf ks s0 = Ret s1 ps /\
       concat cs = ks /\ Forall (fun y => 1 <= length y <= ceil_size q) cs /\
       length cs = (length ks + ceil_size q - 1) / ceil_size q /\
       forall n, length cs <= n -> calls (run_jobs bl kf n s1) = calls s0 ++ cs).
Proof.
  intros Hq. split.
  - intros caching s Hr b bt Hb. unfold ceil_size.
    pose proof (reachable_bounded bl q kf caching s Hq Hr b bt Hb). lia.
  - intros s0 ks Hj Hno Hks Hd. exact (load_all_calls bl q kf s0 ks Hq Hj Hno Hks Hd).
Qed.

Lemma batch_size_and_call_count_witness :
  (1 <= 5 # 2)%Q /\
  exists s1 ps cs, load_all (NFin (5 # 2)) id three_keys (init_state true) = Ret s1 ps /\
    concat cs = three_keys /\ Forall (fun y => 1 <= length y <= ceil_size (5 # 2)) cs /\
    length cs = (length three_keys + ceil_size (5 # 2) - 1) / ceil_size (5 # 2) /\
    forall n, length cs <= n ->
      calls (run_jobs echo_backend id n s1) = calls (init_state true) ++ cs.
Proof.
  assert (Hq : (1 <= 5 # 2)%Q) by (apply Qle_bool_iff; reflexivity).
  split; [exact Hq |].
  apply (proj2 (batch_size_and_call_count echo_backend (5 # 2) id Hq) (init_state true) three_keys).
  - reflexivity.
  - intros b bt H. discriminate.
  - repeat constructor.
  - repeat constructor.
Defined.

(** C5, counterexample: with [maxBatchSize] 2.5, three loads in one tick
    go into one batch of three keys, more than 2.5, and the batch function
    is called once, not ceil(3 / 2.5) = 2 times. *)
Lemma fractional_max_batch_size_one_call :
  let s := exc_state (load_all (NFin (5 # 2)) id three_keys (init_state true)) in
  length (keys (get_batch s 0)) = 3 /\
  calls (run_jobs echo_backend id 4 s) = [three_keys].
Proof. vm_compute. split; reflexivity. Qed.

(** ** Further properties of the engine *)

Lemma svz_sym (a b : jsval) : same_value_zero a b = same_value_zero b a.
Proof.
  destruct a as [| | x | [x | | |] | x | x | x ? ? | x | x ? ? | x ?],
           b as [| | y | [y | | |] | y | y | y ? ? | y | y ? ? | y ?]; simpl; try reflexivity.
  - destruct x, y; reflexivity.
  - destruct (Qeq_bool x y) eqn:E1, (Qeq_bool y x) eqn:E2; try reflexivity;
      apply Qeq_bool_iff in E1 || apply Qeq_bool_iff in E2;
      [rewrite (proj2 (Qeq_bool_iff y x) (Qeq_sym _ _ E1)) in E2
      | rewrite (proj2 (Qeq_bool_iff x y) (Qeq_sym _ _ E2)) in E1]; discriminate.
  - apply String.eqb_sym.
  - apply Z.eqb_sym.
  - apply Nat.eqb_sym.
  - apply Nat.eqb_sym.
  - apply Nat.eqb_sym.
  - apply Nat.eqb_sym.
Qed.

Lemma svz_trans (a b c : jsval) :
  same_value_zero a b = true -> same_value_zero b c = true -> same_value_zero a c = true.
Proof.
  destruct a as [| | x | [x | | |] | x | x | x ? ? | x | x ? ? | x ?],
           b as [| | y | [y | | |] | y | y | y ? ? | y | y ? ? | y ?]; simpl;
    try discriminate;
    destruct c as [| | z | [z | | |] | z | z | z ? ? | z | z ? ? | z ?]; simpl;
    try discriminate; try reflexivity; intros H1 H2.
  - destruct x, y, z; simpl in *; congruence.
  - apply Qeq_bool_iff in H1, H2. apply Qeq_bool_iff. eapply Qeq_trans; eauto.
  - apply String.eqb_eq in H1, H2. subst. apply String.eqb_refl.
  - apply Z.eqb_eq in H1, H2. subst. apply Z.eqb_refl.
  - apply Nat.eqb_eq in H1, H2. subst. apply Nat.eqb_refl.
  - apply Nat.eqb_eq in H1, H2. subst. apply Nat.eqb_refl.
  - apply Nat.eqb_eq in H1, H2. subst. apply Nat.eqb_refl.
  - apply Nat.eqb_eq in H1, H2. subst. apply Nat.eqb_refl.
Qed.

Lemma map_get_delete_other (cm : list (jsval * nat)) (x y : jsval) :
  same_value_zero x y = false -> map_get (map_delete cm x) y = map_get cm y.
Proof.
  intros Hxy. induction cm as [| [k' v'] cm IH]; [reflexivity |].
  unfold map_delete in *. simpl. destruct (same_value_zero k' x) eqn:Ex; simpl.
  - destruct (same_value_zero k' y) eqn:Ey; [| exact IH].
    rewrite svz_sym in Ex. pose proof (svz_trans _ _ _ Ex Ey). congruence.
  - destruct (same_value_zero k' y); [reflexivity | exact IH].
Qed.

Lemma map_get_delete_same (cm : list (jsval * nat)) (x y : jsval) :
  same_value_zero x y = true -> map_get (map_delete cm x) y = None.
Proof.
  intros Hxy. induction cm as [| [k' v'] cm IH]; [reflexivity |].
  unfold map_delete in *. simpl. destruct (same_value_zero k' x) eqn:Ex; simpl; [exact IH |].
  destruct (same_value_zero k' y) eqn:Ey; [| exact IH].
  rewrite svz_sym in Hxy. pose proof (svz_trans _ _ _ Ey Hxy). congruence.
Qed.

(** X1: [clear(key)] deletes from the cache every entry whose cache key
    is SameValueZero-equal to [cacheKeyFn(key)] and no other entry; the
    promises, the batches, the current batch, the job queue and the log of
    batch-function calls are left as they are. *)
Lemma clear_removes_only_key (kf : jsval -> jsval) (k : jsval) (s : state) :
  exists s', clear kf k s = Ret s' tt /\
    (forall y, same_value_zero (kf k) y = true -> cache_lookup (cacheMap s') y = None) /\
    (forall y, same_value_zero (kf k) y = false ->
       cache_lookup (cacheMap s') y = cache_lookup (cacheMap s) y) /\
    promises s' = promises s /\ batches s' = batches s /\ cur_batch s' = cur_batch s /\
    jobs s' = jobs s /\ calls s' = calls s.
Proof.
  unfold clear, modifyS. eexists. split; [reflexivity |].
  destruct (cacheMap s) as [cm |] eqn:Ec; simpl; rewrite ?Ec.
  - repeat split; intros y Hy; [apply map_get_delete_same | apply map_get_delete_other]; exact Hy.
  - repeat split; intros y Hy; reflexivity.
Qed.

(** X2: after [clearAll()] no cache key is found any more (caching stays
    on or off as it was), nothing else changes, and a following [load] of
    any key puts the key and its promise in the current undispatched batch,
    so the key is fetched again. *)
Lemma clearAll_then_load_misses (m : jsnum) (kf : jsval -> jsval) (s : state) :
  exists s', clearAll s = Ret s' tt /\
    (forall y, cache_lookup (cacheMap s') y = None) /\
    (cacheMap s' = None <-> cacheMap s = None) /\
    promises s' = promises s /\ batches s' = batches s /\ cur_batch s' = cur_batch s /\
    jobs s' = jobs s /\ calls s' = calls s /\
    (forall k s'' p, load m kf k s' = Ret s'' p ->
       exists b bt, cur_batch s'' = Some b /\ batches s'' !! b = Some bt /\
         hasDispatched bt = false /\ In k (keys bt) /\ In p (callbacks bt)).
Proof.
  unfold clearAll, modifyS. eexists. split; [reflexivity |].
  assert (Hn : forall y, cache_lookup (cacheMap (match cacheMap s with
                  | Some _ => set_cacheMap (Some []) s | None => s end)) y = None).
  { intros y. destruct (cacheMap s) eqn:Ec; simpl; rewrite ?Ec; reflexivity. }
  split; [exact Hn |].
  split; [destruct (cacheMap s) eqn:Ec; simpl; rewrite ?Ec; split; congruence |].
  split; [destruct (cacheMap s); reflexivity |].
  split; [destruct (cacheMap s); reflexivity |].
  split; [destruct (cacheMap s); reflexivity |].
  split; [destruct (cacheMap s); reflexivity |].
  split; [destruct (cacheMap s); reflexivity |].
  intros k s'' p Hl. exact (load_fresh m kf k _ s'' p (Hn (kf k)) Hl).
Qed.

(** X3: [load(key)] right after [clear(key)] takes the cache-miss path:
    the key and the new promise are appended to the current undispatched
    batch, and, with caching on, the new promise is cached under the key. *)
Lemma clear_then_load_misses (m : jsnum) (kf : jsval -> jsval) (k : jsval) (s : state) :
  exists s1, clear kf k s = Ret s1 tt /\
    forall s2 p, load m kf k s1 = Ret s2 p ->
      exists b bt, cur_batch s2 = Some b /\ batches s2 !! b = Some bt /\
        hasDispatched bt = false /\ In k (keys bt) /\ In p (callbacks bt) /\
        cache_lookup (cacheMap s2) (kf k) = option_map (fun _ => p) (cacheMap s).
Proof.
  destruct (clear_spec kf k s) as (s1 & Ec & _ & _ & _ & Hnone & _).
  exists s1. split; [exact Ec |]. intros s2 p Hl.
  destruct (load_fresh m kf k s1 s2 p Hnone Hl) as (b & bt & H1 & H2 & H3 & H4 & H5).
  exists b, bt. repeat split; auto.
  destruct (is_nullish k) eqn:Hn; [unfold load in Hl; rewrite Hn in Hl; discriminate |].
  destruct (getCurrentBatch_ret m s1) as (s1' & b' & Eg).
  destruct (getCurrentBatch_result m s1 s1' b' Eg) as (_ & _ & Hcm & _ & _ & _ & bt' & Hb & _).
  rewrite <- Hcm in Hnone.
  rewrite (load_miss_step m kf k s1 s1' b' bt' Hn Eg Hb Hnone) in Hl.
  injection Hl as <- <-. cbn [cacheMap]. rewrite Hcm.
  unfold clear, modifyS in Ec. destruct (cacheMap s) eqn:Es; injection Ec as <-; simpl.
  - rewrite map_get_set_eq. reflexivity.
  - rewrite Es. reflexivity.
Qed.

(** X4: with caching on, [clear(key)] followed by [prime(key, value)]
    always replaces whatever was cached: the cache then holds a new promise
    whose state is [Promise.resolve(value)] (rejected when [value] is an
    Error), so it is already fulfilled with [value] unless [value] is a
    thenable, which it adopts; no batch, job or batch-function call is
    added. *)
Lemma clear_then_prime_overrides (kf : jsval -> jsval) (k v : jsval) (s : state)
    (cm : list (jsval * nat)) :
  cacheMap s = Some cm ->
  exists s1 s2 p, clear kf k s = Ret s1 tt /\ prime kf k v s1 = Ret s2 tt /\
    cache_lookup (cacheMap s2) (kf k) = Some p /\
    promises s2 !! p = Some (primed_state v) /\ outcome s2 p = primed_outcome v /\
    batches s2 = batches s /\ jobs s2 = jobs s /\ calls s2 = calls s.
Proof.
  intros Hc. set (s1 := set_cacheMap (Some (map_delete cm (kf k))) s).
  assert (E1 : clear kf k s = Ret s1 tt) by (unfold clear, modifyS; rewrite Hc; reflexivity).
  exists s1.
  rewrite (prime_miss_step kf k v s1 (map_delete cm (kf k)) eq_refl (map_get_delete_eq cm (kf k))).
  eexists _, _. split; [exact E1 |]. split; [reflexivity |].
  cbn [cacheMap cache_lookup]. rewrite map_get_set_eq. split; [reflexivity |].
  cbn [promises]. rewrite lookup_insert_eq. split; [reflexivity |].
  unfold outcome, outcome_n. cbn [promises]. rewrite lookup_insert_eq.
  split; [unfold primed_state, primed_outcome; destruct (is_error v), (thenable v); reflexivity |].
  repeat split.
Qed.

Lemma load_nonnull_ret (m : jsnum) (kf : jsval -> jsval) (k : jsval) (s : state) :
  is_nullish k = false ->
  exists s', load m kf k s = Ret s' (next_promise s) /\ next_promise s' = S (next_promise s).
Proof.
  intros Hn. destruct (getCurrentBatch_ret m s) as (s1 & b & Eg).
  destruct (getCurrentBatch_result m s s1 b Eg) as (_ & Hnp & Hcm & _ & _ & _ & bt & Hb & _).
  destruct (cache_lookup (cacheMap s1) (kf k)) as [c |] eqn:Hc.
  - rewrite (load_hit_step m kf k s s1 b bt c Hn Eg Hb Hc), Hnp.
    eexists; split; reflexivity.
  - rewrite (load_miss_step m kf k s s1 b bt Hn Eg Hb Hc), Hnp.
    eexists; split; reflexivity.
Qed.

Lemma load_all_nonnull_ret (m : jsnum) (kf : jsval -> jsval) (ks : list jsval) (s : state) :
  Forall (fun k => is_nullish k = false) ks ->
  exists s', load_all m kf ks s = Ret s' (seq (next_promise s) (length ks)) /\
    next_promise s' = next_promise s + length ks.
Proof.
  revert s. induction ks as [| k ks IH]; intros s Hf.
  - exists s. split; [reflexivity | simpl; lia].
  - inversion Hf as [| ? ? Hk Hks]; subst.
    destruct (load_nonnull_ret m kf k s Hk) as (s1 & E1 & N1).
    destruct (IH s1 Hks) as (s2 & E2 & N2).
    exists s2. simpl. unfold bindM. rewrite E1, E2, N1. split; [reflexivity |].
    rewrite N2, N1. lia.
Qed.

(** X5: [loadMany] of an array whose keys are all non-null returns one
    new promise per key, in key order, all distinct and never created
    before, even for repeated or cached keys; for the empty array the
    loader is left exactly as it was. *)
Lemma loadMany_one_promise_per_key (m : jsnum) (kf : jsval -> jsval) (id : nat)
    (ks : list jsval) (s : state) :
  Forall (fun k => is_nullish k = false) ks ->
  exists s', loadMany m kf (JArr id ks) s = Ret s' (seq (next_promise s) (length ks)) /\
    next_promise s' = next_promise s + length ks /\ (ks = [] -> s' = s).
Proof.
  intros Hf. destruct (load_all_nonnull_ret m kf ks s Hf) as (s' & E & N).
  exists s'. unfold loadMany. cbn [isArrayLike negb array_elems]. split; [exact E |].
  split; [exact N |]. intros ->. simpl in E. unfold retM in E. congruence.
Qed.

(** X6: when a key of [loadMany]'s array is [null] or [undefined],
    [loadMany] throws the usage error of [load], after the keys before it
    have already been loaded: their keys stay queued in batches and their
    promises are not returned to the caller. *)
Lemma loadMany_nullish_element_throws (m : jsnum) (kf : jsval -> jsval) (id : nat)
    (ks1 : list jsval) (k : jsval) (ks2 : list jsval) (s : state) :
  Forall (fun k => is_nullish k = false) ks1 -> is_nullish k = true ->
  exists s1, load_all m kf ks1 s = Ret s1 (seq (next_promise s) (length ks1)) /\
    loadMany m kf (JArr id (ks1 ++ k :: ks2)) s = Throw s1 err_load_key.
Proof.
  intros Hf Hk. unfold loadMany. cbn [isArrayLike negb array_elems].
  revert s. induction ks1 as [| k1 ks1 IH]; intros s.
  - exists s. split; [reflexivity |]. simpl. unfold bindM, load. rewrite Hk. reflexivity.
  - inversion Hf as [| ? ? Hk1 Hks]; subst.
    destruct (load_nonnull_ret m kf k1 s Hk1) as (s0 & E0 & N0).
    destruct (IH Hks s0) as (s1 & E1 & E2).
    exists s1. simpl. unfold bindM at 1 3. rewrite E0.
    unfold bindM. rewrite E1, E2, N0. split; reflexivity.
Qed.

Lemma kp_of_kb (P : batch -> Prop) {A} (m : M A) : keeps_batches m -> keepsP P m.
Proof. intros H s Hs. unfold all_batches. rewrite (proj1 (H s)). exact Hs. Qed.

Lemma kp_bind (P : batch -> Prop) {A B} (m : M A) (k : A -> M B) :
  keepsP P m -> (forall a, keepsP P (k a)) -> keepsP P (bindM m k).
Proof.
  intros Hm Hk s Hs. specialize (Hm s Hs). unfold bindM.
  destruct (m s) as [s1 a | s1 e]; simpl in *; [apply Hk |]; exact Hm.
Qed.

Lemma kp_modify (P : batch -> Prop) (f : state -> state) :
  (forall s, batches (f s) = batches s) -> keepsP P (modifyS f).
Proof. intros H s Hs. unfold all_batches. simpl. rewrite H. exact Hs. Qed.

Lemma kp_modify_batch (P : batch -> Prop) (b : nat) (f : batch -> batch) :
  (forall bt, P bt -> P (f bt)) -> keepsP P (modify_batch b f).
Proof.
  intros Hf s Hs b' bt'. unfold modify_batch, modifyS. simpl.
  destruct (batches s !! b) as [bt |] eqn:E; [simpl | apply Hs].
  destruct (decide (b' = b)) as [-> | Hne].
  - rewrite lookup_insert_eq. intros [= <-]. exact (Hf bt (Hs b bt E)).
  - rewrite lookup_insert_ne by congruence. apply Hs.
Qed.

Lemma kp_dispatchBatch (P : batch -> Prop) (bl : list jsval -> bret) (kf : jsval -> jsval)
    (b : nat) :
  (forall bt, P bt -> P (mark_dispatched bt)) -> keepsP P (dispatchBatch bl kf b).
Proof.
  intros Hmd. unfold dispatchBatch.
  apply kp_bind; [apply kp_modify_batch; exact Hmd | intros _].
  apply kp_bind; [apply kp_of_kb, kb_get | intros s].
  destruct (Nat.eqb _ _); [apply kp_of_kb, kb_resolveCacheHits |].
  apply kp_bind; [apply kp_modify; reflexivity | intros _].
  destruct (bl _) as [o | v | e]; [apply kp_modify; reflexivity | | apply kp_of_kb, kb_throw].
  destruct (_ || _); [apply kp_of_kb, kb_failedDispatch | apply kp_of_kb, kb_ret].
Qed.

Lemma kp_step_job (P : batch -> Prop) (bl : list jsval -> bret) (kf : jsval -> jsval)
    (s s' : state) :
  (forall bt, P bt -> P (mark_dispatched bt)) ->
  all_batches P s -> step_job bl kf s = Some s' -> all_batches P s'.
Proof.
  intros Hmd Hs. unfold step_job. destruct (jobs s) as [| j js]; [discriminate |].
  assert (Hs1 : all_batches P (set_jobs js s)) by exact Hs.
  assert (Hr : all_batches P (exc_state (run_job bl kf j (set_jobs js s)))).
  { destruct j as [b | b o]; simpl.
    - apply kp_dispatchBatch; assumption.
    - apply kp_of_kb; [apply kb_settle_batch | exact Hs1]. }
  destruct (run_job bl kf j (set_jobs js s)) as [s1 a | s1 e]; intros [= <-]; exact Hr.
Qed.

(** [load] preserves a property of batches that holds of a new batch and
    is kept by recording a cache hit, or a key with its promise, in a batch
    [getCurrentBatch] returns (one it reuses, or a new one). *)
Lemma kp_load (P : batch -> Prop) (m : jsnum) (kf : jsval -> jsval) (k : jsval) :
  P new_batch ->
  (forall bt h, P bt -> hasDispatched bt = false -> reuse_batch m bt = true \/ bt = new_batch ->
     P (push_cache_hit h bt)) ->
  (forall bt p, P bt -> hasDispatched bt = false -> reuse_batch m bt = true \/ bt = new_batch ->
     P (mkBatch (hasDispatched bt) (keys bt ++ [k]) (callbacks bt ++ [p]) (cacheHits bt))) ->
  keepsP P (load m kf k).
Proof.
  intros Hnew Hhit Hmiss s Hs.
  destruct (is_nullish k) eqn:Hn; [unfold load; rewrite Hn; exact Hs |].
  assert (Hcur : exists s1 b bt, getCurrentBatch m s = Ret s1 b /\ batches s1 !! b = Some bt /\
            P bt /\ hasDispatched bt = false /\ (reuse_batch m bt = true \/ bt = new_batch) /\
            forall b' bt', b' <> b -> batches s1 !! b' = Some bt' -> P bt').
  { destruct (getCurrentBatch_cases m s) as [(b0 & bt & Ec & Eb & Er & Eg) | [_ Eg]].
    - exists s, b0, bt. repeat split; auto.
      + exact (Hs b0 bt Eb).
      + unfold reuse_batch in Er. destruct (hasDispatched bt); [discriminate | reflexivity].
      + intros b' bt' _. apply Hs.
    - rewrite Eg. unfold open_batch. eexists _, _, new_batch.
      split; [reflexivity |]. cbn [batches]. rewrite lookup_insert_eq.
      repeat split; auto. intros b' bt' Hne. rewrite lookup_insert_ne by congruence. apply Hs. }
  destruct Hcur as (s1 & b & bt & Eg & Eb & HP & Hd & Hr & Hrest).
  destruct (cache_lookup (cacheMap s1) (kf k)) as [c |] eqn:Hc.
  - rewrite (load_hit_step m kf k s s1 b bt c Hn Eg Eb Hc).
    intros b' bt'. cbn [exc_state batches].
    destruct (decide (b' = b)) as [-> | Hne].
    + rewrite lookup_insert_eq. intros [= <-]. apply Hhit; assumption.
    + rewrite lookup_insert_ne by congruence. apply Hrest. exact Hne.
  - rewrite (load_miss_step m kf k s s1 b bt Hn Eg Eb Hc).
    intros b' bt'. cbn [exc_state batches].
    destruct (decide (b' = b)) as [-> | Hne].
    + rewrite lookup_insert_eq. intros [= <-]. apply Hmiss; assumption.
    + rewrite lookup_insert_ne by congruence. apply Hrest. exact Hne.
Qed.

Lemma reachable_all (P : batch -> Prop) (bl : list jsval -> bret) (m : jsnum)
    (kf : jsval -> jsval) (caching : bool) (s : state) :
  (forall bt, P bt -> P (mark_dispatched bt)) ->
  (forall k, keepsP P (load m kf k)) ->
  reachable bl m kf caching s -> all_batches P s.
Proof.
  intros Hmd Hl Hr. induction Hr as [| s s' _ IH Hst].
  - intros b bt H. simpl in H. rewrite lookup_empty in H. discriminate.
  - assert (Hla : forall ks, keepsP P (load_all m kf ks)).
    { induction ks as [| k ks IHk]; simpl; [apply kp_of_kb, kb_ret |].
      apply kp_bind; [apply Hl | intros p]. apply kp_bind; [exact IHk | intros ps].
      apply kp_of_kb, kb_ret. }
    assert (Hlm : forall ks, keepsP P (loadMany m kf ks)).
    { intros ks. unfold loadMany. destruct (negb (isArrayLike ks));
        [apply kp_of_kb, kb_throw | apply Hla]. }
    destruct Hst as [k s s' p E | k s s' e E | ks s s' ps E | ks s s' e E
                    | k s s' E | s s' E | k v s s' E | s s' E].
    + pose proof (Hl k s IH) as H. rewrite E in H. exact H.
    + pose proof (Hl k s IH) as H. rewrite E in H. exact H.
    + pose proof (Hlm ks s IH) as H. rewrite E in H. exact H.
    + pose proof (Hlm ks s IH) as H. rewrite E in H. exact H.
    + pose proof (kp_of_kb P _ (kb_clear kf k) s IH) as H. rewrite E in H. exact H.
    + pose proof (kp_of_kb P _ kb_clearAll s IH) as H. rewrite E in H. exact H.
    + pose proof (kp_of_kb P _ (kb_prime kf k v) s IH) as H. rewrite E in H. exact H.
    + exact (kp_step_job P bl kf s s' Hmd IH E).
Qed.

(** X7: in every reachable state each batch has exactly one callback per
    key, so [failedDispatch] never reaches the missing-callback exception:
    it always returns normally, whatever the batch and the error. *)
Lemma callbacks_aligned_and_failure_path_total (bl : list jsval -> bret) (m : jsnum)
    (kf : jsval -> jsval) (caching : bool) (s : state) :
  reachable bl m kf caching s ->
  (forall b bt, batches s !! b = Some bt -> length (callbacks bt) = length (keys bt)) /\
  (forall b e, exists s', failedDispatch kf b e s = Ret s' tt).
Proof.
  intros Hr.
  assert (Ha : all_batches (fun bt => length (callbacks bt) = length (keys bt)) s).
  { apply (reachable_all _ bl m kf caching s); [intros bt H; exact H | | exact Hr].
    intros k. apply kp_load; [reflexivity | intros bt h H _ _; exact H |].
    intros bt p H _ _. simpl. rewrite !length_app. simpl. lia. }
  split; [exact Ha |]. intros b e.
  destruct (batches s !! b) as [bt |] eqn:Eb.
  - destruct (failedDispatch_spec kf b e s bt Eb (Ha b bt Eb)) as (s' & E & _). eauto.
  - cbv beta iota delta [failedDispatch resolveCacheHits bindM getS get_batch].
    rewrite Eb. cbn. rewrite Eb. cbn. eexists. reflexivity.
Qed.

Lemma single_request_batches (bl : list jsval -> bret) (m : jsnum) (kf : jsval -> jsval)
    (caching : bool) (s : state) :
  len_lt 1 m = false -> reachable bl m kf caching s ->
  forall b bt, batches s !! b = Some bt ->
    length (keys bt) + length (default [] (cacheHits bt)) <= 1.
Proof.
  intros Hm Hr.
  assert (Hreuse : forall bt, length (keys bt) + length (default [] (cacheHits bt)) <= 1 ->
            reuse_batch m bt = true \/ bt = new_batch ->
            length (keys bt) = 0 /\ length (default [] (cacheHits bt)) = 0).
  { intros bt HP [Hu | ->]; [| split; reflexivity].
    unfold reuse_batch in Hu. apply andb_true_iff in Hu as [Hu Hh].
    apply andb_true_iff in Hu as [_ Hk].
    destruct (length (keys bt)) as [| [|]] eqn:Ek; [| congruence | lia].
    split; [reflexivity |].
    destruct (cacheHits bt) as [hs |]; simpl in *; [| reflexivity].
    destruct (length hs) as [| [|]]; [reflexivity | congruence | lia]. }
  apply (reachable_all _ bl m kf caching s); [intros bt H; exact H | | exact Hr].
  intros k. apply kp_load; [simpl; lia | |].
  - intros bt h H _ Hu. destruct (Hreuse bt H Hu) as [H1 H2]. simpl.
    rewrite length_app. simpl. lia.
  - intros bt p H _ Hu. destruct (Hreuse bt H Hu) as [H1 H2]. simpl.
    rewrite length_app. simpl. lia.
Qed.

(** X8: with [batch: false] a successfully constructed loader has a
    maximum batch size of 1, and in every reachable state each batch holds
    at most one request (one key or one cache hit). *)
Lemma batch_false_one_request_per_batch :
  (forall (f : jsval) (o : options) (cfg : loader_config),
     o_batch o = JBool false -> construct f (Some o) = inr cfg -> c_maxBatchSize cfg = NFin 1) /\
  (forall (bl : list jsval -> bret) (kf : jsval -> jsval) (caching : bool) (s : state),
     reachable bl (NFin 1) kf caching s ->
     forall b bt, batches s !! b = Some bt ->
       length (keys bt) + length (default [] (cacheHits bt)) <= 1).
Proof.
  split.
  - intros f o cfg Hb. unfold construct.
    assert (Hm : getValidMaxBatchSize (Some o) = inr (NFin 1))
      by (unfold getValidMaxBatchSize; rewrite Hb; reflexivity).
    rewrite Hm.
    destruct (negb _); [discriminate |].
    destruct (getValidBatchScheduleFn _); [discriminate |].
    destruct (getValidCacheKeyFn _); [discriminate |].
    destruct (getValidCacheMap _); [discriminate |].
    intros [= <-]. reflexivity.
  - intros bl kf caching s Hr. apply (single_request_batches bl (NFin 1) kf caching s);
      [reflexivity | exact Hr].
Qed.

(** X9: a [maxBatchSize] of [NaN] passes validation (it is not below 1),
    and then every batch holds at most one request (one key or one cache
    hit), because no length compares below [NaN]. *)
Lemma nan_max_batch_size_one_request_per_batch :
  (forall (o : options),
     same_value_zero (o_batch o) (JBool false) = false -> o_maxBatchSize o = JNum NNaN ->
     getValidMaxBatchSize (Some o) = inr NNaN) /\
  (forall (bl : list jsval -> bret) (kf : jsval -> jsval) (caching : bool) (s : state),
     reachable bl NNaN kf caching s ->
     forall b bt, batches s !! b = Some bt ->
       length (keys bt) + length (default [] (cacheHits bt)) <= 1).
Proof.
  split.
  - intros o Hb Hm. unfold getValidMaxBatchSize. rewrite Hb. simpl. rewrite Hm. reflexivity.
  - intros bl kf caching s Hr. apply (single_request_batches bl NNaN kf caching s);
      [reflexivity | exact Hr].
Qed.

Lemma kn_bind {A B} (m : M A) (k : A -> M B) :
  keeps_nocache m -> (forall a, keeps_nocache (k a)) -> keeps_nocache (bindM m k).
Proof.
  intros Hm Hk s Hs. specialize (Hm s Hs). unfold bindM.
  destruct (m s) as [s1 a | s1 e]; simpl in *; [apply Hk |]; exact Hm.
Qed.

Lemma kn_modify (f : state -> state) :
  (forall s, cacheMap s = None -> cacheMap (f s) = None) -> keeps_nocache (modifyS f).
Proof. intros H s Hs. apply H. exact Hs. Qed.

Lemma kn_ret {A} (a : A) : keeps_nocache (retM a).
Proof. intros s Hs. exact Hs. Qed.

Lemma kn_throw {A} (e : jsval) : keeps_nocache (A := A) (throwM e).
Proof. intros s Hs. exact Hs. Qed.

Lemma kn_get : keeps_nocache getS.
Proof. intros s Hs. exact Hs. Qed.

Lemma kn_new_promise : keeps_nocache new_promise.
Proof. intros s Hs. exact Hs. Qed.

Lemma kn_settle (p : nat) (st : pstate) : keeps_nocache (settle_promise p st).
Proof. apply kn_modify. intros s Hs. destruct (promises s !! p) as [[] |]; exact Hs. Qed.

Lemma kn_modify_batch (b : nat) (f : batch -> batch) : keeps_nocache (modify_batch b f).
Proof. apply kn_modify. intros s Hs. destruct (batches s !! b); exact Hs. Qed.

Lemma kn_clear (kf : jsval -> jsval) (k : jsval) : keeps_nocache (clear kf k).
Proof. apply kn_modify. intros s Hs. rewrite Hs. exact Hs. Qed.

Lemma kn_clearAll : keeps_nocache clearAll.
Proof. apply kn_modify. intros s Hs. rewrite Hs. exact Hs. Qed.

Lemma kn_cache_set (k : jsval) (p : nat) : keeps_nocache (cache_set k p).
Proof. apply kn_modify. intros s Hs. rewrite Hs. exact Hs. Qed.

Lemma kn_getCurrentBatch (m : jsnum) : keeps_nocache (getCurrentBatch m).
Proof.
  intros s Hs. destruct (getCurrentBatch_ret m s) as (s1 & b & E).
  destruct (getCurrentBatch_result m s s1 b E) as (_ & _ & Hc & _). rewrite E. simpl.
  rewrite Hc. exact Hs.
Qed.

Create HintDb nocache.
#[local] Hint Resolve kn_ret kn_throw kn_get kn_new_promise kn_settle kn_modify_batch kn_clear
  kn_clearAll kn_cache_set kn_getCurrentBatch : nocache.

Ltac nocache_tac :=
  repeat match goal with
  | |- keeps_nocache (bindM _ _) => apply kn_bind; [| intros ?]
  | |- keeps_nocache (match ?x with _ => _ end) => destruct x
  | |- keeps_nocache (if ?x then _ else _) => destruct x
  | |- keeps_nocache (reject _ _) => apply kn_settle
  | |- keeps_nocache (resolve_value _ _) => apply kn_settle
  | |- keeps_nocache (resolve_with _ _) => apply kn_settle
  | |- keeps_nocache (modifyS _) => apply kn_modify; intros ? ?; assumption
  | |- keeps_nocache _ => solve [eauto with nocache]
  end.

Lemma kn_load (m : jsnum) (kf : jsval -> jsval) (k : jsval) : keeps_nocache (load m kf k).
Proof. unfold load. nocache_tac. Qed.

Lemma kn_loadMany (m : jsnum) (kf : jsval -> jsval) (ks : jsval) : keeps_nocache (loadMany m kf ks).
Proof.
  unfold loadMany. destruct (negb _); [apply kn_throw |].
  induction (array_elems ks) as [| k l IH]; simpl; nocache_tac; first [apply kn_load | exact IH].
Qed.

Lemma kn_prime (kf : jsval -> jsval) (k v : jsval) : keeps_nocache (prime kf k v).
Proof. unfold prime. nocache_tac. Qed.

Lemma kn_run_cache_hits (hs : list (nat * nat)) : keeps_nocache (run_cache_hits hs).
Proof. induction hs as [| [p c] hs IH]; simpl; nocache_tac. Qed.

Lemma kn_resolveCacheHits (b : nat) : keeps_nocache (resolveCacheHits b).
Proof. unfold resolveCacheHits. nocache_tac. apply kn_run_cache_hits. Qed.

Lemma kn_fail_keys (kf : jsval -> jsval) (i : nat) (ks : list jsval) (cbs : list nat)
    (e : jsval) : keeps_nocache (fail_keys kf i ks cbs e).
Proof. revert i. induction ks as [| k ks IH]; intros i; simpl; nocache_tac. Qed.

Lemma kn_failedDispatch (kf : jsval -> jsval) (b : nat) (e : jsval) :
  keeps_nocache (failedDispatch kf b e).
Proof. unfold failedDispatch. nocache_tac; first [apply kn_resolveCacheHits | apply kn_fail_keys]. Qed.

Lemma kn_resolve_values (i : nat) (cbs : list nat) (vs : list jsval) :
  keeps_nocache (resolve_values i cbs vs).
Proof. revert i. induction cbs as [| c cbs IH]; intros i; simpl; nocache_tac. Qed.

Lemma kn_settle_batch (kf : jsval -> jsval) (b : nat) (o : bout) :
  keeps_nocache (settle_batch kf b o).
Proof.
  intros s Hs. destruct o as [v | e]; [| apply kn_failedDispatch; exact Hs].
  unfold settle_batch.
  assert (Hv : keeps_nocache (on_values b v)).
  { unfold on_values. nocache_tac; first [apply kn_resolveCacheHits | apply kn_resolve_values]. }
  specialize (Hv s Hs).
  destruct (on_values b v s) as [s1 a | s1 e]; simpl in *; [exact Hv |].
  apply kn_failedDispatch. exact Hv.
Qed.

Lemma kn_dispatchBatch (bl : list jsval -> bret) (kf : jsval -> jsval) (b : nat) :
  keeps_nocache (dispatchBatch bl kf b).
Proof.
  unfold dispatchBatch. nocache_tac; solve [apply kn_resolveCacheHits | apply kn_failedDispatch].
Qed.

Lemma reachable_nocache (bl : list jsval -> bret) (m : jsnum) (kf : jsval -> jsval) (s : state) :
  reachable bl m kf false s -> cacheMap s = None.
Proof.
  intros Hr. induction Hr as [| s s' _ IH Hst]; [reflexivity |].
  destruct Hst as [k s s' p E | k s s' e E | ks s s' ps E | ks s s' e E
                  | k s s' E | s s' E | k v s s' E | s s' E].
  - pose proof (kn_load m kf k s IH) as H. rewrite E in H. exact H.
  - pose proof (kn_load m kf k s IH) as H. rewrite E in H. exact H.
  - pose proof (kn_loadMany m kf ks s IH) as H. rewrite E in H. exact H.
  - pose proof (kn_loadMany m kf ks s IH) as H. rewrite E in H. exact H.
  - pose proof (kn_clear kf k s IH) as H. rewrite E in H. exact H.
  - pose proof (kn_clearAll s IH) as H. rewrite E in H. exact H.
  - pose proof (kn_prime kf k v s IH) as H. rewrite E in H. exact H.
  - unfold step_job in E. destruct (jobs s) as [| j js]; [discriminate |].
    assert (Hj : cacheMap (exc_state (run_job bl kf j (set_jobs js s))) = None).
    { destruct j as [b | b o]; simpl; [apply kn_dispatchBatch | apply kn_settle_batch]; exact IH. }
    destruct (run_job bl kf j (set_jobs js s)) as [s1 a | s1 e]; injection E as <-; exact Hj.
Qed.

(** X10: with caching off the cache stays absent in every reachable state,
    [prime], [clear] and [clearAll] change nothing, and every [load] of a
    key appends the key and its promise at the end of the current
    undispatched batch, however often the key was loaded before. *)
Lemma caching_off_never_memoizes (bl : list jsval -> bret) (m : jsnum) (kf : jsval -> jsval)
    (s : state) :
  reachable bl m kf false s ->
  cacheMap s = None /\
  (forall k v, prime kf k v s = Ret s tt) /\ (forall k, clear kf k s = Ret s tt) /\
  clearAll s = Ret s tt /\
  (forall k s' p, load m kf k s = Ret s' p ->
     exists b bt, cur_batch s' = Some b /\ batches s' !! b = Some bt /\
       hasDispatched bt = false /\ last (keys bt) = Some k /\ last (callbacks bt) = Some p).
Proof.
  intros Hr. pose proof (reachable_nocache bl m kf s Hr) as Hc.
  split; [exact Hc |]. split; [| split; [| split]].
  - intros k v. unfold prime, bindM, getS. rewrite Hc. reflexivity.
  - intros k. unfold clear, modifyS. rewrite Hc. destruct s; reflexivity.
  - unfold clearAll, modifyS. rewrite Hc. destruct s; reflexivity.
  - intros k s' p Hl.
    destruct (is_nullish k) eqn:Hn; [unfold load in Hl; rewrite Hn in Hl; discriminate |].
    destruct (getCurrentBatch_ret m s) as (s1 & b & Eg).
    destruct (getCurrentBatch_result m s s1 b Eg)
      as (_ & _ & Hcm & _ & _ & Hcur & bt & Hb & Hd).
    assert (Hn1 : cache_lookup (cacheMap s1) (kf k) = None) by (rewrite Hcm, Hc; reflexivity).
    rewrite (load_miss_step m kf k s s1 b bt Hn Eg Hb Hn1) in Hl.
    injection Hl as <- <-. eexists b, _. cbn [cur_batch batches].
    split; [exact Hcur |]. split; [apply lookup_insert_eq |]. cbn [hasDispatched keys callbacks].
    split; [exact Hd |]. rewrite !last_snoc. split; reflexivity.
Qed.

Ltac simpl_ids := simpl promises in *; simpl next_promise in *; simpl batches in *;
  simpl next_batch in *.

Lemma settled_kept_refl (s : state) : settled_kept s s.
Proof. intros p st H _. exact H. Qed.

Lemma settled_kept_trans (s1 s2 s3 : state) :
  settled_kept s1 s2 -> settled_kept s2 s3 -> settled_kept s1 s3.
Proof. intros H12 H23 p st H Hn. apply H23; [apply H12 |]; assumption. Qed.

Lemma kfr_bind {A B} (m : M A) (k : A -> M B) :
  keeps_fresh m -> (forall a, keeps_fresh (k a)) -> keeps_fresh (bindM m k).
Proof.
  intros Hm Hk s Hs. destruct (Hm s Hs) as [Hf1 Hk1]. unfold bindM.
  destruct (m s) as [s1 a | s1 e]; simpl in *; [| split; assumption].
  destruct (Hk a s1 Hf1) as [Hf2 Hk2]. split; [exact Hf2 |].
  eapply settled_kept_trans; eassumption.
Qed.

Lemma kfr_modify (f : state -> state) :
  (forall s, next_batch (f s) = next_batch s /\ batches (f s) = batches s /\
     next_promise (f s) = next_promise s /\ promises (f s) = promises s) ->
  keeps_fresh (modifyS f).
Proof.
  intros H s [Hb Hp]. simpl. destruct (H s) as (E1 & E2 & E3 & E4).
  split; [split; intros x Hx; [rewrite E2; apply Hb | rewrite E4; apply Hp]; lia |].
  intros p st Hst _. rewrite E4. exact Hst.
Qed.

Lemma kfr_ret {A} (a : A) : keeps_fresh (retM a).
Proof. intros s Hs. split; [exact Hs | apply settled_kept_refl]. Qed.

Lemma kfr_throw {A} (e : jsval) : keeps_fresh (A := A) (throwM e).
Proof. intros s Hs. split; [exact Hs | apply settled_kept_refl]. Qed.

Lemma kfr_get : keeps_fresh getS.
Proof. intros s Hs. split; [exact Hs | apply settled_kept_refl]. Qed.

Lemma kfr_new_promise : keeps_fresh new_promise.
Proof.
  intros s [Hb Hp]. unfold new_promise. cbv zeta. cbn [exc_state promises batches next_promise next_batch]. split; [split |].
  - exact Hb.
  - intros p Hle. simpl promises in *. simpl next_promise in *. rewrite lookup_insert_ne by lia. apply Hp. lia.
  - intros p st Hst _. simpl promises. rewrite lookup_insert_ne; [exact Hst |].
    intros Heq. subst p. rewrite Hp in Hst by lia. discriminate.
Qed.

Lemma kfr_settle (p : nat) (st : pstate) : keeps_fresh (settle_promise p st).
Proof.
  intros s [Hb Hp]. unfold settle_promise, modifyS. simpl.
  destruct (promises s !! p) as [[] |] eqn:E; try (split; [split; assumption | apply settled_kept_refl]).
  simpl. split; [split; [exact Hb |] |].
  - intros p' Hle. simpl_ids. rewrite lookup_insert_ne; [apply Hp; exact Hle |].
    intros Heq. subst p'. rewrite Hp in E by exact Hle. discriminate.
  - intros p' st' Hst Hn. simpl_ids. rewrite lookup_insert_ne; [exact Hst |].
    intros Heq. subst p'. rewrite E in Hst. injection Hst as <-. contradiction.
Qed.

Lemma kfr_modify_batch (b : nat) (f : batch -> batch) : keeps_fresh (modify_batch b f).
Proof.
  intros s [Hb Hp]. unfold modify_batch, modifyS. simpl.
  destruct (batches s !! b) as [bt |] eqn:E; [| split; [split; assumption | apply settled_kept_refl]].
  simpl. split; [split; [| exact Hp] | intros ? ? H _; exact H].
  intros b' Hle. simpl_ids. rewrite lookup_insert_ne; [apply Hb; exact Hle |].
  intros Heq. subst b'. rewrite Hb in E by exact Hle. discriminate.
Qed.

Lemma kfr_getCurrentBatch (m : jsnum) : keeps_fresh (getCurrentBatch m).
Proof.
  intros s [Hb Hp]. destruct (getCurrentBatch_cases m s) as [(b0 & bt & _ & _ & _ & E) | [_ E]];
    rewrite E; [split; [split; assumption | apply settled_kept_refl] |].
  unfold open_batch. simpl. split; [split; [| exact Hp] | intros ? ? H _; exact H].
  intros b Hle. simpl_ids. rewrite lookup_insert_ne by lia. apply Hb. lia.
Qed.

Create HintDb fresh.
#[local] Hint Resolve kfr_ret kfr_throw kfr_get kfr_new_promise kfr_settle kfr_modify_batch
  kfr_getCurrentBatch : fresh.

Ltac fresh_tac :=
  repeat match goal with
  | |- keeps_fresh (bindM _ _) => apply kfr_bind; [| intros ?]
  | |- keeps_fresh (match ?x with _ => _ end) => destruct x
  | |- keeps_fresh (if ?x then _ else _) => destruct x
  | |- keeps_fresh (reject _ _) => apply kfr_settle
  | |- keeps_fresh (resolve_value _ _) => apply kfr_settle
  | |- keeps_fresh (resolve_with _ _) => apply kfr_settle
  | |- keeps_fresh (clear _ _) => apply kfr_modify; intros ?; destruct (cacheMap _); repeat split
  | |- keeps_fresh clearAll => apply kfr_modify; intros ?; destruct (cacheMap _); repeat split
  | |- keeps_fresh (cache_set _ _) => apply kfr_modify; intros ?; destruct (cacheMap _); repeat split
  | |- keeps_fresh (modifyS _) => apply kfr_modify; intros ?; repeat split
  | |- keeps_fresh _ => solve [eauto with fresh]
  end.

Lemma kfr_load (m : jsnum) (kf : jsval -> jsval) (k : jsval) : keeps_fresh (load m kf k).
Proof. unfold load. fresh_tac. Qed.

Lemma kfr_loadMany (m : jsnum) (kf : jsval -> jsval) (ks : jsval) : keeps_fresh (loadMany m kf ks).
Proof.
  unfold loadMany. destruct (negb _); [apply kfr_throw |].
  induction (array_elems ks) as [| k l IH]; simpl; fresh_tac; first [apply kfr_load | exact IH].
Qed.

Lemma kfr_prime (kf : jsval -> jsval) (k v : jsval) : keeps_fresh (prime kf k v).
Proof. unfold prime. fresh_tac. Qed.

Lemma kfr_run_cache_hits (hs : list (nat * nat)) : keeps_fresh (run_cache_hits hs).
Proof. induction hs as [| [p c] hs IH]; simpl; fresh_tac. Qed.

Lemma kfr_resolveCacheHits (b : nat) : keeps_fresh (resolveCacheHits b).
Proof. unfold resolveCacheHits. fresh_tac; apply kfr_run_cache_hits. Qed.

Lemma kfr_fail_keys (kf : jsval -> jsval) (i : nat) (ks : list jsval) (cbs : list nat)
    (e : jsval) : keeps_fresh (fail_keys kf i ks cbs e).
Proof. revert i. induction ks as [| k ks IH]; intros i; simpl; fresh_tac. Qed.

Lemma kfr_failedDispatch (kf : jsval -> jsval) (b : nat) (e : jsval) :
  keeps_fresh (failedDispatch kf b e).
Proof. unfold failedDispatch. fresh_tac; first [apply kfr_resolveCacheHits | apply kfr_fail_keys]. Qed.

Lemma kfr_resolve_values (i : nat) (cbs : list nat) (vs : list jsval) :
  keeps_fresh (resolve_values i cbs vs).
Proof. revert i. induction cbs as [| c cbs IH]; intros i; simpl; fresh_tac. Qed.

Lemma kfr_settle_batch (kf : jsval -> jsval) (b : nat) (o : bout) :
  keeps_fresh (settle_batch kf b o).
Proof.
  intros s Hs. destruct o as [v | e]; [| apply kfr_failedDispatch; exact Hs].
  unfold settle_batch.
  assert (Hv : keeps_fresh (on_values b v)).
  { unfold on_values. fresh_tac; first [apply kfr_resolveCacheHits | apply kfr_resolve_values]. }
  destruct (Hv s Hs) as [Hf1 Hk1].
  destruct (on_values b v s) as [s1 a | s1 e]; simpl in *; [split; assumption |].
  destruct (kfr_failedDispatch kf b e s1 Hf1) as [Hf2 Hk2]. split; [exact Hf2 |].
  eapply settled_kept_trans; eassumption.
Qed.

Lemma kfr_dispatchBatch (bl : list jsval -> bret) (kf : jsval -> jsval) (b : nat) :
  keeps_fresh (dispatchBatch bl kf b).
Proof.
  unfold dispatchBatch. fresh_tac; first [apply kfr_resolveCacheHits | apply kfr_failedDispatch].
Qed.

Lemma fresh_step (bl : list jsval -> bret) (m : jsnum) (kf : jsval -> jsval) (s s' : state) :
  ids_fresh s -> step bl m kf s s' -> ids_fresh s' /\ settled_kept s s'.
Proof.
  intros Hs Hst.
  destruct Hst as [k s s' p E | k s s' e E | ks s s' ps E | ks s s' e E
                  | k s s' E | s s' E | k v s s' E | s s' E].
  - pose proof (kfr_load m kf k s Hs) as H. rewrite E in H. exact H.
  - pose proof (kfr_load m kf k s Hs) as H. rewrite E in H. exact H.
  - pose proof (kfr_loadMany m kf ks s Hs) as H. rewrite E in H. exact H.
  - pose proof (kfr_loadMany m kf ks s Hs) as H. rewrite E in H. exact H.
  - assert (H : keeps_fresh (clear kf k)) by fresh_tac.
    specialize (H s Hs). rewrite E in H. exact H.
  - assert (H : keeps_fresh clearAll) by fresh_tac.
    specialize (H s Hs). rewrite E in H. exact H.
  - pose proof (kfr_prime kf k v s Hs) as H. rewrite E in H. exact H.
  - unfold step_job in E. destruct (jobs s) as [| j js] eqn:Ej; [discriminate |].
    assert (Hs1 : ids_fresh (set_jobs js s)) by exact Hs.
    assert (Hj : ids_fresh (exc_state (run_job bl kf j (set_jobs js s))) /\
                 settled_kept (set_jobs js s) (exc_state (run_job bl kf j (set_jobs js s)))).
    { destruct j as [b | b o]; simpl; [apply kfr_dispatchBatch | apply kfr_settle_batch]; exact Hs1. }
    destruct (run_job bl kf j (set_jobs js s)) as [s1 a | s1 e]; injection E as <-; exact Hj.
Qed.

Lemma reachable_fresh (bl : list jsval -> bret) (m : jsnum) (kf : jsval -> jsval)
    (caching : bool) (s : state) :
  reachable bl m kf caching s -> ids_fresh s.
Proof.
  intros Hr. induction Hr as [| s s' _ IH Hst].
  - split; intros x _; apply lookup_empty.
  - exact (proj1 (fresh_step bl m kf s s' IH Hst)).
Qed.

Lemma outcome_n_kept (n : nat) (s s' : state) (p : nat) (o : settlement) :
  settled_kept s s' -> outcome_n n (promises s) p = Some o -> outcome_n n (promises s') p = Some o.
Proof.
  intros Hk. revert p. induction n as [| n IH]; intros p; simpl;
    destruct (promises s !! p) as [[| v | e | c | v] |] eqn:E; try discriminate;
    rewrite (Hk p _ E) by discriminate; auto.
Qed.

Lemma public_effect_refl (s : state) : public_effect s s.
Proof. repeat split; auto. exists []. rewrite app_nil_r. auto. Qed.

Lemma public_effect_trans (s1 s2 s3 : state) :
  public_effect s1 s2 -> public_effect s2 s3 -> public_effect s1 s3.
Proof.
  intros (C1 & U1 & (js1 & J1 & F1) & N1 & P1 & B1) (C2 & U2 & (js2 & J2 & F2) & N2 & P2 & B2).
  split; [congruence |]. split; [congruence |].
  split; [exists (js1 ++ js2); split; [rewrite J2, J1, app_assoc; reflexivity |
                                      apply Forall_app; auto] |].
  split; [lia |]. split.
  - intros p Hp. rewrite P2 by lia. apply P1. exact Hp.
  - intros b bt Hb Hd. apply B2; [apply B1 |]; assumption.
Qed.

Lemma load_public (m : jsnum) (kf : jsval -> jsval) (k : jsval) (s : state) :
  ids_fresh s -> public_effect s (exc_state (load m kf k s)).
Proof.
  intros [Hfb Hfp].
  destruct (is_nullish k) eqn:Hn; [unfold load; rewrite Hn; apply public_effect_refl |].
  assert (Hcur : exists s1 b bt js, getCurrentBatch m s = Ret s1 b /\ batches s1 !! b = Some bt /\
            promises s1 = promises s /\
            next_promise s1 = next_promise s /\ calls s1 = calls s /\ uncaught s1 = uncaught s /\
            jobs s1 = jobs s ++ js /\ Forall (fun j => exists b, j = JDispatch b) js /\
            (forall b' bt', batches s !! b' = Some bt' -> hasDispatched bt' = true ->
               b' <> b /\ batches s1 !! b' = Some bt')).
  { destruct (getCurrentBatch_cases m s) as [(b0 & bt & Ec & Eb & Er & Eg) | [_ Eg]].
    - exists s, b0, bt, []. rewrite app_nil_r. repeat split; auto.
      + intros Heq. subst b'. rewrite Eb in H. injection H as <-.
        unfold reuse_batch in Er. rewrite H0 in Er. discriminate.
    - rewrite Eg. unfold open_batch. eexists _, _, new_batch, [JDispatch (next_batch s)].
      split; [reflexivity |]. simpl_ids. rewrite lookup_insert_eq.
      repeat split; auto.
      + repeat constructor. eauto.
      + intros Heq. subst b'. rewrite Hfb in H by lia. discriminate.
      + rewrite lookup_insert_ne; [exact H |].
        intros Heq. rewrite <- Heq, Hfb in H by lia. discriminate. }
  destruct Hcur as (s1 & b & bt & js & Eg & Eb & P1 & N1 & C1 & U1 & J1 & F1 & B1).
  assert (Hfin : forall nb, public_effect s
            (mkState (<[next_promise s1 := Pending]> (promises s1)) (S (next_promise s1))
               (<[b := nb]> (batches s1)) (next_batch s1) (cur_batch s1)
               (option_map (fun mp => map_set mp (kf k) (next_promise s1)) (cacheMap s1))
               (jobs s1) (calls s1) (uncaught s1)) /\
          public_effect s
            (mkState (<[next_promise s1 := Pending]> (promises s1)) (S (next_promise s1))
               (<[b := nb]> (batches s1)) (next_batch s1) (cur_batch s1) (cacheMap s1)
               (jobs s1) (calls s1) (uncaught s1))).
  { intros nb. split; (split; [exact C1 |]; split; [exact U1 |];
      split; [exists js; split; assumption |]; split; [simpl; lia |]; split;
      [intros p Hp; simpl; rewrite lookup_insert_ne by lia; rewrite P1; reflexivity |];
      intros b' bt' Hb' Hd; destruct (B1 b' bt' Hb' Hd) as [Hne Hb1]; simpl;
      rewrite lookup_insert_ne by congruence; exact Hb1). }
  destruct (cache_lookup (cacheMap s1) (kf k)) as [c |] eqn:Hc.
  - rewrite (load_hit_step m kf k s s1 b bt c Hn Eg Eb Hc). apply Hfin.
  - rewrite (load_miss_step m kf k s s1 b bt Hn Eg Eb Hc). apply Hfin.
Qed.

Lemma kfr_clear (kf : jsval -> jsval) (k : jsval) : keeps_fresh (clear kf k).
Proof. fresh_tac. Qed.

Lemma kfr_clearAll : keeps_fresh clearAll.
Proof. fresh_tac. Qed.

(** X12: in a reachable state, [load], [loadMany], [clear], [clearAll] and
    [prime] (returning or throwing) never call the batch function, never
    run or drop a queued job (they can only queue dispatches), never change
    a promise that already existed, and never change a dispatched batch. *)
Lemma public_calls_never_call_backend (bl : list jsval -> bret) (m : jsnum)
    (kf : jsval -> jsval) (caching : bool) (s : state) :
  reachable bl m kf caching s ->
  (forall k, public_effect s (exc_state (load m kf k s))) /\
  (forall ks, public_effect s (exc_state (loadMany m kf ks s))) /\
  (forall k, public_effect s (exc_state (clear kf k s))) /\
  public_effect s (exc_state (clearAll s)) /\
  (forall k v, public_effect s (exc_state (prime kf k v s))).
Proof.
  intros Hr. pose proof (reachable_fresh bl m kf caching s Hr) as Hf.
  split; [intros k; exact (load_public m kf k s Hf) |].
  split; [| split; [| split]].
  - intros ks. unfold loadMany. destruct (negb _); [apply public_effect_refl |].
    clear Hr. revert s Hf. induction (array_elems ks) as [| k l IH]; intros s Hf;
      [apply public_effect_refl |].
    simpl. unfold bindM.
    pose proof (load_public m kf k s Hf) as H1. pose proof (proj1 (kfr_load m kf k s Hf)) as Hf1.
    destruct (load m kf k s) as [s1 p | s1 e]; simpl in *; [| exact H1].
    eapply public_effect_trans; [exact H1 |].
    pose proof (IH s1 Hf1) as H2.
    destruct (load_all m kf l s1) as [s2 ps | s2 e]; exact H2.
  - intros k. unfold clear, modifyS. destruct (cacheMap s); [| apply public_effect_refl].
    repeat split; auto. exists []. rewrite app_nil_r. auto.
  - unfold clearAll, modifyS. destruct (cacheMap s); [| apply public_effect_refl].
    repeat split; auto. exists []. rewrite app_nil_r. auto.
  - intros k v. destruct (cacheMap s) as [cm |] eqn:Ec.
    + destruct (map_get cm (kf k)) as [c |] eqn:Eg.
      * rewrite (prime_cached_noop kf k v s cm Ec) by congruence. apply public_effect_refl.
      * rewrite (prime_miss_step kf k v s cm Ec Eg). simpl.
        split; [reflexivity |]. split; [reflexivity |].
        split; [exists []; rewrite app_nil_r; split; [reflexivity | constructor] |]. split; [simpl; lia |].
        split; [intros p Hp; simpl_ids; rewrite lookup_insert_ne by lia; reflexivity | intros ? ? H _; exact H].
    + unfold prime, bindM, getS. rewrite Ec. apply public_effect_refl.
Qed.

Lemma dispatch_ids_app (js1 js2 : list job) :
  dispatch_ids (js1 ++ js2) = dispatch_ids js1 ++ dispatch_ids js2.
Proof. induction js1 as [| [] js1 IH]; simpl; rewrite ?IH; reflexivity. Qed.

Lemma kd_of_kb {A} (m : M A) : keeps_batches m -> keeps_dok m.
Proof.
  intros H s Hs. destruct (H s) as (E1 & _ & E3). unfold dispatch_ok. rewrite E1, E3. exact Hs.
Qed.

Lemma kd_bind {A B} (m : M A) (k : A -> M B) :
  keeps_dok m -> (forall a, keeps_dok (k a)) -> keeps_dok (bindM m k).
Proof.
  intros Hm Hk s Hs. specialize (Hm s Hs). unfold bindM.
  destruct (m s) as [s1 a | s1 e]; simpl in *; [apply Hk |]; exact Hm.
Qed.

Lemma kd_modify (f : state -> state) :
  (forall s, batches (f s) = batches s /\ dispatch_ids (jobs (f s)) = dispatch_ids (jobs s)) ->
  keeps_dok (modifyS f).
Proof.
  intros H s Hs. simpl. destruct (H s) as [E1 E2]. unfold dispatch_ok. rewrite E1, E2. exact Hs.
Qed.

Lemma dok_load (m : jsnum) (kf : jsval -> jsval) (k : jsval) (s : state) :
  ids_fresh s -> dispatch_ok s -> dispatch_ok (exc_state (load m kf k s)).
Proof.
  intros [Hfb _] [Hnd Hin].
  destruct (is_nullish k) eqn:Hn; [unfold load; rewrite Hn; split; assumption |].
  assert (Hcur : exists s1 b bt, getCurrentBatch m s = Ret s1 b /\ batches s1 !! b = Some bt /\
            dispatch_ok s1).
  { destruct (getCurrentBatch_cases m s) as [(b0 & bt & Ec & Eb & Er & Eg) | [_ Eg]].
    - exists s, b0, bt. repeat split; auto.
    - rewrite Eg. unfold open_batch. eexists _, _, new_batch.
      split; [reflexivity |]. simpl_ids. rewrite lookup_insert_eq. split; [reflexivity |].
      unfold dispatch_ok. cbn [jobs batches]. rewrite dispatch_ids_app. simpl.
      assert (Hlt : forall b, In b (dispatch_ids (jobs s)) -> b < next_batch s).
      { intros b Hb. destruct (Hin b Hb) as (bt & Eb & _).
        destruct (Nat.lt_ge_cases b (next_batch s)) as [H | H]; [exact H |].
        rewrite Hfb in Eb by exact H. discriminate. }
      split.
      + apply NoDup_app. split; [exact Hnd |]. split; [| apply NoDup_singleton].
        intros x Hx Hx2. apply list_elem_of_In in Hx. apply list_elem_of_singleton in Hx2.
        subst x. specialize (Hlt _ Hx). lia.
      + intros b Hb. apply in_app_or in Hb as [Hb | [<- | []]].
        * rewrite lookup_insert_ne by (specialize (Hlt _ Hb); lia). apply Hin. exact Hb.
        * rewrite lookup_insert_eq. eauto. }
  destruct Hcur as (s1 & b & bt & Eg & Eb & [Hnd1 Hin1]).
  assert (Hfin : forall nb, hasDispatched nb = hasDispatched bt ->
            dispatch_ok (set_batches (<[b := nb]> (batches s1)) s1)).
  { intros nb Hd. split; [exact Hnd1 |]. intros b' Hb'. simpl.
    destruct (decide (b' = b)) as [-> | Hne].
    - rewrite lookup_insert_eq. destruct (Hin1 b Hb') as (bt' & Eb' & Hd').
      rewrite Eb in Eb'. injection Eb' as <-. exists nb. split; [reflexivity | congruence].
    - rewrite lookup_insert_ne by congruence. apply Hin1. exact Hb'. }
  destruct (cache_lookup (cacheMap s1) (kf k)) as [c |] eqn:Hc.
  - rewrite (load_hit_step m kf k s s1 b bt c Hn Eg Eb Hc).
    exact (Hfin (push_cache_hit (next_promise s1, c) bt) eq_refl).
  - rewrite (load_miss_step m kf k s s1 b bt Hn Eg Eb Hc).
    exact (Hfin (mkBatch (hasDispatched bt) (keys bt ++ [k]) (callbacks bt ++ [next_promise s1])
                   (cacheHits bt)) eq_refl).
Qed.

Lemma dok_dispatch_job (bl : list jsval -> bret) (kf : jsval -> jsval) (b : nat)
    (js : list job) (s : state) :
  dispatch_ok s -> jobs s = JDispatch b :: js ->
  dispatch_ok (exc_state (dispatchBatch bl kf b (set_jobs js s))).
Proof.
  intros [Hnd Hin] Ej. rewrite Ej in Hnd, Hin. simpl in Hnd. inversion Hnd as [| ? ? Hnb Hnd']; subst.
  destruct (Hin b (or_introl eq_refl)) as (bt & Eb & _).
  set (s1 := set_batches (<[b := mark_dispatched bt]> (batches s)) (set_jobs js s)).
  assert (H1 : dispatch_ok s1).
  { split; [exact Hnd' |]. intros b' Hb'. unfold s1. simpl.
    rewrite lookup_insert_ne; [apply Hin; right; exact Hb' |].
    intros Heq. subst b'. apply Hnb. apply list_elem_of_In. exact Hb'. }
  assert (Hm : modify_batch b mark_dispatched (set_jobs js s) = Ret s1 tt)
    by (unfold modify_batch, modifyS; simpl; rewrite Eb; reflexivity).
  unfold dispatchBatch. unfold bindM at 1. rewrite Hm. revert H1. generalize s1. clear.
  intros s1.
  assert (Ht : keeps_dok (s <-- getS ;;
    let bt := get_batch s b in
    if Nat.eqb (length (keys bt)) 0 then resolveCacheHits b else
    modifyS (fun s => set_calls (calls s ++ [keys bt]) s) ;;;
    match bl (keys bt) with
    | BThrow e => throwM e
    | BOther v =>
        if is_falsy v || negb (has_method v "then")
        then failedDispatch kf b err_no_promise
        else retM tt
    | BPromise o => modifyS (fun s => set_jobs (jobs s ++ [JSettle b o]) s)
    end)).
  { apply kd_bind; [apply kd_of_kb, kb_get | intros s]. cbv zeta.
    destruct (Nat.eqb _ _); [apply kd_of_kb, kb_resolveCacheHits |].
    apply kd_bind; [apply kd_modify; intros s'; split; reflexivity | intros _].
    destruct (bl _) as [o | v | e].
    - apply kd_modify. intros s'. simpl. rewrite dispatch_ids_app, app_nil_r. split; reflexivity.
    - destruct (_ || _); [apply kd_of_kb, kb_failedDispatch | apply kd_of_kb, kb_ret].
    - apply kd_of_kb, kb_throw. }
  exact (Ht s1).
Qed.

Lemma dok_step (bl : list jsval -> bret) (m : jsnum) (kf : jsval -> jsval) (s s' : state) :
  ids_fresh s -> dispatch_ok s -> step bl m kf s s' -> dispatch_ok s'.
Proof.
  intros Hf Hd Hst.
  assert (Hla : forall ks s, ids_fresh s -> dispatch_ok s ->
            dispatch_ok (exc_state (load_all m kf ks s))).
  { induction ks as [| k ks IH]; intros s0 Hf0 Hd0; simpl; [exact Hd0 |].
    unfold bindM. pose proof (dok_load m kf k s0 Hf0 Hd0) as H1.
    pose proof (proj1 (kfr_load m kf k s0 Hf0)) as Hf1.
    destruct (load m kf k s0) as [s1 p | s1 e]; simpl in *; [| exact H1].
    pose proof (IH s1 Hf1 H1) as H2. destruct (load_all m kf ks s1); exact H2. }
  destruct Hst as [k s s' p E | k s s' e E | ks s s' ps E | ks s s' e E
                  | k s s' E | s s' E | k v s s' E | s s' E].
  - pose proof (dok_load m kf k s Hf Hd) as H. rewrite E in H. exact H.
  - pose proof (dok_load m kf k s Hf Hd) as H. rewrite E in H. exact H.
  - unfold loadMany in E. destruct (negb _); [discriminate |].
    pose proof (Hla (array_elems ks) s Hf Hd) as H. rewrite E in H. exact H.
  - unfold loadMany in E. destruct (negb _); [injection E as <- _; exact Hd |].
    pose proof (Hla (array_elems ks) s Hf Hd) as H. rewrite E in H. exact H.
  - pose proof (kd_of_kb _ (kb_clear kf k) s Hd) as H. rewrite E in H. exact H.
  - pose proof (kd_of_kb _ kb_clearAll s Hd) as H. rewrite E in H. exact H.
  - pose proof (kd_of_kb _ (kb_prime kf k v) s Hd) as H. rewrite E in H. exact H.
  - unfold step_job in E. destruct (jobs s) as [| j js] eqn:Ej; [discriminate |].
    assert (Hj : dispatch_ok (exc_state (run_job bl kf j (set_jobs js s)))).
    { destruct j as [b | b o]; simpl.
      - exact (dok_dispatch_job bl kf b js s Hd Ej).
      - apply kd_of_kb; [apply kb_settle_batch |].
        destruct Hd as [Hnd Hin]. rewrite Ej in Hnd, Hin. split; assumption. }
    destruct (run_job bl kf j (set_jobs js s)) as [s1 a | s1 e]; injection E as <-; exact Hj.
Qed.

(** X13: in a reachable state the queued dispatch jobs name pairwise
    distinct batches; the dispatch job run next names a stored batch that is
    not dispatched yet and has no other dispatch job queued, so each batch
    goes to the batch function at most once. *)
Lemma each_batch_dispatched_once (bl : list jsval -> bret) (m : jsnum) (kf : jsval -> jsval)
    (caching : bool) (s : state) :
  reachable bl m kf caching s ->
  NoDup (dispatch_ids (jobs s)) /\
  forall b js, jobs s = JDispatch b :: js ->
    ~ In b (dispatch_ids js) /\
    exists bt, batches s !! b = Some bt /\ hasDispatched bt = false.
Proof.
  intros Hr.
  assert (Hd : dispatch_ok s).
  { induction Hr as [| s s' Hr IH Hst]; [split; [constructor | intros b []] |].
    exact (dok_step bl m kf s s' (reachable_fresh bl m kf caching s Hr) IH Hst). }
  destruct Hd as [Hnd Hin]. split; [exact Hnd |]. intros b js Ej.
  rewrite Ej in Hnd, Hin. simpl in Hnd. inversion Hnd as [| ? ? Hnb _]; subst.
  split; [intros H; apply Hnb, list_elem_of_In; exact H |]. apply Hin. left. reflexivity.
Qed.

Lemma run_cache_hits_follow (hs : list (nat * nat)) (s : state) :
  NoDup (map fst hs) -> (forall p c, In (p, c) hs -> promises s !! p = Some Pending) ->
  exists s', run_cache_hits hs s = Ret s' tt /\
    batches s' = batches s /\ calls s' = calls s /\ jobs s' = jobs s /\
    forall p c, In (p, c) hs -> promises s' !! p = Some (Follows c).
Proof.
  revert s. induction hs as [| [p c] hs IH]; intros s Hnd Hpend.
  - exists s. repeat split; auto. intros ? ? [].
  - simpl in Hnd. inversion Hnd as [| ? ? Hnp Hnd']; subst.
    assert (Hp : promises s !! p = Some Pending) by (apply (Hpend p c); left; reflexivity).
    set (s1 := set_promises (<[p := Follows c]> (promises s)) s).
    assert (E1 : resolve_with p c s = Ret s1 tt)
      by (unfold resolve_with; rewrite settle_promise_spec, Hp; reflexivity).
    assert (Hq : forall q c', In (q, c') hs -> q <> p).
    { intros q c' Hin ->. apply Hnp. apply list_elem_of_In. apply (in_map fst) in Hin. exact Hin. }
    destruct (IH s1 Hnd') as (s' & E & Hb & Hcl & Hj & Hf).
    { intros q c' Hin. unfold s1. simpl. rewrite lookup_insert_ne by (symmetry; eapply Hq; eauto).
      apply (Hpend q c'). right. exact Hin. }
    exists s'. simpl. unfold bindM. rewrite E1, E.
    split; [reflexivity |]. split; [exact Hb |]. split; [exact Hcl |]. split; [exact Hj |].
    intros q c' [[= <- <-] | Hin]; [| apply Hf; exact Hin].
    destruct (run_cache_hits_spec hs s1) as (s'' & E' & _ & _ & _ & Hkeep).
    rewrite E in E'. injection E' as <-. rewrite Hkeep.
    + unfold s1. simpl. apply lookup_insert_eq.
    + intros Hin. apply Hnp. apply list_elem_of_In. exact Hin.
Qed.

Lemma run_cache_hits_uncaught (hs : list (nat * nat)) (s s' : state) :
  run_cache_hits hs s = Ret s' tt -> uncaught s' = uncaught s.
Proof.
  revert s. induction hs as [| [p c] hs IH]; intros s E; simpl in E.
  - injection E as <-. reflexivity.
  - unfold bindM, resolve_with in E. rewrite settle_promise_spec in E.
    apply IH in E. rewrite E. destruct (promises s !! p) as [[] |]; reflexivity.
Qed.

(** X14: dispatching a batch that holds no key (only cache hits) does not
    call the batch function and queues no job: it marks the batch
    dispatched and resolves every pending cache-hit promise with its cached
    promise. *)
Lemma cache_hit_only_batch_skips_backend (bl : list jsval -> bret) (kf : jsval -> jsval)
    (b : nat) (s : state) (bt : batch) :
  batches s !! b = Some bt -> keys bt = [] ->
  NoDup (map fst (default [] (cacheHits bt))) ->
  (forall p c, In (p, c) (default [] (cacheHits bt)) -> promises s !! p = Some Pending) ->
  exists s', dispatchBatch bl kf b s = Ret s' tt /\
    calls s' = calls s /\ jobs s' = jobs s /\ uncaught s' = uncaught s /\
    batches s' !! b = Some (mark_dispatched bt) /\
    forall p c, In (p, c) (default [] (cacheHits bt)) -> promises s' !! p = Some (Follows c).
Proof.
  intros Eb Hk Hnd Hpend.
  set (s1 := set_batches (<[b := mark_dispatched bt]> (batches s)) s).
  assert (Hm : modify_batch b mark_dispatched s = Ret s1 tt)
    by (unfold modify_batch, modifyS; rewrite Eb; reflexivity).
  assert (Hg : get_batch s1 b = mark_dispatched bt)
    by (unfold get_batch, s1; simpl; rewrite lookup_insert_eq; reflexivity).
  destruct (run_cache_hits_follow (default [] (cacheHits bt)) s1 Hnd Hpend)
    as (s' & E & Hb & Hcl & Hj & Hf).
  pose proof (run_cache_hits_uncaught _ s1 s' E) as Hu.
  exists s'. split.
  - unfold dispatchBatch. unfold bindM at 1. rewrite Hm. unfold bindM, getS.
    rewrite Hg. cbn [keys mark_dispatched]. rewrite Hk. simpl.
    unfold resolveCacheHits, bindM, getS. rewrite Hg. cbn [cacheHits mark_dispatched].
    destruct (cacheHits bt) as [hs |]; simpl in E; [exact E | injection E as <-; reflexivity].
  - split; [exact Hcl |]. split; [exact Hj |]. split; [exact Hu |].
    split; [rewrite Hb; apply lookup_insert_eq | exact Hf].
Qed.

Lemma map_get_svz (cm : list (jsval * nat)) (x y : jsval) :
  same_value_zero x y = true -> map_get cm x = map_get cm y.
Proof.
  intros Hxy. induction cm as [| [k' v'] cm IH]; [reflexivity |]. simpl.
  destruct (same_value_zero k' x) eqn:Ex, (same_value_zero k' y) eqn:Ey; auto.
  - rewrite (svz_trans _ _ _ Ex Hxy) in Ey. discriminate.
  - rewrite svz_sym in Hxy. rewrite (svz_trans _ _ _ Ey Hxy) in Ex. discriminate.
Qed.

(** X15: cache keys are compared with SameValueZero: after [load(k1)]
    with caching on, a [load(k2)] whose cache key is SameValueZero-equal to
    that of [k1] (e.g. both [NaN]) is a cache hit on the entry for [k1] and
    records only a cache hit in the current batch; no key is appended and
    no other batch changes. *)
Lemma svz_equal_cache_keys_share_entry (m : jsnum) (kf : jsval -> jsval) (k1 k2 : jsval)
    (s s1 : state) (cm : list (jsval * nat)) (p1 : nat) :
  cacheMap s = Some cm -> load m kf k1 s = Ret s1 p1 -> is_nullish k2 = false ->
  same_value_zero (kf k1) (kf k2) = true ->
  exists s2 c b bt0, load m kf k2 s1 = Ret s2 (next_promise s1) /\
    cache_lookup (cacheMap s1) (kf k2) = Some c /\
    (c = p1 \/ map_get cm (kf k1) = Some c) /\
    cacheMap s2 = cacheMap s1 /\ calls s2 = calls s1 /\ cur_batch s2 = Some b /\
    (batches s1 !! b = Some bt0 \/ bt0 = new_batch) /\
    batches s2 !! b = Some (push_cache_hit (next_promise s1, c) bt0) /\
    (forall b', b' <> b -> batches s2 !! b' = batches s1 !! b').
Proof.
  intros Hc Hl1 Hn2 Hsvz.
  destruct (is_nullish k1) eqn:Hn1; [unfold load in Hl1; rewrite Hn1 in Hl1; discriminate |].
  assert (Hc1 : exists c, cache_lookup (cacheMap s1) (kf k2) = Some c /\
                  (c = p1 \/ map_get cm (kf k1) = Some c)).
  { destruct (getCurrentBatch_ret m s) as (s0 & b0 & Eg0).
    destruct (getCurrentBatch_result m s s0 b0 Eg0) as (_ & _ & Hcm0 & _ & _ & _ & bt & Hb0 & _).
    destruct (cache_lookup (cacheMap s0) (kf k1)) as [c |] eqn:Hl.
    - rewrite (load_hit_step m kf k1 s s0 b0 bt c Hn1 Eg0 Hb0 Hl) in Hl1.
      injection Hl1 as <- _. cbn [cacheMap]. rewrite Hcm0, Hc in *. simpl in *.
      exists c. rewrite <- (map_get_svz cm _ _ Hsvz). auto.
    - rewrite (load_miss_step m kf k1 s s0 b0 bt Hn1 Eg0 Hb0 Hl) in Hl1.
      injection Hl1 as <- <-. cbn [cacheMap]. rewrite Hcm0, Hc. simpl.
      exists (next_promise s0). rewrite <- (map_get_svz _ _ _ Hsvz), map_get_set_eq. auto. }
  destruct Hc1 as (c & Hlc & Hcp).
  assert (Hcur : exists s1' b bt0, getCurrentBatch m s1 = Ret s1' b /\ batches s1' !! b = Some bt0 /\
            (batches s1 !! b = Some bt0 \/ bt0 = new_batch) /\
            (forall b', b' <> b -> batches s1' !! b' = batches s1 !! b')).
  { destruct (getCurrentBatch_cases m s1) as [(b0 & bt & Ec & Eb & Er & Eg) | [_ Eg]].
    - exists s1, b0, bt. repeat split; auto.
    - rewrite Eg. unfold open_batch. eexists _, _, new_batch.
      split; [reflexivity |]. simpl_ids. rewrite lookup_insert_eq.
      split; [reflexivity |]. split; [right; reflexivity |].
      intros b' Hne. rewrite lookup_insert_ne by congruence. reflexivity. }
  destruct Hcur as (s1' & b & bt0 & Eg & Eb & Hor & Hrest).
  destruct (getCurrentBatch_result m s1 s1' b Eg) as (_ & Hnp & Hcm & Hcl & _ & Hcb & _).
  assert (Hlc' : cache_lookup (cacheMap s1') (kf k2) = Some c) by (rewrite Hcm; exact Hlc).
  rewrite (load_hit_step m kf k2 s1 s1' b bt0 c Hn2 Eg Eb Hlc'), Hnp.
  eexists _, c, b, bt0. split; [reflexivity |]. split; [exact Hlc |]. split; [exact Hcp |].
  cbn [cacheMap calls cur_batch batches].
  split; [exact Hcm |]. split; [exact Hcl |]. split; [exact Hcb |]. split; [exact Hor |].
  split; [apply lookup_insert_eq |].
  intros b' Hne. rewrite lookup_insert_ne by congruence. apply Hrest. exact Hne.
Qed.

Lemma reachable_loaded (bl : list jsval -> bret) (m : jsnum) (caching : bool) :
  reachable bl m id caching (loaded_state m caching).
Proof.
  eapply reach_step; [apply reach_init |]. unfold loaded_state.
  destruct (load m id (JNum (NFin 1)) (init_state caching)) eqn:E;
    [eapply step_load | eapply step_load_throw]; exact E.
Qed.

Lemma step_dispatched :
  step echo_backend NInf id (loaded_state NInf true) dispatched_state.
Proof. apply step_host. vm_compute. reflexivity. Qed.

Lemma clear_then_prime_overrides_witness :
  cacheMap (init_state true) = Some [] /\
  exists s1 s2 p, clear id (JNum (NFin 1)) (init_state true) = Ret s1 tt /\
    prime id (JNum (NFin 1)) (JStr "v") s1 = Ret s2 tt /\
    cache_lookup (cacheMap s2) (id (JNum (NFin 1))) = Some p /\
    promises s2 !! p = Some (primed_state (JStr "v")) /\
    outcome s2 p = primed_outcome (JStr "v") /\
    batches s2 = batches (init_state true) /\ jobs s2 = jobs (init_state true) /\
    calls s2 = calls (init_state true).
Proof.
  split; [reflexivity |].
  apply (clear_then_prime_overrides id (JNum (NFin 1)) (JStr "v") (init_state true) []).
  reflexivity.
Defined.

Lemma loadMany_one_promise_per_key_witness :
  Forall (fun k => is_nullish k = false) [JNum (NFin 1); JNum (NFin 1)] /\
  exists s', loadMany NInf id (JArr 0 [JNum (NFin 1); JNum (NFin 1)]) (init_state true)
             = Ret s' (seq (next_promise (init_state true)) 2) /\
    next_promise s' = next_promise (init_state true) + 2 /\
    ([JNum (NFin 1); JNum (NFin 1)] = [] -> s' = init_state true).
Proof.
  assert (H : Forall (fun k => is_nullish k = false) [JNum (NFin 1); JNum (NFin 1)])
    by (repeat constructor).
  split; [exact H |].
  exact (loadMany_one_promise_per_key NInf id 0 [JNum (NFin 1); JNum (NFin 1)] (init_state true) H).
Defined.

Lemma loadMany_nullish_element_throws_witness :
  (Forall (fun k => is_nullish k = false) [JNum (NFin 1)] /\ is_nullish JNull = true) /\
  exists s1, load_all NInf id [JNum (NFin 1)] (init_state true)
             = Ret s1 (seq (next_promise (init_state true)) 1) /\
    loadMany NInf id (JArr 0 ([JNum (NFin 1)] ++ JNull :: [JNum (NFin 2)])) (init_state true)
    = Throw s1 err_load_key.
Proof.
  assert (H1 : Forall (fun k => is_nullish k = false) [JNum (NFin 1)]) by (repeat constructor).
  assert (H2 : is_nullish JNull = true) by reflexivity.
  split; [split; assumption |].
  exact (loadMany_nullish_element_throws NInf id 0 [JNum (NFin 1)] JNull [JNum (NFin 2)]
           (init_state true) H1 H2).
Defined.

Lemma callbacks_aligned_and_failure_path_total_witness :
  reachable echo_backend NInf id true (loaded_state NInf true) /\
  (forall b bt, batches (loaded_state NInf true) !! b = Some bt ->
     length (callbacks bt) = length (keys bt)) /\
  (forall b e, exists s', failedDispatch id b e (loaded_state NInf true) = Ret s' tt).
Proof.
  pose proof (reachable_loaded echo_backend NInf true) as H.
  split; [exact H | exact (callbacks_aligned_and_failure_path_total _ _ _ _ _ H)].
Defined.

Lemma batch_false_one_request_per_batch_witness :
  (o_batch (mkOptions (JBool false) (JNum (NFin 5)) JUndefined JUndefined JUndefined JUndefined)
     = JBool false /\
   construct (JFun 0) (Some (mkOptions (JBool false) (JNum (NFin 5)) JUndefined JUndefined
                               JUndefined JUndefined))
     = inr (mkConfig (JFun 0) DefaultSchedule (NFin 1) IdentityKey NewMap) /\
   c_maxBatchSize (mkConfig (JFun 0) DefaultSchedule (NFin 1) IdentityKey NewMap) = NFin 1) /\
  (reachable echo_backend (NFin 1) id true (loaded_state (NFin 1) true) /\
   forall b bt, batches (loaded_state (NFin 1) true) !! b = Some bt ->
     length (keys bt) + length (default [] (cacheHits bt)) <= 1).
Proof.
  assert (H1 : o_batch (mkOptions (JBool false) (JNum (NFin 5)) JUndefined JUndefined
                          JUndefined JUndefined) = JBool false) by reflexivity.
  assert (H2 : construct (JFun 0) (Some (mkOptions (JBool false) (JNum (NFin 5)) JUndefined
                 JUndefined JUndefined JUndefined))
               = inr (mkConfig (JFun 0) DefaultSchedule (NFin 1) IdentityKey NewMap))
    by reflexivity.
  pose proof (reachable_loaded echo_backend (NFin 1) true) as H3.
  split; [split; [exact H1 | split; [exact H2 |]] | split; [exact H3 |]].
  - exact (proj1 batch_false_one_request_per_batch _ _ _ H1 H2).
  - exact (proj2 batch_false_one_request_per_batch _ _ _ _ H3).
Defined.

Lemma nan_max_batch_size_one_request_per_batch_witness :
  (same_value_zero (o_batch (mkOptions JUndefined (JNum NNaN) JUndefined JUndefined JUndefined
                                JUndefined)) (JBool false) = false /\
   o_maxBatchSize (mkOptions JUndefined (JNum NNaN) JUndefined JUndefined JUndefined JUndefined)
     = JNum NNaN /\
   getValidMaxBatchSize (Some (mkOptions JUndefined (JNum NNaN) JUndefined JUndefined JUndefined
                                 JUndefined)) = inr NNaN) /\
  (reachable echo_backend NNaN id true (loaded_state NNaN true) /\
   forall b bt, batches (loaded_state NNaN true) !! b = Some bt ->
     length (keys bt) + length (default [] (cacheHits bt)) <= 1).
Proof.
  pose proof (reachable_loaded echo_backend NNaN true) as H3.
  split; [split; [reflexivity | split; [reflexivity |]] | split; [exact H3 |]].
  - apply (proj1 nan_max_batch_size_one_request_per_batch); reflexivity.
  - exact (proj2 nan_max_batch_size_one_request_per_batch _ _ _ _ H3).
Defined.

Lemma caching_off_never_memoizes_witness :
  reachable echo_backend NInf id false (loaded_state NInf false) /\
  cacheMap (loaded_state NInf false) = None /\
  (forall k v, prime id k v (loaded_state NInf false) = Ret (loaded_state NInf false) tt) /\
  (forall k, clear id k (loaded_state NInf false) = Ret (loaded_state NInf false) tt) /\
  clearAll (loaded_state NInf false) = Ret (loaded_state NInf false) tt /\
  (forall k s' p, load NInf id k (loaded_state NInf false) = Ret s' p ->
     exists b bt, cur_batch s' = Some b /\ batches s' !! b = Some bt /\
       hasDispatched bt = false /\ last (keys bt) = Some k /\ last (callbacks bt) = Some p).
Proof.
  pose proof (reachable_loaded echo_backend NInf false) as H.
  split; [exact H | exact (caching_off_never_memoizes _ _ _ _ H)].
Defined.

Lemma public_calls_never_call_backend_witness :
  reachable echo_backend NInf id true (loaded_state NInf true) /\
  (forall k, public_effect (loaded_state NInf true)
               (exc_state (load NInf id k (loaded_state NInf true)))) /\
  (forall ks, public_effect (loaded_state NInf true)
                (exc_state (loadMany NInf id ks (loaded_state NInf true)))) /\
  (forall k, public_effect (loaded_state NInf true)
               (exc_state (clear id k (loaded_state NInf true)))) /\
  public_effect (loaded_state NInf true) (exc_state (clearAll (loaded_state NInf true))) /\
  (forall k v, public_effect (loaded_state NInf true)
                 (exc_state (prime id k v (loaded_state NInf true)))).
Proof.
  pose proof (reachable_loaded echo_backend NInf true) as H.
  split; [exact H | exact (public_calls_never_call_backend _ _ _ _ _ H)].
Defined.

Lemma each_batch_dispatched_once_witness :
  reachable echo_backend NInf id true (loaded_state NInf true) /\
  NoDup (dispatch_ids (jobs (loaded_state NInf true))) /\
  forall b js, jobs (loaded_state NInf true) = JDispatch b :: js ->
    ~ In b (dispatch_ids js) /\
    exists bt, batches (loaded_state NInf true) !! b = Some bt /\ hasDispatched bt = false.
Proof.
  pose proof (reachable_loaded echo_backend NInf true) as H.
  split; [exact H | exact (each_batch_dispatched_once _ _ _ _ _ H)].
Defined.

Lemma cache_hit_only_batch_skips_backend_witness :
  let s := mkState (<[0 := Pending]> (<[1 := Fulfilled (JStr "v")]> ∅)) 2
             (<[0 := mkBatch false [] [] (Some [(0, 1)])]> ∅) 1 (Some 0) (Some [(JNum (NFin 1), 1)])
             [JDispatch 0] [] [] in
  (batches s !! 0 = Some (mkBatch false [] [] (Some [(0, 1)])) /\
   keys (mkBatch false [] [] (Some [(0, 1)])) = [] /\
   NoDup (map fst (default [] (cacheHits (mkBatch false [] [] (Some [(0, 1)]))))) /\
   (forall p c, In (p, c) (default [] (cacheHits (mkBatch false [] [] (Some [(0, 1)])))) ->
      promises s !! p = Some Pending)) /\
  exists s', dispatchBatch echo_backend id 0 s = Ret s' tt /\
    calls s' = calls s /\ jobs s' = jobs s /\ uncaught s' = uncaught s /\
    batches s' !! 0 = Some (mark_dispatched (mkBatch false [] [] (Some [(0, 1)]))) /\
    forall p c, In (p, c) (default [] (cacheHits (mkBatch false [] [] (Some [(0, 1)])))) ->
      promises s' !! p = Some (Follows c).
Proof.
  intros s.
  assert (H1 : batches s !! 0 = Some (mkBatch false [] [] (Some [(0, 1)]))) by reflexivity.
  assert (H2 : keys (mkBatch false [] [] (Some [(0, 1)])) = []) by reflexivity.
  assert (H3 : NoDup (map fst (default [] (cacheHits (mkBatch false [] [] (Some [(0, 1)]))))))
    by (simpl; apply NoDup_singleton).
  assert (H4 : forall p c, In (p, c) (default [] (cacheHits (mkBatch false [] [] (Some [(0, 1)])))) ->
             promises s !! p = Some Pending)
    by (intros p c [[= <- <-] | []]; reflexivity).
  split; [split; [exact H1 | split; [exact H2 | split; [exact H3 | exact H4]]] |].
  exact (cache_hit_only_batch_skips_backend echo_backend id 0 s _ H1 H2 H3 H4).
Defined.

Lemma svz_equal_cache_keys_share_entry_witness :
  let s1 := exc_state (load NInf id (JNum NNaN) (init_state true)) in
  (cacheMap (init_state true) = Some [] /\
   load NInf id (JNum NNaN) (init_state true) = Ret s1 0 /\
   is_nullish (JNum NNaN) = false /\
   same_value_zero (id (JNum NNaN)) (id (JNum NNaN)) = true) /\
  exists s2 c b bt0, load NInf id (JNum NNaN) s1 = Ret s2 (next_promise s1) /\
    cache_lookup (cacheMap s1) (id (JNum NNaN)) = Some c /\
    (c = 0 \/ map_get [] (id (JNum NNaN)) = Some c) /\
    cacheMap s2 = cacheMap s1 /\ calls s2 = calls s1 /\ cur_batch s2 = Some b /\
    (batches s1 !! b = Some bt0 \/ bt0 = new_batch) /\
    batches s2 !! b = Some (push_cache_hit (next_promise s1, c) bt0) /\
    (forall b', b' <> b -> batches s2 !! b' = batches s1 !! b').
Proof.
  intros s1.
  assert (H1 : cacheMap (init_state true) = Some []) by reflexivity.
  assert (H2 : load NInf id (JNum NNaN) (init_state true) = Ret s1 0)
    by (subst s1; vm_compute; reflexivity).
  assert (H3 : is_nullish (JNum NNaN) = false) by reflexivity.
  assert (H4 : same_value_zero (id (JNum NNaN)) (id (JNum NNaN)) = true) by reflexivity.
  split; [repeat split; assumption |].
  exact (svz_equal_cache_keys_share_entry NInf id (JNum NNaN) (JNum NNaN) (init_state true) s1 []
           0 H1 H2 H3 H4).
Defined.

(* ------------------------------------------------------------------ *)
(** ** Cache hits in reachable states *)

Lemma ho_trans_refl (s : state) : hits_ok s -> ho_trans s s.
Proof. intros H. split; [exact H | auto]. Qed.

Lemma ho_trans_trans (s1 s2 s3 : state) : ho_trans s1 s2 -> ho_trans s2 s3 -> ho_trans s1 s3.
Proof. intros [_ H12] [H3 H23]. split; [exact H3 | auto]. Qed.

Lemma ho_bind_step {A B} (m : M A) (k : A -> M B) (s : state) :
  ho_trans s (exc_state (m s)) ->
  (forall s1 a, m s = Ret s1 a -> ho_trans s1 (exc_state (k a s1))) ->
  ho_trans s (exc_state (bindM m k s)).
Proof.
  intros H1 H2. unfold bindM. destruct (m s) as [s1 a | s1 e] eqn:E; simpl in *; [| exact H1].
  eapply ho_trans_trans; [exact H1 | exact (H2 s1 a eq_refl)].
Qed.

Lemma is_hit_ext (s s' : state) (p : nat) : batches s' = batches s -> is_hit s' p <-> is_hit s p.
Proof. intros E. unfold is_hit, hit_in. rewrite E. reflexivity. Qed.

Lemma hit_alloc (s : state) (b p c : nat) : hits_ok s -> hit_in s b p c -> promises s !! p <> None.
Proof. intros Ho H. destruct (ho_hit s Ho b p c H) as [[E | E] _]; rewrite E; discriminate. Qed.

Lemma ho_init (caching : bool) : hits_ok (init_state caching).
Proof.
  assert (Hn : forall b p c, ~ hit_in (init_state caching) b p c).
  { intros b p c (bt & H & _). simpl in H. rewrite lookup_empty in H. discriminate. }
  split.
  - split; intros; apply lookup_empty.
  - intros b p c b' c' H. destruct (Hn _ _ _ H).
  - intros b p c H. destruct (Hn _ _ _ H).
  - intros b bt p c H. simpl in H. rewrite lookup_empty in H. discriminate.
  - intros p c H. simpl in H. rewrite lookup_empty in H. discriminate.
  - intros c (cm & k & H & Hin). destruct caching; simpl in H; [| discriminate].
    injection H as <-. destruct Hin.
  - intros b bt q H. simpl in H. rewrite lookup_empty in H. discriminate.
  - intros b o [].
Qed.

(** Changes that leave promises and batches alone. *)
Lemma ho_frame (s s' : state) :
  hits_ok s -> next_promise s' = next_promise s -> next_batch s' = next_batch s ->
  promises s' = promises s -> batches s' = batches s ->
  (forall c, cached s' c -> plain s c) ->
  (forall b o, In (JSettle b o) (jobs s') ->
     exists bt, batches s !! b = Some bt /\ hasDispatched bt = true) ->
  ho_trans s s'.
Proof.
  intros Ho Enp Enb Ep Eb Hc' Hj'.
  assert (Ehit : forall b p c, hit_in s' b p c <-> hit_in s b p c)
    by (intros; unfold hit_in; rewrite Eb; reflexivity).
  assert (Epl : forall c, plain s' c <-> plain s c)
    by (intros; unfold plain; rewrite Ep, (is_hit_ext s s' c Eb); reflexivity).
  split; [split |].
  - destruct (ho_fresh s Ho) as [Hb Hp].
    split; intros x Hx; [rewrite Eb; apply Hb | rewrite Ep; apply Hp]; congruence.
  - intros b p c b' c' H1 H2. apply Ehit in H1, H2. exact (ho_uniq s Ho _ _ _ _ _ H1 H2).
  - intros b p c H. rewrite Ep, Epl. apply Ehit in H. exact (ho_hit s Ho _ _ _ H).
  - intros b bt p c Hb. rewrite Eb in Hb. rewrite Ep. exact (ho_waiting s Ho b bt p c Hb).
  - intros p c H. rewrite Ep in H. destruct (ho_follows s Ho p c H) as [b Hb].
    exists b. apply Ehit. exact Hb.
  - intros c H. apply Epl. exact (Hc' c H).
  - intros b bt q Hb Hq. rewrite Eb in Hb. apply Epl. exact (ho_callbacks s Ho b bt q Hb Hq).
  - intros b o H. rewrite Eb. exact (Hj' b o H).
  - intros b p c H. apply Ehit. exact H.
Qed.

(** A change of the cache alone, to entries that are plain promises. *)
Lemma ho_set_cache (s : state) (cm' : option (list (jsval * nat))) :
  hits_ok s -> (forall c k cm, cm' = Some cm -> In (k, c) cm -> plain s c) ->
  ho_trans s (set_cacheMap cm' s).
Proof.
  intros Ho H. apply ho_frame; try reflexivity; [exact Ho | |].
  - intros c (cm & k & E & Hin). exact (H c k cm E Hin).
  - intros b o Hin. exact (ho_settle_jobs s Ho b o Hin).
Qed.

Lemma settle_promise_ret (p : nat) (st : pstate) (s : state) :
  settle_promise p st s = Ret (exc_state (settle_promise p st s)) tt.
Proof. reflexivity. Qed.

Lemma ho_settle (p : nat) (st : pstate) (s : state) :
  hits_ok s ->
  (promises s !! p = Some Pending ->
     (~ is_hit s p /\ forall c, st <> Follows c) \/
     (exists b bt c, batches s !! b = Some bt /\ hasDispatched bt = true /\
        In (p, c) (hits bt) /\ st = Follows c)) ->
  ho_trans s (exc_state (settle_promise p st s)).
Proof.
  intros Ho Hpre. unfold settle_promise, modifyS. cbn [exc_state].
  destruct (promises s !! p) as [[| | | |] |] eqn:E; try (apply ho_trans_refl; exact Ho).
  specialize (Hpre eq_refl).
  set (s' := set_promises (<[p:=st]> (promises s)) s).
  assert (Ehit : forall b q c, hit_in s' b q c <-> hit_in s b q c) by reflexivity.
  assert (Hal : forall c, promises s' !! c <> None <-> promises s !! c <> None).
  { intros c. unfold s', set_promises. cbn [promises].
    destruct (decide (c = p)) as [-> | Hne].
    - rewrite lookup_insert_eq, E. split; discriminate.
    - rewrite lookup_insert_ne by congruence. reflexivity. }
  assert (Epl : forall c, plain s' c <-> plain s c)
    by (intros c; unfold plain; rewrite Hal; reflexivity).
  split; [split |].
  - destruct (ho_fresh s Ho) as [Hb Hp]. split; [exact Hb |].
    intros q Hq. unfold s', set_promises in *. cbn [promises next_promise] in *.
    rewrite lookup_insert_ne; [apply Hp; exact Hq |].
    intros ->. rewrite Hp in E by exact Hq. discriminate.
  - intros b q c b' c' H1 H2. exact (ho_uniq s Ho _ _ _ _ _ H1 H2).
  - intros b q c H. destruct (ho_hit s Ho b q c H) as [Hst Hpl].
    split; [| apply Epl; exact Hpl].
    unfold s', set_promises. cbn [promises].
    destruct (decide (q = p)) as [-> | Hne].
    + rewrite lookup_insert_eq. right.
      destruct Hpre as [[Hnh _] | (b0 & bt0 & c0 & Hb0 & _ & Hin0 & ->)].
      * exfalso. apply Hnh. exists b, c. exact H.
      * destruct (ho_uniq s Ho b p c b0 c0 H (ex_intro _ bt0 (conj Hb0 Hin0))) as [_ ->].
        reflexivity.
    + rewrite lookup_insert_ne by congruence. exact Hst.
  - intros b bt q c Hb Hd Hin. unfold s', set_promises in *. cbn [promises batches] in *.
    destruct (decide (q = p)) as [-> | Hne].
    + exfalso. destruct Hpre as [[Hnh _] | (b0 & bt0 & c0 & Hb0 & Hd0 & Hin0 & _)].
      * apply Hnh. exists b, c, bt. split; assumption.
      * destruct (ho_uniq s Ho b p c b0 c0 (ex_intro _ bt (conj Hb Hin))
                    (ex_intro _ bt0 (conj Hb0 Hin0))) as [-> _].
        rewrite Hb in Hb0. injection Hb0 as ->. congruence.
    + rewrite lookup_insert_ne by congruence. exact (ho_waiting s Ho b bt q c Hb Hd Hin).
  - intros q c H. unfold s', set_promises in H. cbn [promises] in H.
    destruct (decide (q = p)) as [-> | Hne].
    + rewrite lookup_insert_eq in H. injection H as ->.
      destruct Hpre as [[_ Hnf] | (b0 & bt0 & c0 & Hb0 & _ & Hin0 & E0)].
      * exfalso. exact (Hnf c eq_refl).
      * injection E0 as <-. exists b0, bt0. split; assumption.
    + rewrite lookup_insert_ne in H by congruence. exact (ho_follows s Ho q c H).
  - intros c H. apply Epl. exact (ho_cached s Ho c H).
  - intros b bt q Hb Hq. apply Epl. exact (ho_callbacks s Ho b bt q Hb Hq).
  - exact (ho_settle_jobs s Ho).
  - intros b q c H. exact H.
Qed.

Lemma batch_below (s : state) (b : nat) (bt : batch) :
  ids_fresh s -> batches s !! b = Some bt -> b < next_batch s.
Proof.
  intros [Hb _] E. destruct (Nat.lt_ge_cases b (next_batch s)) as [H | H]; [exact H |].
  rewrite Hb in E by exact H. discriminate.
Qed.

Lemma promise_below (s : state) (p : nat) :
  ids_fresh s -> promises s !! p <> None -> p < next_promise s.
Proof.
  intros [_ Hp] E. destruct (Nat.lt_ge_cases p (next_promise s)) as [H | H]; [exact H |].
  rewrite Hp in E by exact H. congruence.
Qed.

(** Replacing a stored batch by one with the same cache hits, more plain
    callbacks, and dispatched if the old one was. *)
Lemma ho_set_batch (s : state) (b : nat) (bt bt' : batch) (cs : list nat) :
  hits_ok s -> batches s !! b = Some bt ->
  hits bt' = hits bt -> callbacks bt' = callbacks bt ++ cs ->
  (forall q, In q cs -> plain s q) ->
  (hasDispatched bt = true -> hasDispatched bt' = true) ->
  ho_trans s (set_batches (<[b := bt']> (batches s)) s).
Proof.
  intros Ho Hb Eh Ec Hcs Hd.
  set (s' := set_batches (<[b := bt']> (batches s)) s).
  assert (Ehit : forall b0 q c, hit_in s' b0 q c <-> hit_in s b0 q c).
  { intros b0 q c. unfold hit_in, s', set_batches. cbn [batches].
    destruct (decide (b0 = b)) as [-> | Hne].
    - rewrite lookup_insert_eq, Hb. split; intros (x & Ex & Hin); injection Ex as <-.
      + exists bt. rewrite <- Eh. split; [reflexivity | exact Hin].
      + exists bt'. rewrite Eh. split; [reflexivity | exact Hin].
    - rewrite lookup_insert_ne by congruence. reflexivity. }
  assert (Eis : forall q, is_hit s' q <-> is_hit s q)
    by (intros q; unfold is_hit; setoid_rewrite Ehit; reflexivity).
  assert (Epl : forall c, plain s' c <-> plain s c)
    by (intros c; unfold plain; rewrite Eis; reflexivity).
  pose proof (batch_below s b bt (ho_fresh s Ho) Hb) as Hlt.
  split; [split |].
  - destruct (ho_fresh s Ho) as [Hfb Hfp]. split; [| exact Hfp].
    intros b0 H0. unfold s', set_batches in *. cbn [batches next_batch] in *.
    rewrite lookup_insert_ne by lia. apply Hfb. exact H0.
  - intros b0 q c b1 c1 H1 H2. apply Ehit in H1, H2. exact (ho_uniq s Ho _ _ _ _ _ H1 H2).
  - intros b0 q c H. apply Ehit in H. rewrite Epl. exact (ho_hit s Ho _ _ _ H).
  - intros b0 bt0 q c Hb0 Hd0 Hin. unfold s', set_batches in Hb0. cbn [batches] in Hb0.
    destruct (decide (b0 = b)) as [-> | Hne].
    + rewrite lookup_insert_eq in Hb0. injection Hb0 as <-.
      apply (ho_waiting s Ho b bt q c Hb).
      * destruct (hasDispatched bt); [rewrite Hd in Hd0 by reflexivity; discriminate | reflexivity].
      * rewrite <- Eh. exact Hin.
    + rewrite lookup_insert_ne in Hb0 by congruence. exact (ho_waiting s Ho b0 bt0 q c Hb0 Hd0 Hin).
  - intros q c H. destruct (ho_follows s Ho q c H) as [b0 H0]. exists b0. apply Ehit. exact H0.
  - intros c H. apply Epl. exact (ho_cached s Ho c H).
  - intros b0 bt0 q Hb0 Hq. apply Epl. unfold s', set_batches in Hb0. cbn [batches] in Hb0.
    destruct (decide (b0 = b)) as [-> | Hne].
    + rewrite lookup_insert_eq in Hb0. injection Hb0 as <-. rewrite Ec in Hq.
      apply in_app_or in Hq as [Hq | Hq]; [exact (ho_callbacks s Ho b bt q Hb Hq) | exact (Hcs q Hq)].
    + rewrite lookup_insert_ne in Hb0 by congruence. exact (ho_callbacks s Ho b0 bt0 q Hb0 Hq).
  - intros b0 o H. destruct (ho_settle_jobs s Ho b0 o H) as (bt0 & Hb0 & Hd0).
    unfold s', set_batches. cbn [batches].
    destruct (decide (b0 = b)) as [-> | Hne].
    + rewrite lookup_insert_eq. rewrite Hb in Hb0. injection Hb0 as <-.
      exists bt'. split; [reflexivity | exact (Hd Hd0)].
    + rewrite lookup_insert_ne by congruence. exists bt0. split; assumption.
  - intros b0 q c H. apply Ehit. exact H.
Qed.

Lemma ho_modify_batch (b : nat) (f : batch -> batch) (s : state) :
  hits_ok s ->
  (forall bt, batches s !! b = Some bt ->
     hits (f bt) = hits bt /\ callbacks (f bt) = callbacks bt /\
     (hasDispatched bt = true -> hasDispatched (f bt) = true)) ->
  ho_trans s (exc_state (modify_batch b f s)).
Proof.
  intros Ho H. unfold modify_batch, modifyS. cbn [exc_state].
  destruct (batches s !! b) as [bt |] eqn:Eb; [| apply ho_trans_refl; exact Ho].
  destruct (H bt eq_refl) as (E1 & E2 & E3).
  apply (ho_set_batch s b bt (f bt) []); auto.
  - rewrite E2, app_nil_r. reflexivity.
  - intros q [].
Qed.

(** Queuing a new cache hit [(p, c)] for a pending promise [p] that
    nothing refers to yet. *)
Lemma ho_push_hit (s : state) (b : nat) (bt : batch) (p c : nat) :
  hits_ok s -> batches s !! b = Some bt -> promises s !! p = Some Pending ->
  ~ is_hit s p -> (forall b' q, ~ hit_in s b' q p) -> ~ cached s p ->
  (forall b' bt', batches s !! b' = Some bt' -> ~ In p (callbacks bt')) ->
  plain s c -> c <> p ->
  ho_trans s (set_batches (<[b := push_cache_hit (p, c) bt]> (batches s)) s).
Proof.
  intros Ho Hb Hp Hnh Hnt Hnc Hncb Hc Hcp.
  set (s' := set_batches (<[b := push_cache_hit (p, c) bt]> (batches s)) s).
  assert (Ehit : forall b0 q c0, hit_in s' b0 q c0 <-> hit_in s b0 q c0 \/ (b0 = b /\ q = p /\ c0 = c)).
  { intros b0 q c0. unfold hit_in, s', set_batches. cbn [batches].
    destruct (decide (b0 = b)) as [-> | Hne].
    - rewrite lookup_insert_eq, Hb. unfold hits. cbn [cacheHits default]. split.
      + intros (x & Ex & Hin). injection Ex as <-. cbn [default] in Hin.
        apply in_app_or in Hin as [Hin | [Heq | []]]; [left; exists bt; auto |].
        injection Heq as -> ->. right. auto.
      + intros [(x & Ex & Hin) | (_ & -> & ->)]; eexists; split; try reflexivity;
          apply in_or_app; [injection Ex as <-; left; exact Hin | right; left; reflexivity].
    - rewrite lookup_insert_ne by congruence.
      split; [intros H; left; exact H | intros [H | (E & _)]; [exact H | congruence]]. }
  assert (Eis : forall q, is_hit s' q <-> is_hit s q \/ q = p).
  { intros q. unfold is_hit. split.
    - intros (b0 & c0 & H). apply Ehit in H as [H | (_ & -> & _)]; [left; eauto | right; reflexivity].
    - intros [(b0 & c0 & H) | ->]; [exists b0, c0; apply Ehit; left; exact H |].
      exists b, c. apply Ehit. right. auto. }
  assert (Epl : forall x, plain s x -> x <> p -> plain s' x).
  { intros x [Ha Hn] Hx. split; [exact Ha |]. rewrite Eis. intros [H | H]; contradiction. }
  pose proof (batch_below s b bt (ho_fresh s Ho) Hb) as Hlt.
  split; [split |].
  - destruct (ho_fresh s Ho) as [Hfb Hfp]. split; [| exact Hfp].
    intros b0 H0. unfold s', set_batches in *. cbn [batches next_batch] in *.
    rewrite lookup_insert_ne by lia. apply Hfb. exact H0.
  - intros b0 q c0 b1 c1 H1 H2. apply Ehit in H1, H2.
    destruct H1 as [H1 | (-> & -> & ->)], H2 as [H2 | (-> & Eq & ->)].
    + exact (ho_uniq s Ho _ _ _ _ _ H1 H2).
    + subst q. exfalso. apply Hnh. exists b0, c0. exact H1.
    + exfalso. apply Hnh. exists b1, c1. exact H2.
    + auto.
  - intros b0 q c0 H. apply Ehit in H as [H | (-> & -> & ->)].
    + destruct (ho_hit s Ho _ _ _ H) as [Hst Hpl]. split; [exact Hst |].
      apply Epl; [exact Hpl |]. intros ->. exact (Hnt _ _ H).
    + split; [left; exact Hp | apply Epl; assumption].
  - intros b0 bt0 q c0 Hb0 Hd0 Hin. unfold s', set_batches in Hb0. cbn [batches] in Hb0.
    destruct (decide (b0 = b)) as [-> | Hne].
    + rewrite lookup_insert_eq in Hb0. injection Hb0 as <-.
      unfold hits in Hin. cbn [cacheHits default hasDispatched] in Hin, Hd0.
      apply in_app_or in Hin as [Hin | [Heq | []]].
      * exact (ho_waiting s Ho b bt q c0 Hb Hd0 Hin).
      * injection Heq as -> ->. exact Hp.
    + rewrite lookup_insert_ne in Hb0 by congruence. exact (ho_waiting s Ho b0 bt0 q c0 Hb0 Hd0 Hin).
  - intros q c0 H. destruct (ho_follows s Ho q c0 H) as [b0 H0]. exists b0. apply Ehit. left. exact H0.
  - intros x H. apply Epl; [exact (ho_cached s Ho x H) |]. intros ->. exact (Hnc H).
  - intros b0 bt0 q Hb0 Hq. unfold s', set_batches in Hb0. cbn [batches] in Hb0.
    destruct (decide (b0 = b)) as [-> | Hne].
    + rewrite lookup_insert_eq in Hb0. injection Hb0 as <-. cbn [callbacks] in Hq.
      apply Epl; [exact (ho_callbacks s Ho b bt q Hb Hq) |]. intros ->. exact (Hncb b bt Hb Hq).
    + rewrite lookup_insert_ne in Hb0 by congruence.
      apply Epl; [exact (ho_callbacks s Ho b0 bt0 q Hb0 Hq) |]. intros ->. exact (Hncb b0 bt0 Hb0 Hq).
  - intros b0 o H. destruct (ho_settle_jobs s Ho b0 o H) as (bt0 & Hb0 & Hd0).
    unfold s', set_batches. cbn [batches].
    destruct (decide (b0 = b)) as [-> | Hne].
    + rewrite lookup_insert_eq. rewrite Hb in Hb0. injection Hb0 as <-.
      eexists. split; [reflexivity | exact Hd0].
    + rewrite lookup_insert_ne by congruence. exists bt0. split; assumption.
  - intros b0 q c0 H. apply Ehit. left. exact H.
Qed.

(** Storing a new promise, in a state that is not [Follows]. *)
Lemma ho_alloc (s : state) (st : pstate) :
  hits_ok s -> (forall c, st <> Follows c) ->
  ho_trans s (mkState (<[next_promise s := st]> (promises s)) (S (next_promise s)) (batches s)
                (next_batch s) (cur_batch s) (cacheMap s) (jobs s) (calls s) (uncaught s)).
Proof.
  intros Ho Hst.
  set (s' := mkState _ _ _ _ _ _ _ _ _).
  pose proof (ho_fresh s Ho) as Hf. destruct Hf as [Hfb Hfp].
  assert (Hnp : promises s !! next_promise s = None) by (apply Hfp; lia).
  assert (Hal : forall c, promises s !! c <> None -> promises s' !! c = promises s !! c).
  { intros c Hc. unfold s'. cbn [promises]. rewrite lookup_insert_ne; [reflexivity |].
    intros Heq. rewrite <- Heq in Hc. contradiction. }
  assert (Epl : forall c, plain s c -> plain s' c).
  { intros c [Ha Hn]. split; [rewrite Hal by exact Ha; exact Ha | exact Hn]. }
  split; [split |].
  - split; [exact Hfb |]. intros q Hq. unfold s' in *. cbn [promises next_promise] in *.
    rewrite lookup_insert_ne by lia. apply Hfp. lia.
  - exact (ho_uniq s Ho).
  - intros b q c H. destruct (ho_hit s Ho b q c H) as [Hq Hpl].
    split; [rewrite Hal by exact (hit_alloc s b q c Ho H); exact Hq | apply Epl; exact Hpl].
  - intros b bt q c Hb Hd Hin. pose proof (ho_waiting s Ho b bt q c Hb Hd Hin) as H.
    rewrite Hal by (rewrite H; discriminate). exact H.
  - intros q c H. unfold s' in H. cbn [promises] in H.
    destruct (decide (q = next_promise s)) as [-> | Hne].
    + rewrite lookup_insert_eq in H. injection H as H. destruct (Hst c H).
    + rewrite lookup_insert_ne in H by congruence. exact (ho_follows s Ho q c H).
  - intros c H. apply Epl. exact (ho_cached s Ho c H).
  - intros b bt q Hb Hq. apply Epl. exact (ho_callbacks s Ho b bt q Hb Hq).
  - exact (ho_settle_jobs s Ho).
  - intros b q c H. exact H.
Qed.

(** The next promise identifier is not referred to by anything yet. *)
Lemma alloc_unref (s : state) :
  hits_ok s ->
  ~ is_hit s (next_promise s) /\ (forall b q, ~ hit_in s b q (next_promise s)) /\
  ~ cached s (next_promise s) /\
  (forall b bt, batches s !! b = Some bt -> ~ In (next_promise s) (callbacks bt)).
Proof.
  intros Ho. pose proof (ho_fresh s Ho) as Hf.
  assert (Hnp : forall x, promises s !! x <> None -> x <> next_promise s).
  { intros x Hx ->. pose proof (promise_below s _ Hf Hx). lia. }
  split; [| split; [| split]].
  - intros (b & c & H). exact (Hnp _ (hit_alloc s b _ c Ho H) eq_refl).
  - intros b q H. destruct (ho_hit s Ho b q _ H) as [_ [Ha _]]. exact (Hnp _ Ha eq_refl).
  - intros H. destruct (ho_cached s Ho _ H) as [Ha _]. exact (Hnp _ Ha eq_refl).
  - intros b bt Hb Hin. destruct (ho_callbacks s Ho b bt _ Hb Hin) as [Ha _].
    exact (Hnp _ Ha eq_refl).
Qed.

Lemma ho_open_batch (s : state) : hits_ok s -> ho_trans s (exc_state (open_batch s)).
Proof.
  intros Ho. unfold open_batch. cbn [exc_state].
  set (s' := mkState _ _ _ _ _ _ _ _ _).
  pose proof (ho_fresh s Ho) as Hf. destruct Hf as [Hfb Hfp].
  assert (Hnb : batches s !! next_batch s = None) by (apply Hfb; lia).
  assert (Ehit : forall b q c, hit_in s' b q c <-> hit_in s b q c).
  { intros b q c. unfold hit_in, s'. cbn [batches].
    destruct (decide (b = next_batch s)) as [-> | Hne].
    - rewrite lookup_insert_eq, Hnb. split; intros (x & Ex & Hin); [| discriminate].
      injection Ex as <-. destruct Hin.
    - rewrite lookup_insert_ne by congruence. reflexivity. }
  assert (Eis : forall q, is_hit s' q <-> is_hit s q)
    by (intros q; unfold is_hit; setoid_rewrite Ehit; reflexivity).
  assert (Epl : forall c, plain s' c <-> plain s c)
    by (intros c; unfold plain; rewrite Eis; reflexivity).
  split; [split |].
  - split; [| exact Hfp]. intros b Hb. unfold s' in *. cbn [batches next_batch] in *.
    rewrite lookup_insert_ne by lia. apply Hfb. lia.
  - intros b q c b' c' H1 H2. apply Ehit in H1, H2. exact (ho_uniq s Ho _ _ _ _ _ H1 H2).
  - intros b q c H. apply Ehit in H. rewrite Epl. exact (ho_hit s Ho _ _ _ H).
  - intros b bt q c Hb Hd Hin. unfold s' in Hb. cbn [batches] in Hb.
    destruct (decide (b = next_batch s)) as [-> | Hne].
    + rewrite lookup_insert_eq in Hb. injection Hb as <-. destruct Hin.
    + rewrite lookup_insert_ne in Hb by congruence. exact (ho_waiting s Ho b bt q c Hb Hd Hin).
  - intros q c H. destruct (ho_follows s Ho q c H) as [b Hb]. exists b. apply Ehit. exact Hb.
  - intros c H. apply Epl. exact (ho_cached s Ho c H).
  - intros b bt q Hb Hq. apply Epl. unfold s' in Hb. cbn [batches] in Hb.
    destruct (decide (b = next_batch s)) as [-> | Hne].
    + rewrite lookup_insert_eq in Hb. injection Hb as <-. destruct Hq.
    + rewrite lookup_insert_ne in Hb by congruence. exact (ho_callbacks s Ho b bt q Hb Hq).
  - intros b o H. unfold s' in H. cbn [jobs] in H.
    apply in_app_or in H as [H | [H | []]]; [| discriminate].
    destruct (ho_settle_jobs s Ho b o H) as (bt & Hb & Hd).
    unfold s'. cbn [batches]. exists bt. split; [| exact Hd].
    rewrite lookup_insert_ne; [exact Hb |]. intros Heq. rewrite <- Heq in Hb. congruence.
  - intros b q c H. apply Ehit. exact H.
Qed.

Lemma ho_getCurrentBatch (m : jsnum) (s : state) :
  hits_ok s -> ho_trans s (exc_state (getCurrentBatch m s)).
Proof.
  intros Ho. destruct (getCurrentBatch_cases m s) as [(b & bt & _ & _ & _ & E) | [_ E]];
    rewrite E; [apply ho_trans_refl; exact Ho | apply ho_open_batch; exact Ho].
Qed.

Lemma map_set_in (cm : list (jsval * nat)) (x : jsval) (p : nat) (k : jsval) (c : nat) :
  In (k, c) (map_set cm x p) -> In (k, c) cm \/ c = p.
Proof.
  induction cm as [| [k' v'] cm IH]; simpl.
  - intros [H | []]. injection H as _ ->. right. reflexivity.
  - destruct (same_value_zero k' x); simpl.
    + intros [H | H]; [injection H as _ ->; right; reflexivity | left; right; exact H].
    + intros [H | H]; [left; left; exact H |]. destruct (IH H) as [H' | H']; [left; right |]; auto.
Qed.

Lemma map_get_in (cm : list (jsval * nat)) (x : jsval) (c : nat) :
  map_get cm x = Some c -> exists k, In (k, c) cm.
Proof.
  induction cm as [| [k' v'] cm IH]; simpl; [discriminate |].
  destruct (same_value_zero k' x).
  - intros H. injection H as ->. exists k'. left. reflexivity.
  - intros H. destruct (IH H) as [k Hk]. exists k. right. exact Hk.
Qed.

Lemma cache_lookup_cached (s : state) (x : jsval) (c : nat) :
  cache_lookup (cacheMap s) x = Some c -> cached s c.
Proof.
  unfold cache_lookup, cached. destruct (cacheMap s) as [cm |]; [| discriminate].
  intros H. destruct (map_get_in cm x c H) as [k Hk]. exists cm, k. split; [reflexivity | exact Hk].
Qed.

Lemma ho_load (m : jsnum) (kf : jsval -> jsval) (k : jsval) (s : state) :
  hits_ok s -> ho_trans s (exc_state (load m kf k s)).
Proof.
  intros Ho. destruct (is_nullish k) eqn:Hn.
  { unfold load. rewrite Hn. apply ho_trans_refl. exact Ho. }
  destruct (getCurrentBatch_ret m s) as (s1 & b & Eg).
  destruct (getCurrentBatch_result m s s1 b Eg) as (_ & _ & _ & _ & _ & _ & bt & Hb & _).
  assert (H1 : ho_trans s s1)
    by (pose proof (ho_getCurrentBatch m s Ho) as H; rewrite Eg in H; exact H).
  pose proof (proj1 H1) as Ho1.
  destruct (alloc_unref s1 Ho1) as (U1 & U2 & U3 & U4).
  pose proof (ho_alloc s1 Pending Ho1 ltac:(discriminate)) as H2.
  pose proof (proj1 H2) as Ho2.
  destruct (cache_lookup (cacheMap s1) (kf k)) as [c |] eqn:Hc.
  - rewrite (load_hit_step m kf k s s1 b bt c Hn Eg Hb Hc). cbn [exc_state].
    eapply ho_trans_trans; [exact H1 |]. eapply ho_trans_trans; [exact H2 |].
    pose proof (cache_lookup_cached s1 _ _ Hc) as Hcc.
    exact (ho_push_hit _ b bt (next_promise s1) c Ho2 Hb (lookup_insert_eq _ _ _)
             U1 U2 U3 U4 (ho_cached _ Ho2 c Hcc) (fun E => U3 (eq_rect _ _ Hcc _ E))).
  - rewrite (load_miss_step m kf k s s1 b bt Hn Eg Hb Hc). cbn [exc_state].
    eapply ho_trans_trans; [exact H1 |]. eapply ho_trans_trans; [exact H2 |].
    assert (Hpl : plain (mkState (<[next_promise s1 := Pending]> (promises s1))
                   (S (next_promise s1)) (batches s1) (next_batch s1) (cur_batch s1)
                   (cacheMap s1) (jobs s1) (calls s1) (uncaught s1)) (next_promise s1)).
    { split; [cbn [promises]; rewrite lookup_insert_eq; discriminate | exact U1]. }
    pose proof (ho_set_batch _ b bt
                  (mkBatch (hasDispatched bt) (keys bt ++ [k]) (callbacks bt ++ [next_promise s1])
                     (cacheHits bt)) [next_promise s1] Ho2 Hb eq_refl eq_refl
                  ltac:(intros q [<- | []]; exact Hpl) (fun H => H)) as H3.
    eapply ho_trans_trans; [exact H3 |].
    apply (ho_set_cache _ (option_map (fun mp => map_set mp (kf k) (next_promise s1)) (cacheMap s1))
             (proj1 H3)).
    intros c k' cm E Hin.
    destruct (cacheMap s1) as [cm1 |] eqn:Ecm; [| discriminate]. injection E as <-.
    destruct (map_set_in cm1 _ _ _ _ Hin) as [Hin' | ->].
    + apply (ho_cached _ (proj1 H3)). exists cm1, k'. split; [reflexivity | exact Hin'].
    + eapply (ho_callbacks _ (proj1 H3) b); [apply lookup_insert_eq |].
      cbn [callbacks]. apply in_or_app. right. left. reflexivity.
Qed.

Lemma ho_loadMany (m : jsnum) (kf : jsval -> jsval) (ks : jsval) (s : state) :
  hits_ok s -> ho_trans s (exc_state (loadMany m kf ks s)).
Proof.
  intros Ho. unfold loadMany. destruct (negb _); [apply ho_trans_refl; exact Ho |].
  revert s Ho. induction (array_elems ks) as [| k l IH]; intros s Ho; simpl.
  - apply ho_trans_refl. exact Ho.
  - apply ho_bind_step; [apply ho_load; exact Ho |]. intros s1 p E.
    pose proof (proj1 (ho_load m kf k s Ho)) as Ho1. rewrite E in Ho1.
    apply ho_bind_step; [apply IH; exact Ho1 |]. intros s2 ps E2.
    pose proof (proj1 (IH s1 Ho1)) as H. rewrite E2 in H.
    apply ho_trans_refl. exact H.
Qed.

Lemma ho_clear (kf : jsval -> jsval) (k : jsval) (s : state) :
  hits_ok s -> ho_trans s (exc_state (clear kf k s)).
Proof.
  intros Ho. unfold clear, modifyS. cbn [exc_state].
  destruct (cacheMap s) as [cm |] eqn:Ec; [| apply ho_trans_refl; exact Ho].
  apply ho_set_cache; [exact Ho |]. intros c k' cm' E Hin. injection E as <-.
  unfold map_delete in Hin. apply filter_In in Hin as [Hin _].
  apply (ho_cached s Ho). exists cm, k'. split; assumption.
Qed.

Lemma ho_clearAll (s : state) : hits_ok s -> ho_trans s (exc_state (clearAll s)).
Proof.
  intros Ho. unfold clearAll, modifyS. cbn [exc_state].
  destruct (cacheMap s) as [cm |]; [| apply ho_trans_refl; exact Ho].
  apply ho_set_cache; [exact Ho |]. intros c k' cm' E Hin. injection E as <-. destruct Hin.
Qed.

Lemma primed_state_not_follows (v : jsval) (c : nat) : primed_state v <> Follows c.
Proof. unfold primed_state. destruct (is_error v), (thenable v); discriminate. Qed.

Lemma ho_prime (kf : jsval -> jsval) (k v : jsval) (s : state) :
  hits_ok s -> ho_trans s (exc_state (prime kf k v s)).
Proof.
  intros Ho. destruct (cacheMap s) as [cm |] eqn:Ec.
  2:{ unfold prime, bindM, getS. rewrite Ec. apply ho_trans_refl. exact Ho. }
  destruct (map_get cm (kf k)) as [c |] eqn:Eg.
  { rewrite (prime_cached_noop kf k v s cm Ec) by congruence. apply ho_trans_refl. exact Ho. }
  rewrite (prime_miss_step kf k v s cm Ec Eg). cbn [exc_state].
  pose proof (ho_alloc s (primed_state v) Ho (primed_state_not_follows v)) as H1.
  destruct (alloc_unref s Ho) as (U1 & _ & _ & _).
  eapply ho_trans_trans; [exact H1 |].
  apply (ho_set_cache _ (Some (map_set cm (kf k) (next_promise s))) (proj1 H1)).
  intros c' k' cm' E Hin. injection E as <-.
  destruct (map_set_in cm _ _ _ _ Hin) as [Hin' | ->].
  - apply (ho_cached _ (proj1 H1)). exists cm, k'. split; [exact Ec | exact Hin'].
  - split; [cbn [promises]; rewrite lookup_insert_eq; discriminate | exact U1].
Qed.

Lemma ho_run_cache_hits (b : nat) (bt : batch) (hs : list (nat * nat)) (s : state) :
  hits_ok s -> batches s !! b = Some bt -> hasDispatched bt = true ->
  (forall h, In h hs -> In h (hits bt)) ->
  ho_trans s (exc_state (run_cache_hits hs s)).
Proof.
  revert s. induction hs as [| [p c] hs IH]; intros s Ho Hb Hd Hin; simpl.
  - apply ho_trans_refl. exact Ho.
  - apply ho_bind_step.
    + apply ho_settle; [exact Ho |]. intros _. right. exists b, bt, c.
      split; [exact Hb |]. split; [exact Hd |]. split; [apply Hin; left; reflexivity | reflexivity].
    + intros s1 [] E.
      assert (Eb : batches s1 = batches s).
      { pose proof (kb_settle p (Follows c) s) as [H _]. unfold resolve_with in E.
        rewrite E in H. exact H. }
      assert (Ho1 : hits_ok s1).
      { assert (H : ho_trans s (exc_state (resolve_with p c s))).
        { apply ho_settle; [exact Ho |]. intros _. right. exists b, bt, c.
          split; [exact Hb |]. split; [exact Hd |].
          split; [apply Hin; left; reflexivity | reflexivity]. }
        rewrite E in H. exact (proj1 H). }
      apply IH; [exact Ho1 | rewrite Eb; exact Hb | exact Hd |].
      intros h Hh. apply Hin. right. exact Hh.
Qed.

(** [b] is absent or dispatched. *)
Lemma ho_resolveCacheHits (b : nat) (s : state) :
  hits_ok s -> (forall bt, batches s !! b = Some bt -> hasDispatched bt = true) ->
  ho_trans s (exc_state (resolveCacheHits b s)).
Proof.
  intros Ho Hd. unfold resolveCacheHits, bindM, getS, get_batch.
  destruct (batches s !! b) as [bt |] eqn:Eb; [| apply ho_trans_refl; exact Ho].
  destruct (cacheHits bt) as [hs |] eqn:Eh; [| apply ho_trans_refl; exact Ho].
  apply (ho_run_cache_hits b bt hs s Ho Eb (Hd bt eq_refl)).
  intros h Hh. unfold hits. rewrite Eh. exact Hh.
Qed.

Lemma kb_batches {A} (m : M A) (s s' : state) (a : A) :
  keeps_batches m -> m s = Ret s' a -> batches s' = batches s.
Proof. intros H E. pose proof (H s) as [H1 _]. rewrite E in H1. exact H1. Qed.

Lemma ho_fail_keys (kf : jsval -> jsval) (i : nat) (ks : list jsval) (cbs : list nat)
    (e : jsval) (s : state) :
  hits_ok s -> (forall q, In q cbs -> ~ is_hit s q) ->
  ho_trans s (exc_state (fail_keys kf i ks cbs e s)).
Proof.
  revert i s. induction ks as [| k ks IH]; intros i s Ho Hq; cbn [fail_keys].
  - apply ho_trans_refl. exact Ho.
  - apply ho_bind_step; [apply ho_clear; exact Ho |]. intros s1 [] E.
    pose proof (proj1 (ho_clear kf k s Ho)) as Ho1. rewrite E in Ho1.
    pose proof (kb_batches _ _ _ _ (kb_clear kf k) E) as Eb1.
    destruct (nth_error cbs i) as [c |] eqn:En; [| apply ho_trans_refl; exact Ho1].
    assert (Hc : ~ is_hit s1 c).
    { rewrite (is_hit_ext s s1 c Eb1). apply Hq. exact (nth_error_In cbs i En). }
    assert (Hs : ho_trans s1 (exc_state (reject c e s1))).
    { apply ho_settle; [exact Ho1 |]. intros _. left. split; [exact Hc | discriminate]. }
    apply ho_bind_step; [exact Hs |]. intros s2 [] E2.
    pose proof (proj1 Hs) as Ho2. rewrite E2 in Ho2. unfold reject in E2.
    pose proof (kb_batches _ _ _ _ (kb_settle c (Rejected e)) E2) as Eb2.
    apply IH; [exact Ho2 |]. intros q Hin. rewrite (is_hit_ext s s2 q ltac:(congruence)).
    apply Hq. exact Hin.
Qed.

Lemma ho_resolve_values (i : nat) (cbs : list nat) (vs : list jsval) (s : state) :
  hits_ok s -> (forall q, In q cbs -> ~ is_hit s q) ->
  ho_trans s (exc_state (resolve_values i cbs vs s)).
Proof.
  revert i s. induction cbs as [| c cbs IH]; intros i s Ho Hq; cbn [resolve_values].
  - apply ho_trans_refl. exact Ho.
  - assert (Hc : ~ is_hit s c) by (apply Hq; left; reflexivity).
    set (value := nth i vs JUndefined).
    assert (Hset : forall st, (forall c', st <> Follows c') ->
              ho_trans s (exc_state (settle_promise c st s)) /\
              batches (exc_state (settle_promise c st s)) = batches s).
    { intros st Hst. split; [apply ho_settle; [exact Ho |]; intros _; left; split; assumption |].
      exact (proj1 (kb_settle c st s)). }
    assert (H1 : ho_trans s (exc_state ((if is_error value then reject c value
               else if json_stringify_throws value then throwM err_json
               else resolve_value c value) s)) /\
            forall s1 a, (if is_error value then reject c value
               else if json_stringify_throws value then throwM err_json
               else resolve_value c value) s = Ret s1 a -> batches s1 = batches s).
    { destruct (is_error value); [| destruct (json_stringify_throws value)].
      - destruct (Hset (Rejected value) ltac:(discriminate)) as [H Eb]. split; [exact H |].
        intros s1 a E. unfold reject in E. rewrite settle_promise_ret in E.
        injection E as <- _. exact Eb.
      - split; [apply ho_trans_refl; exact Ho | discriminate].
      - destruct (Hset (if thenable value then Adopts value else Fulfilled value))
          as [H Eb]; [destruct (thenable value); discriminate |].
        split; [exact H |]. intros s1 a E. unfold resolve_value in E.
        rewrite settle_promise_ret in E. injection E as <- _. exact Eb. }
    destruct H1 as [H1 Eb]. apply ho_bind_step; [exact H1 |]. intros s1 a E.
    pose proof (proj1 H1) as Ho1. rewrite E in Ho1.
    apply IH; [exact Ho1 |]. intros q Hin. rewrite (is_hit_ext s s1 q (Eb s1 a E)).
    apply Hq. right. exact Hin.
Qed.

Lemma callbacks_not_hits (s : state) (b : nat) (q : nat) :
  hits_ok s -> In q (callbacks (get_batch s b)) -> ~ is_hit s q.
Proof.
  intros Ho. unfold get_batch. destruct (batches s !! b) as [bt |] eqn:Eb; [| intros []].
  intros Hin. exact (proj2 (ho_callbacks s Ho b bt q Eb Hin)).
Qed.

Lemma ho_on_values (b : nat) (values : jsval) (s : state) :
  hits_ok s -> (forall bt, batches s !! b = Some bt -> hasDispatched bt = true) ->
  ho_trans s (exc_state (on_values b values s)).
Proof.
  intros Ho Hd. unfold on_values. apply ho_bind_step; [apply ho_trans_refl; exact Ho |].
  intros s1 a E. injection E as <- <-. cbv zeta.
  destruct (negb (isArrayLike values)); [apply ho_trans_refl; exact Ho |].
  destruct (negb _); [apply ho_trans_refl; exact Ho |].
  apply ho_bind_step; [apply ho_resolveCacheHits; assumption |]. intros s2 [] E.
  pose proof (proj1 (ho_resolveCacheHits b s Ho Hd)) as Ho2. rewrite E in Ho2.
  pose proof (kb_batches _ _ _ _ (kb_resolveCacheHits b) E) as Eb2.
  apply ho_resolve_values; [exact Ho2 |]. intros q Hin.
  rewrite (is_hit_ext s s2 q Eb2). exact (callbacks_not_hits s b q Ho Hin).
Qed.

Lemma ho_failedDispatch (kf : jsval -> jsval) (b : nat) (e : jsval) (s : state) :
  hits_ok s -> (forall bt, batches s !! b = Some bt -> hasDispatched bt = true) ->
  ho_trans s (exc_state (failedDispatch kf b e s)).
Proof.
  intros Ho Hd. unfold failedDispatch.
  apply ho_bind_step; [apply ho_resolveCacheHits; assumption |]. intros s1 [] E.
  pose proof (proj1 (ho_resolveCacheHits b s Ho Hd)) as Ho1. rewrite E in Ho1.
  apply ho_bind_step; [apply ho_trans_refl; exact Ho1 |]. intros s2 a E2. injection E2 as <- <-.
  apply ho_fail_keys; [exact Ho1 |]. intros q Hin. exact (callbacks_not_hits s1 b q Ho1 Hin).
Qed.

Lemma ho_settle_batch (kf : jsval -> jsval) (b : nat) (o : bout) (s : state) :
  hits_ok s -> (forall bt, batches s !! b = Some bt -> hasDispatched bt = true) ->
  ho_trans s (exc_state (settle_batch kf b o s)).
Proof.
  intros Ho Hd. destruct o as [values | e]; [| apply ho_failedDispatch; assumption].
  unfold settle_batch. pose proof (ho_on_values b values s Ho Hd) as H.
  destruct (on_values b values s) as [s1 a | s1 e] eqn:E; [exact H |].
  cbn [exc_state] in H |- *. eapply ho_trans_trans; [exact H |].
  apply ho_failedDispatch; [exact (proj1 H) |].
  pose proof (proj1 (kb_on_values b values s)) as Eb. rewrite E in Eb. cbn [exc_state] in Eb.
  rewrite Eb. exact Hd.
Qed.

Lemma mark_dispatched_result (b : nat) (s : state) (bt : batch) :
  batches (exc_state (modify_batch b mark_dispatched s)) !! b = Some bt -> hasDispatched bt = true.
Proof.
  unfold modify_batch, modifyS. cbn [exc_state].
  destruct (batches s !! b) as [bt0 |] eqn:Eb.
  - unfold set_batches. cbn [batches]. rewrite lookup_insert_eq. intros H. injection H as <-.
    reflexivity.
  - rewrite Eb. discriminate.
Qed.

Lemma ho_dispatchBatch (bl : list jsval -> bret) (kf : jsval -> jsval) (b : nat) (s : state) :
  hits_ok s -> ho_trans s (exc_state (dispatchBatch bl kf b s)).
Proof.
  intros Ho. unfold dispatchBatch.
  assert (H1 : ho_trans s (exc_state (modify_batch b mark_dispatched s))).
  { apply ho_modify_batch; [exact Ho |]. intros bt _.
    split; [reflexivity | split; [reflexivity | intros _; reflexivity]]. }
  apply ho_bind_step; [exact H1 |]. intros s1 [] E1.
  pose proof (proj1 H1) as Ho1. rewrite E1 in Ho1.
  assert (Hd1 : forall bt, batches s1 !! b = Some bt -> hasDispatched bt = true).
  { intros bt. pose proof (mark_dispatched_result b s bt) as H. rewrite E1 in H. exact H. }
  apply ho_bind_step; [apply ho_trans_refl; exact Ho1 |]. intros s2 a E2.
  injection E2 as <- <-. cbv zeta.
  destruct (Nat.eqb (length (keys (get_batch s1 b))) 0) eqn:Ek;
    [apply ho_resolveCacheHits; assumption |].
  assert (Hb1 : exists bt, batches s1 !! b = Some bt /\ hasDispatched bt = true).
  { unfold get_batch in Ek. destruct (batches s1 !! b) as [bt |] eqn:Eb; [| discriminate].
    exists bt. split; [reflexivity | exact (Hd1 bt eq_refl)]. }
  assert (H2 : ho_trans s1 (set_calls (calls s1 ++ [keys (get_batch s1 b)]) s1)).
  { apply ho_frame; try reflexivity; [exact Ho1 | exact (ho_cached s1 Ho1) | exact (ho_settle_jobs s1 Ho1)]. }
  apply ho_bind_step; [exact H2 |]. intros s3 [] E3. unfold modifyS in E3. injection E3 as <-.
  destruct (bl (keys (get_batch s1 b))) as [o | v | e].
  - apply ho_frame; try reflexivity; [exact (proj1 H2) | exact (ho_cached _ (proj1 H2)) |].
    intros b' o' Hin. cbn [jobs set_jobs set_calls] in Hin.
    apply in_app_or in Hin as [Hin | [Hin | []]]; [exact (ho_settle_jobs _ (proj1 H2) b' o' Hin) |].
    injection Hin as <- <-. exact Hb1.
  - destruct (is_falsy v || negb (has_method v "then")); [| apply ho_trans_refl; exact (proj1 H2)].
    apply ho_failedDispatch; [exact (proj1 H2) | exact Hd1].
  - apply ho_trans_refl. exact (proj1 H2).
Qed.

Lemma ho_step (bl : list jsval -> bret) (m : jsnum) (kf : jsval -> jsval) (s s' : state) :
  hits_ok s -> step bl m kf s s' -> ho_trans s s'.
Proof.
  intros Ho Hst.
  destruct Hst as [k s s' p E | k s s' e E | ks s s' ps E | ks s s' e E
                  | k s s' E | s s' E | k v s s' E | s s' E].
  - pose proof (ho_load m kf k s Ho) as H. rewrite E in H. exact H.
  - pose proof (ho_load m kf k s Ho) as H. rewrite E in H. exact H.
  - pose proof (ho_loadMany m kf ks s Ho) as H. rewrite E in H. exact H.
  - pose proof (ho_loadMany m kf ks s Ho) as H. rewrite E in H. exact H.
  - pose proof (ho_clear kf k s Ho) as H. rewrite E in H. exact H.
  - pose proof (ho_clearAll s Ho) as H. rewrite E in H. exact H.
  - pose proof (ho_prime kf k v s Ho) as H. rewrite E in H. exact H.
  - unfold step_job in E. destruct (jobs s) as [| j js] eqn:Ej; [discriminate |].
    assert (H0 : ho_trans s (set_jobs js s)).
    { apply ho_frame; try reflexivity; [exact Ho | exact (ho_cached s Ho) |].
      intros b o Hin. apply (ho_settle_jobs s Ho b o). rewrite Ej. right. exact Hin. }
    assert (Hj : ho_trans (set_jobs js s) (exc_state (run_job bl kf j (set_jobs js s)))).
    { destruct j as [b | b o]; cbn [run_job].
      - apply ho_dispatchBatch. exact (proj1 H0).
      - apply ho_settle_batch; [exact (proj1 H0) |]. intros bt Hb.
        assert (Hin : In (JSettle b o) (jobs s)) by (rewrite Ej; left; reflexivity).
        destruct (ho_settle_jobs s Ho b o Hin) as (bt0 & Hb0 & Hd0).
        cbn [batches set_jobs] in Hb. rewrite Hb in Hb0. injection Hb0 as ->. exact Hd0. }
    destruct (run_job bl kf j (set_jobs js s)) as [s1 a | s1 e] eqn:Er; injection E as <-.
    + eapply ho_trans_trans; [exact H0 | exact Hj].
    + eapply ho_trans_trans; [exact H0 |]. eapply ho_trans_trans; [exact Hj |].
      apply ho_frame; try reflexivity;
        [exact (proj1 Hj) | exact (ho_cached _ (proj1 Hj)) | exact (ho_settle_jobs _ (proj1 Hj))].
Qed.

Lemma reachable_hits_ok (bl : list jsval -> bret) (m : jsnum) (kf : jsval -> jsval)
    (caching : bool) (s : state) :
  reachable bl m kf caching s -> hits_ok s.
Proof.
  induction 1 as [| s s' _ IH Hst]; [apply ho_init | exact (proj1 (ho_step bl m kf s s' IH Hst))].
Qed.

Lemma rtc_ho_trans (bl : list jsval -> bret) (m : jsnum) (kf : jsval -> jsval) (s t : state) :
  hits_ok s -> rtc (step bl m kf) s t -> ho_trans s t.
Proof.
  intros Ho H. revert Ho. induction H as [s | s s1 t Hst _ IH]; intros Ho;
    [apply ho_trans_refl; exact Ho |].
  pose proof (ho_step bl m kf s s1 Ho Hst) as H1.
  eapply ho_trans_trans; [exact H1 | exact (IH (proj1 H1))].
Qed.

Lemma rtc_settled_kept (bl : list jsval -> bret) (m : jsnum) (kf : jsval -> jsval) (s t : state) :
  ids_fresh s -> rtc (step bl m kf) s t -> settled_kept s t.
Proof.
  intros Hf H. revert Hf. induction H as [s | s s1 t Hst _ IH]; intros Hf;
    [apply settled_kept_refl |].
  destruct (fresh_step bl m kf s s1 Hf Hst) as [Hf1 Hk1].
  exact (settled_kept_trans s s1 t Hk1 (IH Hf1)).
Qed.

Lemma hit_outcome (s : state) (b q c : nat) (o : settlement) :
  hits_ok s -> hit_in s b q c -> outcome s q = Some o -> outcome s c = Some o.
Proof.
  intros Ho H Hq. destruct (ho_hit s Ho b q c H) as [[E | E] [_ Hnh]];
    unfold outcome in *; simpl in Hq; rewrite E in Hq; [discriminate |].
  simpl in Hq |- *. destruct (promises s !! c) as [[| v | e | c' | v] |] eqn:Ec; try exact Hq.
  exfalso. apply Hnh. destruct (ho_follows s Ho c c' Ec) as [b' Hb']. exists b', c'. exact Hb'.
Qed.

Lemma hit_settled_dispatched (s : state) (b q c : nat) (o : settlement) :
  hits_ok s -> hit_in s b q c -> outcome s q = Some o ->
  exists bt, batches s !! b = Some bt /\ hasDispatched bt = true.
Proof.
  intros Ho (bt & Hb & Hin) Hq. exists bt. split; [exact Hb |].
  destruct (hasDispatched bt) eqn:Hd; [reflexivity |].
  pose proof (ho_waiting s Ho b bt q c Hb Hd Hin) as Hp.
  unfold outcome in Hq. simpl in Hq. rewrite Hp in Hq. discriminate.
Qed.

Lemma ks_bind {A B} (m : M A) (k : A -> M B) :
  keeps_somecache m -> (forall a, keeps_somecache (k a)) -> keeps_somecache (bindM m k).
Proof.
  intros Hm Hk s Hs. specialize (Hm s Hs). unfold bindM.
  destruct (m s) as [s1 a | s1 e]; simpl in *; [apply Hk |]; exact Hm.
Qed.

Lemma ks_modify (f : state -> state) :
  (forall s, cacheMap s <> None -> cacheMap (f s) <> None) -> keeps_somecache (modifyS f).
Proof. intros H s Hs. apply H. exact Hs. Qed.

Lemma ks_ret {A} (a : A) : keeps_somecache (retM a).
Proof. intros s Hs. exact Hs. Qed.

Lemma ks_throw {A} (e : jsval) : keeps_somecache (A := A) (throwM e).
Proof. intros s Hs. exact Hs. Qed.

Lemma ks_get : keeps_somecache getS.
Proof. intros s Hs. exact Hs. Qed.

Lemma ks_new_promise : keeps_somecache new_promise.
Proof. intros s Hs. exact Hs. Qed.

Lemma ks_settle (p : nat) (st : pstate) : keeps_somecache (settle_promise p st).
Proof. apply ks_modify. intros s Hs. destruct (promises s !! p) as [[] |]; exact Hs. Qed.

Lemma ks_modify_batch (b : nat) (f : batch -> batch) : keeps_somecache (modify_batch b f).
Proof. apply ks_modify. intros s Hs. destruct (batches s !! b); exact Hs. Qed.

Lemma ks_clear (kf : jsval -> jsval) (k : jsval) : keeps_somecache (clear kf k).
Proof. apply ks_modify. intros s Hs. destruct (cacheMap s); [discriminate | contradiction]. Qed.

Lemma ks_clearAll : keeps_somecache clearAll.
Proof. apply ks_modify. intros s Hs. destruct (cacheMap s); [discriminate | contradiction]. Qed.

Lemma ks_cache_set (k : jsval) (p : nat) : keeps_somecache (cache_set k p).
Proof. apply ks_modify. intros s Hs. destruct (cacheMap s); [discriminate | contradiction]. Qed.

Lemma ks_getCurrentBatch (m : jsnum) : keeps_somecache (getCurrentBatch m).
Proof.
  intros s Hs. destruct (getCurrentBatch_ret m s) as (s1 & b & E).
  destruct (getCurrentBatch_result m s s1 b E) as (_ & _ & Hc & _). rewrite E. simpl.
  rewrite Hc. exact Hs.
Qed.

Create HintDb somecache.
#[local] Hint Resolve ks_ret ks_throw ks_get ks_new_promise ks_settle ks_modify_batch ks_clear
  ks_clearAll ks_cache_set ks_getCurrentBatch : somecache.

Ltac somecache_tac :=
  repeat match goal with
  | |- keeps_somecache (bindM _ _) => apply ks_bind; [| intros ?]
  | |- keeps_somecache (match ?x with _ => _ end) => destruct x
  | |- keeps_somecache (if ?x then _ else _) => destruct x
  | |- keeps_somecache (reject _ _) => apply ks_settle
  | |- keeps_somecache (resolve_value _ _) => apply ks_settle
  | |- keeps_somecache (resolve_with _ _) => apply ks_settle
  | |- keeps_somecache (modifyS _) => apply ks_modify; intros ? ?; assumption
  | |- keeps_somecache _ => solve [eauto with somecache]
  end.

Lemma ks_load (m : jsnum) (kf : jsval -> jsval) (k : jsval) : keeps_somecache (load m kf k).
Proof. unfold load. somecache_tac. Qed.

Lemma ks_loadMany (m : jsnum) (kf : jsval -> jsval) (ks : jsval) :
  keeps_somecache (loadMany m kf ks).
Proof.
  unfold loadMany. destruct (negb _); [apply ks_throw |].
  induction (array_elems ks) as [| k l IH]; simpl; somecache_tac; first [apply ks_load | exact IH].
Qed.

Lemma ks_prime (kf : jsval -> jsval) (k v : jsval) : keeps_somecache (prime kf k v).
Proof. unfold prime. somecache_tac. Qed.

Lemma ks_run_cache_hits (hs : list (nat * nat)) : keeps_somecache (run_cache_hits hs).
Proof. induction hs as [| [p c] hs IH]; simpl; somecache_tac. Qed.

Lemma ks_resolveCacheHits (b : nat) : keeps_somecache (resolveCacheHits b).
Proof. unfold resolveCacheHits. somecache_tac. apply ks_run_cache_hits. Qed.

Lemma ks_fail_keys (kf : jsval -> jsval) (i : nat) (ks : list jsval) (cbs : list nat)
    (e : jsval) : keeps_somecache (fail_keys kf i ks cbs e).
Proof. revert i. induction ks as [| k ks IH]; intros i; simpl; somecache_tac. Qed.

Lemma ks_failedDispatch (kf : jsval -> jsval) (b : nat) (e : jsval) :
  keeps_somecache (failedDispatch kf b e).
Proof.
  unfold failedDispatch. somecache_tac; first [apply ks_resolveCacheHits | apply ks_fail_keys].
Qed.

Lemma ks_resolve_values (i : nat) (cbs : list nat) (vs : list jsval) :
  keeps_somecache (resolve_values i cbs vs).
Proof. revert i. induction cbs as [| c cbs IH]; intros i; simpl; somecache_tac. Qed.

Lemma ks_settle_batch (kf : jsval -> jsval) (b : nat) (o : bout) :
  keeps_somecache (settle_batch kf b o).
Proof.
  intros s Hs. destruct o as [v | e]; [| apply ks_failedDispatch; exact Hs].
  unfold settle_batch.
  assert (Hv : keeps_somecache (on_values b v)).
  { unfold on_values. somecache_tac; first [apply ks_resolveCacheHits | apply ks_resolve_values]. }
  specialize (Hv s Hs).
  destruct (on_values b v s) as [s1 a | s1 e]; simpl in *; [exact Hv |].
  apply ks_failedDispatch. exact Hv.
Qed.

Lemma ks_dispatchBatch (bl : list jsval -> bret) (kf : jsval -> jsval) (b : nat) :
  keeps_somecache (dispatchBatch bl kf b).
Proof.
  unfold dispatchBatch. somecache_tac; solve [apply ks_resolveCacheHits | apply ks_failedDispatch].
Qed.

Lemma ks_step (bl : list jsval -> bret) (m : jsnum) (kf : jsval -> jsval) (s s' : state) :
  step bl m kf s s' -> cacheMap s <> None -> cacheMap s' <> None.
Proof.
  intros Hst IH.
  destruct Hst as [k s s' p E | k s s' e E | ks s s' ps E | ks s s' e E
                  | k s s' E | s s' E | k v s s' E | s s' E].
  - pose proof (ks_load m kf k s IH) as H. rewrite E in H. exact H.
  - pose proof (ks_load m kf k s IH) as H. rewrite E in H. exact H.
  - pose proof (ks_loadMany m kf ks s IH) as H. rewrite E in H. exact H.
  - pose proof (ks_loadMany m kf ks s IH) as H. rewrite E in H. exact H.
  - pose proof (ks_clear kf k s IH) as H. rewrite E in H. exact H.
  - pose proof (ks_clearAll s IH) as H. rewrite E in H. exact H.
  - pose proof (ks_prime kf k v s IH) as H. rewrite E in H. exact H.
  - unfold step_job in E. destruct (jobs s) as [| j js]; [discriminate |].
    assert (Hj : cacheMap (exc_state (run_job bl kf j (set_jobs js s))) <> None).
    { destruct j as [b | b o]; simpl; [apply ks_dispatchBatch | apply ks_settle_batch]; exact IH. }
    destruct (run_job bl kf j (set_jobs js s)) as [s1 a | s1 e]; injection E as <-; exact Hj.
Qed.

Lemma reachable_somecache (bl : list jsval -> bret) (m : jsnum) (kf : jsval -> jsval) (s : state) :
  reachable bl m kf true s -> cacheMap s <> None.
Proof.
  intros Hr. induction Hr as [| s s' _ IH Hst]; [discriminate |].
  exact (ks_step bl m kf s s' Hst IH).
Qed.

Lemma getCurrentBatch_get_batch (m : jsnum) (s s1 : state) (b : nat) :
  ids_fresh s -> getCurrentBatch m s = Ret s1 b ->
  forall b', get_batch s1 b' = get_batch s b'.
Proof.
  intros [Hfb _] E b'.
  destruct (getCurrentBatch_cases m s) as [(b0 & bt & _ & _ & _ & E') | [_ E']];
    rewrite E' in E; injection E as <- _; [reflexivity |].
  unfold get_batch. cbn [batches].
  destruct (decide (b' = next_batch s)) as [-> | Hne].
  - rewrite lookup_insert_eq, (Hfb (next_batch s) (le_n _)). reflexivity.
  - rewrite lookup_insert_ne by congruence. reflexivity.
Qed.

Lemma load_hit_shape (m : jsnum) (kf : jsval -> jsval) (k : jsval) (s : state) (c : nat) :
  ids_fresh s -> is_nullish k = false -> cache_lookup (cacheMap s) (kf k) = Some c ->
  exists s' b bt, load m kf k s = Ret s' (next_promise s) /\
    calls s' = calls s /\ cacheMap s' = cacheMap s /\
    (forall b', keys (get_batch s' b') = keys (get_batch s b')) /\
    (forall b', callbacks (get_batch s' b') = callbacks (get_batch s b')) /\
    cur_batch s' = Some b /\ batches s' !! b = Some bt /\ hasDispatched bt = false /\
    In (next_promise s, c) (hits bt) /\ promises s' !! next_promise s = Some Pending.
Proof.
  intros Hf Hn Hl. destruct (getCurrentBatch_ret m s) as (s1 & b & Eg).
  destruct (getCurrentBatch_result m s s1 b Eg)
    as (Hp & Hnp & Hc & Hcl & _ & Hcur & bt & Hb & Hd).
  assert (Hl1 : cache_lookup (cacheMap s1) (kf k) = Some c) by (rewrite Hc; exact Hl).
  pose proof (getCurrentBatch_get_batch m s s1 b Hf Eg) as Hgb.
  rewrite (load_hit_step m kf k s s1 b bt c Hn Eg Hb Hl1).
  assert (Hgb' : forall b', get_batch s1 b' = get_batch s b' ->
    keys (get_batch (mkState (<[next_promise s1:=Pending]> (promises s1)) (S (next_promise s1))
            (<[b:=push_cache_hit (next_promise s1, c) bt]> (batches s1)) (next_batch s1)
            (cur_batch s1) (cacheMap s1) (jobs s1) (calls s1) (uncaught s1)) b')
      = keys (get_batch s b') /\
    callbacks (get_batch (mkState (<[next_promise s1:=Pending]> (promises s1))
            (S (next_promise s1))
            (<[b:=push_cache_hit (next_promise s1, c) bt]> (batches s1)) (next_batch s1)
            (cur_batch s1) (cacheMap s1) (jobs s1) (calls s1) (uncaught s1)) b')
      = callbacks (get_batch s b')).
  { intros b' Heq. rewrite <- Heq. unfold get_batch. cbn [batches].
    destruct (decide (b' = b)) as [-> | Hne].
    - rewrite lookup_insert_eq, Hb. split; reflexivity.
    - rewrite lookup_insert_ne by congruence. split; reflexivity. }
  rewrite Hnp in Hgb' |- *. eexists _, b, _. split; [reflexivity |].
  cbn [calls cacheMap cur_batch batches promises].
  split; [exact Hcl |]. split; [exact Hc |].
  split; [intros b'; exact (proj1 (Hgb' b' (Hgb b'))) |].
  split; [intros b'; exact (proj2 (Hgb' b' (Hgb b'))) |].
  split; [exact Hcur |]. split; [apply lookup_insert_eq |]. split; [exact Hd |].
  split; [unfold hits; cbn [cacheHits push_cache_hit]; apply in_or_app; right; left; reflexivity |].
  apply lookup_insert_eq.
Qed.

Lemma load_caches (m : jsnum) (kf : jsval -> jsval) (k : jsval) (s s1 : state) (p : nat) :
  ids_fresh s -> cacheMap s <> None -> load m kf k s = Ret s1 p ->
  exists c, cache_lookup (cacheMap s1) (kf k) = Some c /\ (c = p \/ exists b, hit_in s1 b p c).
Proof.
  intros Hf Hs E.
  destruct (is_nullish k) eqn:Hn; [unfold load in E; rewrite Hn in E; discriminate |].
  destruct (cache_lookup (cacheMap s) (kf k)) as [c |] eqn:Hl.
  - destruct (load_hit_shape m kf k s c Hf Hn Hl)
      as (s' & b & bt & E' & _ & Hc & _ & _ & _ & Hb & _ & Hin & _).
    rewrite E' in E. injection E as <- <-. exists c. rewrite Hc. split; [exact Hl |].
    right. exists b, bt. split; [exact Hb | exact Hin].
  - destruct (getCurrentBatch_ret m s) as (s2 & b & Eg).
    destruct (getCurrentBatch_result m s s2 b Eg) as (_ & _ & Hc & _ & _ & _ & bt & Hb & _).
    assert (Hl2 : cache_lookup (cacheMap s2) (kf k) = None) by (rewrite Hc; exact Hl).
    rewrite (load_miss_step m kf k s s2 b bt Hn Eg Hb Hl2) in E. injection E as <- <-.
    exists (next_promise s2). split; [| left; reflexivity].
    cbn [cacheMap]. rewrite Hc. destruct (cacheMap s) as [cm |]; [| contradiction].
    cbn [option_map cache_lookup]. apply map_get_set_eq.
Qed.

Lemma outcome_primed (s : state) (c : nat) (v : jsval) :
  promises s !! c = Some (primed_state v) -> outcome s c = primed_outcome v.
Proof.
  intros H. unfold outcome. cbn [outcome_n]. rewrite H.
  unfold primed_state, primed_outcome. destruct (is_error v), (thenable v); reflexivity.
Qed.

Lemma primed_state_settled (v : jsval) : primed_state v <> Pending.
Proof. unfold primed_state. destruct (is_error v), (thenable v); discriminate. Qed.

(** C2. With caching on, from any state the loader can reach, a second
    [load] of a key already loaded adds no key and no callback to any batch
    and calls no batch function: it records a cache hit on the entry the
    first [load] left in the cache, in the batch that is open, and it
    settles to the same result as the first [load]'s promise. *)
Theorem load_twice_shares_entry (bl : list jsval -> bret) (m : jsnum) (kf : jsval -> jsval)
    (k : jsval) (s s1 : state) (p1 : nat) :
  reachable bl m kf true s -> load m kf k s = Ret s1 p1 ->
  exists s2 p2 b bt c, load m kf k s1 = Ret s2 p2 /\
    (forall b', keys (get_batch s2 b') = keys (get_batch s1 b')) /\
    (forall b', callbacks (get_batch s2 b') = callbacks (get_batch s1 b')) /\
    calls s2 = calls s1 /\ cur_batch s2 = Some b /\ batches s2 !! b = Some bt /\
    hasDispatched bt = false /\ In (p2, c) (hits bt) /\
    cache_lookup (cacheMap s1) (kf k) = Some c /\
    forall t, rtc (step bl m kf) s2 t ->
      forall o1 o2, outcome t p1 = Some o1 -> outcome t p2 = Some o2 -> o1 = o2.
Proof.
  intros Hr E1.
  destruct (is_nullish k) eqn:Hn; [unfold load in E1; rewrite Hn in E1; discriminate |].
  assert (Hr1 : reachable bl m kf true s1) by (eapply reach_step; [exact Hr | eapply step_load; exact E1]).
  destruct (load_caches m kf k s s1 p1 (reachable_fresh bl m kf true s Hr)
              (reachable_somecache bl m kf s Hr) E1) as (c & Hc & Hpc).
  destruct (load_hit_shape m kf k s1 c (reachable_fresh bl m kf true s1 Hr1) Hn Hc)
    as (s2 & b & bt & E2 & Hcl & _ & Hk & Hcb & Hcur & Hb & Hd & Hin & _).
  assert (Hst : step bl m kf s1 s2) by (eapply step_load; exact E2).
  assert (Hr2 : reachable bl m kf true s2) by (eapply reach_step; [exact Hr1 | exact Hst]).
  exists s2, (next_promise s1), b, bt, c.
  split; [exact E2 |]. split; [exact Hk |]. split; [exact Hcb |]. split; [exact Hcl |].
  split; [exact Hcur |]. split; [exact Hb |]. split; [exact Hd |]. split; [exact Hin |].
  split; [exact Hc |].
  intros t Ht o1 o2 H1 H2.
  assert (Ht1 : rtc (step bl m kf) s1 t) by (eapply rtc_l; [exact Hst | exact Ht]).
  pose proof (rtc_ho_trans bl m kf s1 t (reachable_hits_ok bl m kf true s1 Hr1) Ht1) as [Hot Hpt].
  pose proof (rtc_ho_trans bl m kf s2 t (reachable_hits_ok bl m kf true s2 Hr2) Ht) as [_ Hpt2].
  assert (Hh2 : hit_in t b (next_promise s1) c) by (apply Hpt2; exists bt; split; [exact Hb | exact Hin]).
  pose proof (hit_outcome t b (next_promise s1) c o2 Hot Hh2 H2) as Hc2.
  destruct Hpc as [-> | [b1 Hh1]].
  - congruence.
  - pose proof (hit_outcome t b1 p1 c o1 Hot (Hpt b1 p1 c Hh1) H1) as Hc1. congruence.
Qed.

Lemma load_twice_shares_entry_witness :
  reachable echo_backend NInf id true (loaded_state NInf true) /\
  exists s1 p1, load NInf id (JNum (NFin 2)) (loaded_state NInf true) = Ret s1 p1 /\
  exists s2 p2 b bt c, load NInf id (JNum (NFin 2)) s1 = Ret s2 p2 /\
    (forall b', keys (get_batch s2 b') = keys (get_batch s1 b')) /\
    (forall b', callbacks (get_batch s2 b') = callbacks (get_batch s1 b')) /\
    calls s2 = calls s1 /\ cur_batch s2 = Some b /\ batches s2 !! b = Some bt /\
    hasDispatched bt = false /\ In (p2, c) (hits bt) /\
    cache_lookup (cacheMap s1) (id (JNum (NFin 2))) = Some c /\
    forall t, rtc (step echo_backend NInf id) s2 t ->
      forall o1 o2, outcome t p1 = Some o1 -> outcome t p2 = Some o2 -> o1 = o2.
Proof.
  split; [apply reachable_loaded |].
  destruct (load NInf id (JNum (NFin 2)) (loaded_state NInf true)) as [s1 p1 | s1 e] eqn:E;
    [| vm_compute in E; discriminate].
  exists s1, p1. split; [reflexivity |].
  exact (load_twice_shares_entry echo_backend NInf id (JNum (NFin 2)) (loaded_state NInf true)
           s1 p1 (reachable_loaded echo_backend NInf true) E).
Defined.

(** C6. With caching on, from any state the loader can reach, and for a key
    that is not [null] or [undefined]: [prime(k, v)] changes nothing when
    the cache holds an entry for [k].  Otherwise it stores under [k]'s
    cache key a new promise in the state [Promise.resolve(v)] gives it
    (rejected with [v] when [v] is an Error, adopting [v] when [v] is a
    then-able, fulfilled with [v] otherwise).  A following [load(k)] adds
    no key to any batch and calls no batch function; it returns a new
    promise, still pending, recorded as a cache hit of the open batch
    [b].  In every later state that promise is settled only if batch [b]
    has been dispatched, and then to the primed promise's settlement. *)
Theorem prime_then_load (bl : list jsval -> bret) (m : jsnum) (kf : jsval -> jsval)
    (k v : jsval) (s : state) :
  reachable bl m kf true s -> is_nullish k = false ->
  (cache_lookup (cacheMap s) (kf k) <> None -> prime kf k v s = Ret s tt) /\
  (cache_lookup (cacheMap s) (kf k) = None ->
   exists s1 s2 b bt, prime kf k v s = Ret s1 tt /\
     cache_lookup (cacheMap s1) (kf k) = Some (next_promise s) /\
     promises s1 !! next_promise s = Some (primed_state v) /\
     outcome s1 (next_promise s) = primed_outcome v /\
     load m kf k s1 = Ret s2 (next_promise s1) /\ calls s2 = calls s /\
     (forall b', keys (get_batch s2 b') = keys (get_batch s b')) /\
     cur_batch s2 = Some b /\ batches s2 !! b = Some bt /\ hasDispatched bt = false /\
     In (next_promise s1, next_promise s) (hits bt) /\ outcome s2 (next_promise s1) = None /\
     forall t o, rtc (step bl m kf) s2 t -> outcome t (next_promise s1) = Some o ->
       primed_outcome v = Some o /\
       exists bt', batches t !! b = Some bt' /\ hasDispatched bt' = true).
Proof.
  intros Hr Hn.
  pose proof (reachable_somecache bl m kf s Hr) as Hs.
  destruct (cacheMap s) as [cm |] eqn:Hcm; [| contradiction]. cbn [cache_lookup].
  split; [intros Hg; exact (prime_cached_noop kf k v s cm Hcm Hg) |].
  intros Hg. pose proof (prime_miss_step kf k v s cm Hcm Hg) as E1.
  set (s1 := mkState (<[next_promise s := primed_state v]> (promises s)) (S (next_promise s))
               (batches s) (next_batch s) (cur_batch s)
               (Some (map_set cm (kf k) (next_promise s))) (jobs s) (calls s) (uncaught s)).
  fold s1 in E1.
  assert (Hr1 : reachable bl m kf true s1) by (eapply reach_step; [exact Hr | eapply step_prime; exact E1]).
  assert (Hl1 : cache_lookup (cacheMap s1) (kf k) = Some (next_promise s))
    by (cbn [cacheMap cache_lookup]; apply map_get_set_eq).
  assert (Hp1 : promises s1 !! next_promise s = Some (primed_state v))
    by (cbn [promises]; apply lookup_insert_eq).
  destruct (load_hit_shape m kf k s1 (next_promise s) (reachable_fresh bl m kf true s1 Hr1) Hn Hl1)
    as (s2 & b & bt & E2 & Hcl & _ & Hk & _ & Hcur & Hb & Hd & Hin & Hpend).
  assert (Hst : step bl m kf s1 s2) by (eapply step_load; exact E2).
  assert (Hr2 : reachable bl m kf true s2) by (eapply reach_step; [exact Hr1 | exact Hst]).
  exists s1, s2, b, bt.
  split; [exact E1 |]. split; [exact Hl1 |]. split; [exact Hp1 |].
  split; [exact (outcome_primed s1 (next_promise s) v Hp1) |].
  split; [exact E2 |]. split; [exact Hcl |]. split; [exact Hk |].
  split; [exact Hcur |]. split; [exact Hb |]. split; [exact Hd |]. split; [exact Hin |].
  split; [unfold outcome; cbn [outcome_n]; rewrite Hpend; reflexivity |].
  intros t o Ht Ho.
  pose proof (rtc_ho_trans bl m kf s2 t (reachable_hits_ok bl m kf true s2 Hr2) Ht) as [Hot Hpt].
  assert (Hh : hit_in t b (next_promise s1) (next_promise s))
    by (apply Hpt; exists bt; split; [exact Hb | exact Hin]).
  split.
  - assert (Ht1 : rtc (step bl m kf) s1 t) by (eapply rtc_l; [exact Hst | exact Ht]).
    pose proof (rtc_settled_kept bl m kf s1 t (reachable_fresh bl m kf true s1 Hr1) Ht1
                  (next_promise s) (primed_state v) Hp1 (primed_state_settled v)) as Hpt1.
    rewrite <- (outcome_primed t (next_promise s) v Hpt1).
    exact (hit_outcome t b (next_promise s1) (next_promise s) o Hot Hh Ho).
  - exact (hit_settled_dispatched t b (next_promise s1) (next_promise s) o Hot Hh Ho).
Qed.

Lemma prime_then_load_witness :
  reachable echo_backend NInf id true (loaded_state NInf true) /\
  is_nullish (JNum (NFin 2)) = false /\
  cache_lookup (cacheMap (loaded_state NInf true)) (id (JNum (NFin 2))) = None /\
  exists s1 s2 b bt, prime id (JNum (NFin 2)) (JStr "v") (loaded_state NInf true) = Ret s1 tt /\
     cache_lookup (cacheMap s1) (id (JNum (NFin 2))) = Some (next_promise (loaded_state NInf true)) /\
     promises s1 !! next_promise (loaded_state NInf true) = Some (primed_state (JStr "v")) /\
     outcome s1 (next_promise (loaded_state NInf true)) = primed_outcome (JStr "v") /\
     load NInf id (JNum (NFin 2)) s1 = Ret s2 (next_promise s1) /\
     calls s2 = calls (loaded_state NInf true) /\
     (forall b', keys (get_batch s2 b') = keys (get_batch (loaded_state NInf true) b')) /\
     cur_batch s2 = Some b /\ batches s2 !! b = Some bt /\ hasDispatched bt = false /\
     In (next_promise s1, next_promise (loaded_state NInf true)) (hits bt) /\
     outcome s2 (next_promise s1) = None /\
     forall t o, rtc (step echo_backend NInf id) s2 t -> outcome t (next_promise s1) = Some o ->
       primed_outcome (JStr "v") = Some o /\
       exists bt', batches t !! b = Some bt' /\ hasDispatched bt' = true.
Proof.
  assert (Hl : cache_lookup (cacheMap (loaded_state NInf true)) (id (JNum (NFin 2))) = None)
    by (vm_compute; reflexivity).
  split; [apply reachable_loaded |]. split; [reflexivity |]. split; [exact Hl |].
  exact (proj2 (prime_then_load echo_backend NInf id (JNum (NFin 2)) (JStr "v")
           (loaded_state NInf true) (reachable_loaded echo_backend NInf true) eq_refl) Hl).
Defined.
